(** * ConnectionMultiplexer (debugger-hhvm-proxy)

    A shallow embedding of
    [pkg/nuclide/debugger-hhvm-proxy/lib/ConnectionMultiplexer.js]:
    the multiplexer that presents several DBGP connections as one
    debugging session.

    The class is single threaded and callback driven.  Every method is
    embedded as a computation over the multiplexer's fields that may
    complete normally or throw; an [await] splits an async method into the
    part before it and the part resumed when the awaited promise settles.
    What the multiplexer does to its collaborators (the status emitter, the
    connections, the breakpoint store, the client callback, the connector)
    is recorded, in order, in a log of effects; the collaborators themselves
    ([Connection], [DbgpConnector], [BreakpointStore], [ClientCallback]) are
    other modules and appear only through what they are asked to do and
    through the callbacks they make. *)

From Stdlib Require Import List Arith Bool String Lia.
Import ListNotations.
Local Open Scope string_scope.
Local Open Scope list_scope.

(** ** Data *)

(** A status is a string: one of the seven constants imported from
    [./DbgpSocket], or any other string, [STATUS_UNLISTED name], where
    [name] is a string that is none of the seven.  The multiplexer assigns
    only constants to its own status; a connection may report any string. *)
Inductive Status : Type :=
| STATUS_STARTING
| STATUS_STOPPING
| STATUS_STOPPED
| STATUS_RUNNING
| STATUS_BREAK
| STATUS_ERROR
| STATUS_END
| STATUS_UNLISTED (name : string).

(** [status === other] on two statuses. *)
Definition Status_eqb (a b : Status) : bool :=
  match a, b with
  | STATUS_STARTING, STATUS_STARTING => true
  | STATUS_STOPPING, STATUS_STOPPING => true
  | STATUS_STOPPED, STATUS_STOPPED => true
  | STATUS_RUNNING, STATUS_RUNNING => true
  | STATUS_BREAK, STATUS_BREAK => true
  | STATUS_ERROR, STATUS_ERROR => true
  | STATUS_END, STATUS_END => true
  | STATUS_UNLISTED a, STATUS_UNLISTED b => String.eqb a b
  | _, _ => false
  end.

(** A [Connection] object, known to the multiplexer by its identity only:
    the number is the object's address, handed out by [new Connection]. *)
Definition Connection : Type := nat.

(** [connection === this._enabledConnection]; the slot may be [null]. *)
Definition same_connection (c : Connection) (slot : option Connection) : bool :=
  match slot with
  | Some c' => Nat.eqb c c'
  | None => false
  end.

(** Continuation commands are strings; [COMMAND_RUN] comes from
    [./DbgpSocket]. *)
Definition Command : Type := string.

(** The disposable returned by [connection.onStatus]: disposing it detaches
    the multiplexer's callback from that connection. *)
Record Disposable : Type := { detaches : Connection }.

Record ConnectionInfo : Type := {
  connection : Connection;
  onStatusDisposable : Disposable;
  status : Status
}.

(** Modelled from the spec: the type [ConnectionConfig] of
    [./HhvmDebuggerProxyService] is not in the sources; the spec lists its
    fields as [{scriptRegex, idekeyRegex, endDebugWhenNoRequests, ...}]. *)
Record ConnectionConfig : Type := {
  scriptRegex : option string;
  idekeyRegex : option string;
  endDebugWhenNoRequests : bool
}.

(** The connector made by [listen()]. *)
Record DbgpConnector : Type := { connectorConfig : ConnectionConfig }.

(** The warm-up child process started by [sendDummyRequest()]. *)
Definition ChildProcess : Type := nat.

(** ** The JavaScript [Map] keyed by connection identity

    Iteration follows insertion order; [set] on a key already present keeps
    its place. *)
Definition ConnectionMap : Type := list (Connection * ConnectionInfo).

Fixpoint Map_get (c : Connection) (m : ConnectionMap) : option ConnectionInfo :=
  match m with
  | [] => None
  | (k, v) :: rest => if Nat.eqb k c then Some v else Map_get c rest
  end.

Fixpoint Map_set (c : Connection) (v : ConnectionInfo) (m : ConnectionMap)
  : ConnectionMap :=
  match m with
  | [] => [(c, v)]
  | (k, x) :: rest =>
      if Nat.eqb k c then (k, v) :: rest else (k, x) :: Map_set c v rest
  end.

Fixpoint Map_delete (c : Connection) (m : ConnectionMap) : ConnectionMap :=
  match m with
  | [] => []
  | (k, x) :: rest =>
      if Nat.eqb k c then rest else (k, x) :: Map_delete c rest
  end.

Definition Map_keys (m : ConnectionMap) : list Connection := map fst m.
Definition Map_values (m : ConnectionMap) : list ConnectionInfo := map snd m.
Definition Map_size (m : ConnectionMap) : nat := List.length m.

(** ** Effects on the collaborators *)
Inductive Effect : Type :=
| EmitStatus (st : Status)
    (* this._emitter.emit(CONNECTION_MUX_STATUS_EVENT, status) *)
| SendContinuationCommand (c : Connection) (cmd : Command)
| DisposeSubscription (d : Disposable)
| DisposeConnection (c : Connection)
| BreakpointStoreAddConnection (c : Connection)
| SubscribeStatus (c : Connection)       (* connection.onStatus(callback) *)
| QueryStatus (c : Connection)           (* connection.getStatus() *)
| SendUserMessage (channel kind text : string)
| FailConnection
| ConnectorListen
| ConnectorDispose
| KillDummyRequestProcess (p : ChildProcess).

(** ** The multiplexer and its surroundings *)
Record Mux : Type := {
  _config : ConnectionConfig;
  _status : Status;
  _enabledConnection : option Connection;
  _dummyConnection : option Connection;
  _connections : ConnectionMap;
  _connector : option DbgpConnector;
  _dummyRequestProcess : option ChildProcess;
  (* the connections handed to this._breakpointStore.addConnection *)
  _breakpointStore : list Connection;
  (* the address the next [new Connection] receives *)
  heapNext : nat;
  (* the local [dummyConnection] of every _handleDummyConnection call
     suspended at its await *)
  awaitingDummyRun : list Connection;
  (* what was done to the collaborators, oldest first *)
  effects : list Effect
}.

Definition set_status (v : Status) (s : Mux) : Mux :=
  {| _config := _config s; _status := v;
     _enabledConnection := _enabledConnection s;
     _dummyConnection := _dummyConnection s;
     _connections := _connections s; _connector := _connector s;
     _dummyRequestProcess := _dummyRequestProcess s;
     _breakpointStore := _breakpointStore s; heapNext := heapNext s;
     awaitingDummyRun := awaitingDummyRun s; effects := effects s |}.

Definition set_enabledConnection (v : option Connection) (s : Mux) : Mux :=
  {| _config := _config s; _status := _status s;
     _enabledConnection := v;
     _dummyConnection := _dummyConnection s;
     _connections := _connections s; _connector := _connector s;
     _dummyRequestProcess := _dummyRequestProcess s;
     _breakpointStore := _breakpointStore s; heapNext := heapNext s;
     awaitingDummyRun := awaitingDummyRun s; effects := effects s |}.

Definition set_dummyConnection (v : option Connection) (s : Mux) : Mux :=
  {| _config := _config s; _status := _status s;
     _enabledConnection := _enabledConnection s;
     _dummyConnection := v;
     _connections := _connections s; _connector := _connector s;
     _dummyRequestProcess := _dummyRequestProcess s;
     _breakpointStore := _breakpointStore s; heapNext := heapNext s;
     awaitingDummyRun := awaitingDummyRun s; effects := effects s |}.

Definition set_connections (v : ConnectionMap) (s : Mux) : Mux :=
  {| _config := _config s; _status := _status s;
     _enabledConnection := _enabledConnection s;
     _dummyConnection := _dummyConnection s;
     _connections := v; _connector := _connector s;
     _dummyRequestProcess := _dummyRequestProcess s;
     _breakpointStore := _breakpointStore s; heapNext := heapNext s;
     awaitingDummyRun := awaitingDummyRun s; effects := effects s |}.

Definition set_connector (v : option DbgpConnector) (s : Mux) : Mux :=
  {| _config := _config s; _status := _status s;
     _enabledConnection := _enabledConnection s;
     _dummyConnection := _dummyConnection s;
     _connections := _connections s; _connector := v;
     _dummyRequestProcess := _dummyRequestProcess s;
     _breakpointStore := _breakpointStore s; heapNext := heapNext s;
     awaitingDummyRun := awaitingDummyRun s; effects := effects s |}.

Definition set_dummyRequestProcess (v : option ChildProcess) (s : Mux) : Mux :=
  {| _config := _config s; _status := _status s;
     _enabledConnection := _enabledConnection s;
     _dummyConnection := _dummyConnection s;
     _connections := _connections s; _connector := _connector s;
     _dummyRequestProcess := v;
     _breakpointStore := _breakpointStore s; heapNext := heapNext s;
     awaitingDummyRun := awaitingDummyRun s; effects := effects s |}.

Definition set_breakpointStore (v : list Connection) (s : Mux) : Mux :=
  {| _config := _config s; _status := _status s;
     _enabledConnection := _enabledConnection s;
     _dummyConnection := _dummyConnection s;
     _connections := _connections s; _connector := _connector s;
     _dummyRequestProcess := _dummyRequestProcess s;
     _breakpointStore := v; heapNext := heapNext s;
     awaitingDummyRun := awaitingDummyRun s; effects := effects s |}.

Definition set_heapNext (v : nat) (s : Mux) : Mux :=
  {| _config := _config s; _status := _status s;
     _enabledConnection := _enabledConnection s;
     _dummyConnection := _dummyConnection s;
     _connections := _connections s; _connector := _connector s;
     _dummyRequestProcess := _dummyRequestProcess s;
     _breakpointStore := _breakpointStore s; heapNext := v;
     awaitingDummyRun := awaitingDummyRun s; effects := effects s |}.

Definition set_awaitingDummyRun (v : list Connection) (s : Mux) : Mux :=
  {| _config := _config s; _status := _status s;
     _enabledConnection := _enabledConnection s;
     _dummyConnection := _dummyConnection s;
     _connections := _connections s; _connector := _connector s;
     _dummyRequestProcess := _dummyRequestProcess s;
     _breakpointStore := _breakpointStore s; heapNext := heapNext s;
     awaitingDummyRun := v; effects := effects s |}.

Definition set_effects (v : list Effect) (s : Mux) : Mux :=
  {| _config := _config s; _status := _status s;
     _enabledConnection := _enabledConnection s;
     _dummyConnection := _dummyConnection s;
     _connections := _connections s; _connector := _connector s;
     _dummyRequestProcess := _dummyRequestProcess s;
     _breakpointStore := _breakpointStore s; heapNext := heapNext s;
     awaitingDummyRun := awaitingDummyRun s; effects := v |}.

(** ** Computations that may throw

    A thrown exception keeps the mutations made before it, as in
    JavaScript. *)
Inductive Exception : Type :=
| TypeError                      (* property access on undefined *)
| Error (message : string).      (* new Error(message) *)

Inductive Completion (A : Type) : Type :=
| Normal (a : A)
| Throw (e : Exception).
Arguments Normal {A} a.
Arguments Throw {A} e.

Definition Js (A : Type) : Type := Mux -> Completion A * Mux.

Definition ret {A : Type} (a : A) : Js A := fun s => (Normal a, s).

Definition bind {A B : Type} (m : Js A) (k : A -> Js B) : Js B :=
  fun s =>
    match m s with
    | (Normal a, s') => k a s'
    | (Throw e, s') => (Throw e, s')
    end.

Definition throw {A : Type} (e : Exception) : Js A := fun s => (Throw e, s).
Definition this : Js Mux := fun s => (Normal s, s).
Definition assign (f : Mux -> Mux) : Js unit := fun s => (Normal tt, f s).
Definition perform (e : Effect) : Js unit :=
  assign (fun s => set_effects (effects s ++ [e]) s).

Declare Scope js_scope.
Delimit Scope js_scope with js.
Notation "x <- m ;; k" := (bind m (fun x => k))
  (at level 61, m at next level, right associativity) : js_scope.
Notation "m ;; k" := (bind m (fun _ => k))
  (at level 61, right associativity) : js_scope.
Local Open Scope js_scope.

(** The state a computation leaves, and how it completed. *)
Definition exec {A : Type} (m : Js A) (s : Mux) : Mux := snd (m s).
Definition completion {A : Type} (m : Js A) (s : Mux) : Completion A := fst (m s).

(** ** A sample instance

    Three kinds of handshake stand for what [isCorrectConnection] and
    [isDummyConnection] tell apart: a request of the debugged script, the
    warm-up request, and a request the configuration does not accept.  The
    examples at the end of the file run the multiplexer on them. *)
Inductive Handshake : Type :=
| ScriptRequest
| DummyRequest
| ForeignRequest.

Definition handshake_correct (config : ConnectionConfig) (m : Handshake) : bool :=
  match m with
  | ForeignRequest => false
  | _ => true
  end.

Definition handshake_dummy (m : Handshake) : bool :=
  match m with
  | DummyRequest => true
  | _ => false
  end.

Definition sample_config (endWhenNoRequests : bool) : ConnectionConfig :=
  {| scriptRegex := None;
     idekeyRegex := None;
     endDebugWhenNoRequests := endWhenNoRequests |}.

(** The map entry of connection [c] with cached status [st]. *)
Definition info_of (c : Connection) (st : Status) : ConnectionInfo :=
  {| connection := c; onStatusDisposable := {| detaches := c |}; status := st |}.

(** ** The class

    [logger] calls are left out: they touch nothing the multiplexer owns. *)
Section ConnectionMultiplexer.

(** What [./ConnectionUtils] and [./DbgpSocket] supply. *)
Variable Message : Type.
Variable isCorrectConnection : ConnectionConfig -> Message -> bool.
Variable isDummyConnection : Message -> bool.
Variable sendDummyRequest : option ChildProcess.
Variable COMMAND_RUN : Command.

Definition constructor (config : ConnectionConfig) : Mux :=
  {| _config := config;
     _status := STATUS_STARTING;
     _enabledConnection := None;
     _dummyConnection := None;
     _connections := [];
     _connector := None;
     _dummyRequestProcess := None;
     _breakpointStore := [];
     heapNext := 0;
     awaitingDummyRun := [];
     effects := [] |}.

Definition _emitStatus (st : Status) : Js unit := perform (EmitStatus st).

Definition _setStatus (st : Status) : Js unit :=
  s <- this ;;
  if negb (Status_eqb st (_status s)) then
    assign (set_status st) ;;
    _emitStatus st
  else ret tt.

Definition _enableConnection (c : Connection) : Js unit :=
  assign (set_enabledConnection (Some c)) ;;
  _setStatus STATUS_BREAK.

Definition _disableConnection : Js unit :=
  assign (set_enabledConnection None) ;;
  _setStatus STATUS_RUNNING.

Definition _checkForEnd : Js unit :=
  s <- this ;;
  if Nat.eqb (Map_size (_connections s)) 0 &&
     (match _connector s with None => true | Some _ => false end
      || endDebugWhenNoRequests (_config s))
  then _setStatus STATUS_END
  else ret tt.

Definition _removeConnection (c : Connection) : Js unit :=
  s <- this ;;
  match Map_get c (_connections s) with
  | None => throw TypeError
  | Some info =>
      perform (DisposeSubscription (onStatusDisposable info)) ;;
      perform (DisposeConnection c) ;;
      assign (fun s => set_connections (Map_delete c (_connections s)) s) ;;
      s <- this ;;
      (if same_connection c (_enabledConnection s)
       then _disableConnection else ret tt) ;;
      _checkForEnd
  end.

(** The [for ... of this._connections.values()] loop of [_updateStatus],
    left at the first connection whose cached status is BREAK. *)
Fixpoint enableFirstBreak (infos : list ConnectionInfo) : Js unit :=
  match infos with
  | [] => ret tt
  | connectionInfo :: rest =>
      if Status_eqb (status connectionInfo) STATUS_BREAK
      then _enableConnection (connection connectionInfo)
      else enableFirstBreak rest
  end.

Definition _updateStatus : Js unit :=
  s <- this ;;
  if Status_eqb (_status s) STATUS_END then ret tt
  else if Status_eqb (_status s) STATUS_BREAK then ret tt
  else enableFirstBreak (Map_values (_connections s)).

Definition _connectionOnStatus (c : Connection) (st : Status) : Js unit :=
  s <- this ;;
  match Map_get c (_connections s) with
  | None => throw TypeError
  | Some info =>
      assign (set_connections
                (Map_set c {| connection := connection info;
                              onStatusDisposable := onStatusDisposable info;
                              status := st |} (_connections s))) ;;
      match st with
      | STATUS_STARTING => perform (SendContinuationCommand c COMMAND_RUN)
      | STATUS_STOPPING => perform (SendContinuationCommand c COMMAND_RUN)
      | STATUS_RUNNING =>
          s <- this ;;
          (if same_connection c (_enabledConnection s)
           then _disableConnection else ret tt) ;;
          _updateStatus
      | STATUS_BREAK =>
          s <- this ;;
          if same_connection c (_enabledConnection s)
          then _emitStatus STATUS_BREAK
          else _updateStatus
      | STATUS_STOPPED | STATUS_ERROR | STATUS_END =>
          _removeConnection c ;;
          _updateStatus
      | STATUS_UNLISTED _ =>
          (* no [case] of the [switch] matches *)
          _updateStatus
      end
  end.

Definition listen : Js unit :=
  s <- this ;;
  assign (set_connector (Some {| connectorConfig := _config s |})) ;;
  assign (set_status STATUS_RUNNING) ;;
  perform ConnectorListen ;;
  perform (SendUserMessage "console" "warning" "Pre-loading, please wait...") ;;
  assign (set_dummyRequestProcess sendDummyRequest).

Definition new_Connection : Js Connection :=
  s <- this ;;
  assign (set_heapNext (S (heapNext s))) ;;
  ret (heapNext s).

(** [_handleDummyConnection] up to its [await]. *)
Definition _handleDummyConnection : Js unit :=
  dummyConnection <- new_Connection ;;
  perform (SendContinuationCommand dummyConnection COMMAND_RUN) ;;
  assign (fun s => set_awaitingDummyRun (awaitingDummyRun s ++ [dummyConnection]) s).

(** [_handleDummyConnection] after the awaited run command resolved. *)
Definition _handleDummyConnection_resume (dummyConnection : Connection) : Js unit :=
  assign (set_dummyConnection (Some dummyConnection)) ;;
  perform (SendUserMessage "console" "warning"
             "Pre-loading is done. You can use console window now.").

(** [_onAttach] up to [await connection.getStatus()]. *)
Definition _onAttach (message : Message) : Js unit :=
  s <- this ;;
  if negb (isCorrectConnection (_config s) message) then
    perform FailConnection
  else if isDummyConnection message then
    _handleDummyConnection
  else
    c <- new_Connection ;;
    perform (BreakpointStoreAddConnection c) ;;
    assign (fun s => set_breakpointStore (_breakpointStore s ++ [c]) s) ;;
    perform (SubscribeStatus c) ;;
    assign (fun s => set_connections
                       (Map_set c {| connection := c;
                                     onStatusDisposable := {| detaches := c |};
                                     status := STATUS_STARTING |}
                                (_connections s)) s) ;;
    perform (QueryStatus c).

(** [_onAttach] from the point where [connection.getStatus()] settled:
    [Some st] when it resolved to [st], [None] when it rejected and the
    [catch] block ran. *)
Definition _onAttach_resume (c : Connection) (settled : option Status) : Js unit :=
  let st := match settled with
            | Some st => st
            | None => STATUS_ERROR
            end in
  _connectionOnStatus c st.

Definition _handleAttachError (error : string) : Js unit :=
  perform (SendUserMessage "notification" "error" error).

(** [connector.dispose()] may call the [onClose] callback, which is
    [_disposeConnector] again: with [_connector] already [null] that inner
    call only runs [_checkForEnd], and running the check twice is running it
    once ([checkForEnd_twice] below). *)
Definition _disposeConnector : Js unit :=
  s <- this ;;
  match _connector s with
  | Some connector =>
      assign (set_connector None) ;;
      perform ConnectorDispose
  | None => ret tt
  end ;;
  _checkForEnd.

(** The loop of [dispose()] over [this._connections.keys()].  Removing a
    connection deletes its own entry only, so the live iterator visits the
    keys present when the loop starts, in order. *)
Fixpoint removeEach (keys : list Connection) : Js unit :=
  match keys with
  | [] => ret tt
  | c :: rest => _removeConnection c ;; removeEach rest
  end.

Definition dispose : Js unit :=
  s <- this ;;
  removeEach (Map_keys (_connections s)) ;;
  s <- this ;;
  match _dummyRequestProcess s with
  | Some p => perform (KillDummyRequestProcess p)
  | None => ret tt
  end ;;
  _disposeConnector.

Definition getStatus : Js Status :=
  s <- this ;; ret (_status s).

(** ** Forwarding operations *)

Definition _noConnectionError : Exception := Error "No connection".

Inductive ConnectionCall : Type :=
| evaluateOnCallFrame_call (frameIndex : nat) (expression : string)
| getStackFrames_call
| getScopesForFrame_call (frameIndex : nat)
| sendBreakCommand_call
| getProperties_call (remoteId : string).

(** What a forwarding operation gives its caller: the answer of the
    connection the call was passed to, a value made on the spot, or (by
    [Throw]) an error.  [evaluateOnCallFrame] and [runtimeEvaluate] also
    report a failed evaluation to the client once the connection answered;
    that part needs the connection's answer and is not embedded. *)
Inductive Answer : Type :=
| OfConnection (c : Connection) (call : ConnectionCall)
| EmptyStack                     (* Promise.resolve({stack: []}) *)
| ResolvedBool (b : bool).       (* Promise.resolve(false) *)

Definition evaluateOnCallFrame (frameIndex : nat) (expression : string) : Js Answer :=
  s <- this ;;
  match _enabledConnection s with
  | Some c => ret (OfConnection c (evaluateOnCallFrame_call frameIndex expression))
  | None => throw _noConnectionError
  end.

Definition runtimeEvaluate (expression : string) : Js Answer :=
  s <- this ;;
  match _dummyConnection s with
  | Some d => ret (OfConnection d (evaluateOnCallFrame_call 0 expression))
  | None => throw _noConnectionError
  end.

Definition getStackFrames : Js Answer :=
  s <- this ;;
  match _enabledConnection s with
  | Some c => ret (OfConnection c getStackFrames_call)
  | None => ret EmptyStack
  end.

Definition getScopesForFrame (frameIndex : nat) : Js Answer :=
  s <- this ;;
  match _enabledConnection s with
  | Some c => ret (OfConnection c (getScopesForFrame_call frameIndex))
  | None => throw _noConnectionError
  end.

Definition sendContinuationCommand (command : Command) : Js unit :=
  s <- this ;;
  match _enabledConnection s with
  | Some c => perform (SendContinuationCommand c command)
  | None => throw _noConnectionError
  end.

Definition sendBreakCommand : Js Answer :=
  s <- this ;;
  match _enabledConnection s with
  | Some c => ret (OfConnection c sendBreakCommand_call)
  | None => ret (ResolvedBool false)
  end.

Definition getProperties (remoteId : string) : Js Answer :=
  s <- this ;;
  let otherwise : Js Answer :=
    match _dummyConnection s with
    | Some d => ret (OfConnection d (getProperties_call remoteId))
    | None => throw _noConnectionError
    end in
  match _enabledConnection s with
  | Some c =>
      if Status_eqb (_status s) STATUS_BREAK
      then ret (OfConnection c (getProperties_call remoteId))
      else otherwise
  | None => otherwise
  end.

(** ** Events

    After [listen()], the multiplexer runs only when one of its callbacks
    is called.  Any callback may come at any time and for any connection:
    - [Attach]: the connector hands over a socket and its handshake;
    - [StatusQuerySettled c settled]: the [getStatus()] promise awaited by
      [_onAttach] for [c] resolved ([Some st]) or rejected ([None]);
    - [DummyRunResolved d]: the run command awaited by
      [_handleDummyConnection] for [d] resolved; it is acted upon only when
      such a call is suspended on [d], since [d] is a local variable of that
      call;
    - [ConnectionStatus c st]: [c] reports a status to its subscriber;
    - [ConnectorClose], [ConnectorError]: the connector's other two
      callbacks;
    - [Dispose]: the owner calls [dispose()].
    A callback for a connection that is not in the map throws at its first
    statement and changes nothing. *)
Inductive Event : Type :=
| Attach (message : Message)
| StatusQuerySettled (c : Connection) (settled : option Status)
| DummyRunResolved (d : Connection)
| ConnectionStatus (c : Connection) (st : Status)
| ConnectorClose
| ConnectorError (error : string)
| Dispose.

Definition deliver (e : Event) : Js unit :=
  match e with
  | Attach message => _onAttach message
  | StatusQuerySettled c settled => _onAttach_resume c settled
  | DummyRunResolved d =>
      s <- this ;;
      if existsb (Nat.eqb d) (awaitingDummyRun s) then
        assign (fun s => set_awaitingDummyRun
                           (filter (fun x => negb (Nat.eqb d x)) (awaitingDummyRun s)) s) ;;
        _handleDummyConnection_resume d
      else ret tt
  | ConnectionStatus c st => _connectionOnStatus c st
  | ConnectorClose => _disposeConnector
  | ConnectorError error => _handleAttachError error
  | Dispose => dispose
  end.

(** The multiplexer after [new ConnectionMultiplexer(config)], [listen()]
    and the given events, oldest first. *)
Definition run_from (s : Mux) (events : list Event) : Mux :=
  fold_left (fun s e => exec (deliver e) s) events s.

Definition listening (config : ConnectionConfig) : Mux :=
  exec listen (constructor config).

Definition run (config : ConnectionConfig) (events : list Event) : Mux :=
  run_from (listening config) events.

(** The statuses delivered to the [onStatus] subscribers, oldest first. *)
Fixpoint emitted_of (l : list Effect) : list Status :=
  match l with
  | [] => []
  | EmitStatus st :: rest => st :: emitted_of rest
  | _ :: rest => emitted_of rest
  end.

Definition emitted (s : Mux) : list Status := emitted_of (effects s).

(** ** What holds between two callbacks *)

Definition is_dummy (s : Mux) (d : Connection) : Prop :=
  _dummyConnection s = Some d \/ In d (awaitingDummyRun s).

Definition tracked (s : Mux) (c : Connection) : Prop :=
  In c (Map_keys (_connections s)).

(** The connections of the map that are the enabled one. *)
Definition enabledConnections (s : Mux) : list Connection :=
  filter (fun c => same_connection c (_enabledConnection s))
         (Map_keys (_connections s)).

Fixpoint last_status (l : list Status) : option Status :=
  match l with
  | [] => None
  | x :: rest => match rest with [] => Some x | _ => last_status rest end
  end.

(** No status other than BREAK is delivered twice in a row. *)
Fixpoint repeats_only_break (l : list Status) : Prop :=
  match l with
  | a :: (b :: _) as rest => (a = b -> a = STATUS_BREAK) /\ repeats_only_break rest
  | _ => True
  end.

Definition mux_status (st : Status) : Prop :=
  st = STATUS_BREAK \/ st = STATUS_RUNNING \/ st = STATUS_END.

(** What holds at every point of a callback. *)
Record Base (s : Mux) : Prop := {
  inv_nodup : NoDup (Map_keys (_connections s));
  inv_info : forall k i, In (k, i) (_connections s) -> connection i = k;
  inv_status : mux_status (_status s);
  inv_keys_lt : forall c, tracked s c -> c < heapNext s;
  inv_keys_store : forall c, tracked s c -> In c (_breakpointStore s);
  inv_store_lt : forall c, In c (_breakpointStore s) -> c < heapNext s;
  inv_dummy : forall d, is_dummy s d ->
                        d < heapNext s /\ ~ In d (_breakpointStore s);
  inv_last : forall x, last_status (emitted s) = Some x -> x = _status s;
  inv_first : emitted s = [] -> _status s = STATUS_RUNNING;
  inv_repeats : repeats_only_break (emitted s);
  inv_emitted : Forall mux_status (emitted s)
}.

(** How the enabled slot and the global status go together; a callback
    may break this on its way and restores it before it returns. *)
Record Link (s : Mux) : Prop := {
  inv_enabled : forall c, _enabledConnection s = Some c ->
                          tracked s c /\ _status s = STATUS_BREAK;
  inv_break : _status s = STATUS_BREAK -> _enabledConnection s <> None
}.

Definition Inv (s : Mux) : Prop := Base s /\ Link s.

(** The test [_checkForEnd] makes. *)
Definition end_of_life (s : Mux) : bool :=
  Nat.eqb (Map_size (_connections s)) 0 &&
  (match _connector s with None => true | Some _ => false end
   || endDebugWhenNoRequests (_config s)).

(** The statuses on which [_connectionOnStatus] removes the connection. *)
Definition terminal (st : Status) : bool :=
  match st with
  | STATUS_STOPPED | STATUS_ERROR | STATUS_END => true
  | _ => false
  end.

(** The status a callback hands to [_connectionOnStatus], and the
    connection it is about: the status reported, or the answer to the first
    status query, ERROR standing for a failed query. *)
Definition reported (e : Event) : option (Connection * Status) :=
  match e with
  | ConnectionStatus c st => Some (c, st)
  | StatusQuerySettled c (Some st) => Some (c, st)
  | StatusQuerySettled c None => Some (c, STATUS_ERROR)
  | _ => None
  end.

(** The callbacks that, delivered in [s], reach [_checkForEnd]: a
    connection of the map removed on a terminal status, the connector
    closing, and [dispose()]. *)
Definition checks_for_end (s : Mux) (e : Event) : bool :=
  match e with
  | ConnectorClose => true
  | Dispose => true
  | _ =>
      match reported e with
      | Some (c, st) =>
          terminal st &&
          match Map_get c (_connections s) with Some _ => true | None => false end
      | None => false
      end
  end.

Definition preserves {A : Type} (P : Mux -> Prop) (m : Js A) : Prop :=
  forall s, P s -> P (exec m s).

(** ** States the callbacks pass through *)

(** After the first three statements of [_removeConnection]. *)
Definition removed (c : Connection) (info : ConnectionInfo) (s : Mux) : Mux :=
  set_connections (Map_delete c (_connections s))
    (set_effects ((effects s ++ [DisposeSubscription (onStatusDisposable info)])
                    ++ [DisposeConnection c]) s).

(** After [this._connections.get(connection).status = status]. *)
Definition touched (c : Connection) (info : ConnectionInfo) (st : Status) (s : Mux) : Mux :=
  set_connections
    (Map_set c {| connection := connection info;
                  onStatusDisposable := onStatusDisposable info;
                  status := st |} (_connections s)) s.

(** After [_onAttach] accepted a connection that is not the dummy one. *)
Definition attached (s : Mux) : Mux :=
  let c := heapNext s in
  set_effects (effects s ++ [BreakpointStoreAddConnection c; SubscribeStatus c; QueryStatus c])
    (set_connections
       (Map_set c {| connection := c;
                     onStatusDisposable := {| detaches := c |};
                     status := STATUS_STARTING |} (_connections s))
       (set_breakpointStore (_breakpointStore s ++ [c])
          (set_heapNext (S (heapNext s)) s))).

(** After [_handleDummyConnection] sent its run command. *)
Definition dummy_started (s : Mux) : Mux :=
  let d := heapNext s in
  set_awaitingDummyRun (awaitingDummyRun s ++ [d])
    (set_effects (effects s ++ [SendContinuationCommand d COMMAND_RUN])
       (set_heapNext (S (heapNext s)) s)).

(** After the suspended [_handleDummyConnection] call for [d] went on. *)
Definition resumed_dummy (d : Connection) (s : Mux) : Mux :=
  exec (_handleDummyConnection_resume d)
    (set_awaitingDummyRun (filter (fun x => negb (Nat.eqb d x)) (awaitingDummyRun s)) s).

(** A property of the multiplexer that survives each elementary step, under
    the guard the code puts before that step; it then survives every
    callback that does not attach a connection. *)
Record step_closed (P : Mux -> Prop) : Prop := {
  sc_perform : forall s e, (forall st, e <> EmitStatus st) -> P s -> P (exec (perform e) s);
  sc_delete : forall s c info, Map_get c (_connections s) = Some info -> P s ->
                P (set_connections (Map_delete c (_connections s)) s);
  sc_touch : forall s c info st, Map_get c (_connections s) = Some info -> P s ->
                P (touched c info st s);
  sc_disable : forall s c, _enabledConnection s = Some c -> P s ->
                P (exec _disableConnection s);
  sc_enable : forall s c, _status s <> STATUS_END -> _status s <> STATUS_BREAK -> P s ->
                P (exec (_enableConnection c) s);
  sc_end : forall s, end_of_life s = true -> P s -> P (exec (_setStatus STATUS_END) s);
  sc_emit : forall s c, _enabledConnection s = Some c -> P s ->
                P (exec (_emitStatus STATUS_BREAK) s);
  sc_close : forall s, P s -> P (set_connector None s);
  sc_dummy : forall s d, P s -> P (resumed_dummy d s)
}.

(** The session has ended, with [l] emitted so far. *)
Definition ended (l : list Status) (s : Mux) : Prop :=
  _status s = STATUS_END /\ _enabledConnection s = None /\ emitted s = l.

(** If the status is END, the test of [_checkForEnd] holds. *)
Definition end_checked (s : Mux) : Prop :=
  _status s = STATUS_END -> end_of_life s = true.

(** The log of effects is [l] followed by effects that all satisfy
    [only]. *)
Definition grown (l : list Effect) (only : Effect -> Prop) (s : Mux) : Prop :=
  exists more, effects s = l ++ more /\ Forall only more.

Definition is_emission (e : Effect) : Prop := exists st, e = EmitStatus st.


(** ** Reading the log of effects *)

(** The effects of [l] that [f] recognises, oldest first. *)
Fixpoint pick {A : Type} (f : Effect -> option A) (l : list Effect) : list A :=
  match l with
  | [] => []
  | e :: rest =>
      match f e with
      | Some a => a :: pick f rest
      | None => pick f rest
      end
  end.

Definition disposal (e : Effect) : option Connection :=
  match e with
  | DisposeConnection c => Some c
  | _ => None
  end.

Definition release (e : Effect) : option Disposable :=
  match e with
  | DisposeSubscription d => Some d
  | _ => None
  end.

(** The connections [connection.dispose()] was called on, oldest first. *)
Definition disposed (s : Mux) : list Connection := pick disposal (effects s).

(** The status subscriptions disposed, oldest first. *)
Definition released (s : Mux) : list Disposable := pick release (effects s).


(** The fields that only [listen], [_onAttach], [_handleDummyConnection] and
    [_disposeConnector] assign. *)
Definition surroundings (s : Mux) :=
  (_config s, _connector s, _dummyRequestProcess s, _dummyConnection s,
   _breakpointStore s, heapNext s, awaitingDummyRun s).

(** After the [kill] of [dispose()]. *)
Definition killed (s : Mux) : Mux :=
  match _dummyRequestProcess s with
  | Some p => exec (perform (KillDummyRequestProcess p)) s
  | None => s
  end.

(** After the [if (connector)] block of [_disposeConnector]. *)
Definition closed (s : Mux) : Mux :=
  match _connector s with
  | Some _ => exec (perform ConnectorDispose) (set_connector None s)
  | None => s
  end.


(** No connection waits in BREAK while the status is RUNNING. *)
Definition settled (s : Mux) : Prop :=
  _status s = STATUS_RUNNING ->
  forall e, In e (_connections s) -> status (snd e) <> STATUS_BREAK.

(** With the connector gone and no connection left, the status is END. *)
Definition over_when_deserted (s : Mux) : Prop :=
  _connector s = None -> _connections s = [] -> _status s = STATUS_END.


(** No connection is handed to the breakpoint store twice or disposed
    twice; a disposed connection was handed to the breakpoint store and is
    not in the map. *)
Definition lifecycle (s : Mux) : Prop :=
  NoDup (_breakpointStore s) /\
  NoDup (disposed s) /\
  (forall c, In c (disposed s) -> In c (_breakpointStore s) /\ ~ tracked s c).


(** The cached status of the enabled connection is BREAK, or what it
    reported since without being disabled: STARTING, STOPPING, or a status
    that is none of the seven constants. *)
Definition paused_or_continued (st : Status) : Prop :=
  st = STATUS_BREAK \/ st = STATUS_STARTING \/ st = STATUS_STOPPING \/
  exists name, st = STATUS_UNLISTED name.

Definition enabled_cache (s : Mux) : Prop :=
  forall c info,
    _enabledConnection s = Some c ->
    Map_get c (_connections s) = Some info ->
    paused_or_continued (status info).


(** The order in which statuses reach the subscribers: BREAK is followed by
    BREAK or RUNNING, RUNNING by BREAK or END, END by nothing. *)
Definition may_follow (a b : Status) : Prop :=
  (a = STATUS_BREAK /\ (b = STATUS_BREAK \/ b = STATUS_RUNNING)) \/
  (a = STATUS_RUNNING /\ (b = STATUS_BREAK \/ b = STATUS_END)).

Fixpoint path (from : Status) (l : list Status) : Prop :=
  match l with
  | [] => True
  | x :: rest => may_follow from x /\ path x rest
  end.

(** The last status of [l], or [from] when [l] is empty. *)
Definition last_or (from : Status) (l : list Status) : Status :=
  match last_status l with
  | Some x => x
  | None => from
  end.

(** The statuses emitted so far are in that order. *)
Definition ordered (s : Mux) : Prop := path STATUS_RUNNING (emitted s).

Definition sound (s : Mux) : Prop := Inv s /\ ordered s.


(** An effect that is not the emission of BREAK. *)
Definition not_break (e : Effect) : Prop := e <> EmitStatus STATUS_BREAK.


(** The session ended only with the connector gone, unless the
    configuration asks to end it when no request is left. *)
Definition ends_with_connector (s : Mux) : Prop :=
  endDebugWhenNoRequests (_config s) = false ->
  _status s = STATUS_END -> _connector s = None.

(** ** Auxiliary facts *)

Lemma Status_eqb_eq (a b : Status) : Status_eqb a b = true <-> a = b.
Proof.
  destruct a, b; simpl; split; intro H; try reflexivity; try discriminate H.
  - apply String.eqb_eq in H. now subst.
  - injection H as ->. apply String.eqb_refl.
Qed.

Lemma Status_eqb_neq (a b : Status) : Status_eqb a b = false <-> a <> b.
Proof.
  rewrite <- Status_eqb_eq. destruct (Status_eqb a b); split; congruence.
Qed.

Lemma same_connection_true c slot : same_connection c slot = true <-> slot = Some c.
Proof.
  destruct slot as [c'|]; simpl.
  - rewrite Nat.eqb_eq. split; congruence.
  - split; discriminate.
Qed.

Lemma same_connection_false c slot : same_connection c slot = false <-> slot <> Some c.
Proof.
  rewrite <- same_connection_true. destruct (same_connection c slot); split; congruence.
Qed.

Lemma Map_get_Some_In c m i : Map_get c m = Some i -> In (c, i) m.
Proof.
  induction m as [|[k x] m IH]; simpl; [discriminate|].
  destruct (Nat.eqb_spec k c) as [->|Hne]; intro H.
  - injection H as ->. now left.
  - right. auto.
Qed.

Lemma Map_get_Some_key c m i : Map_get c m = Some i -> In c (Map_keys m).
Proof.
  intro H. apply Map_get_Some_In in H.
  unfold Map_keys. change c with (fst (c, i)). now apply in_map.
Qed.

Lemma Map_get_None_key c m : Map_get c m = None -> ~ In c (Map_keys m).
Proof.
  induction m as [|[k x] m IH]; simpl; [tauto|].
  destruct (Nat.eqb_spec k c) as [->|Hne]; [discriminate|].
  intros H [E|HIn]; [congruence|]. now apply IH.
Qed.

Lemma In_keys_get c m : In c (Map_keys m) -> exists i, Map_get c m = Some i.
Proof.
  destruct (Map_get c m) as [i|] eqn:E; [eauto|].
  intro H. now apply Map_get_None_key in E.
Qed.

Lemma Map_set_keys_present c v m :
  In c (Map_keys m) -> Map_keys (Map_set c v m) = Map_keys m.
Proof.
  induction m as [|[k x] m IH]; simpl; [tauto|].
  destruct (Nat.eqb_spec k c) as [->|Hne]; simpl; [reflexivity|].
  intros [E|HIn]; [congruence|]. now rewrite IH.
Qed.

Lemma Map_set_fresh c v m : ~ In c (Map_keys m) -> Map_set c v m = m ++ [(c, v)].
Proof.
  induction m as [|[k x] m IH]; simpl; [reflexivity|].
  destruct (Nat.eqb_spec k c) as [->|Hne]; [tauto|].
  intro H. rewrite IH; tauto.
Qed.

Lemma Map_set_In k i c v m :
  In (k, i) (Map_set c v m) -> (k, i) = (c, v) \/ In (k, i) m.
Proof.
  induction m as [|[k' x] m IH]; simpl.
  - intros [E|[]]. left. congruence.
  - destruct (Nat.eqb_spec k' c) as [->|Hne]; simpl.
    + intros [E|H]; [left; congruence | right; now right].
    + intros [E|H]; [right; now left|]. destruct (IH H); [now left | right; now right].
Qed.

Lemma Map_get_set_same c v m : Map_get c (Map_set c v m) = Some v.
Proof.
  induction m as [|[k x] m IH]; simpl.
  - now rewrite Nat.eqb_refl.
  - destruct (Nat.eqb_spec k c) as [->|Hne]; simpl.
    + now rewrite Nat.eqb_refl.
    + destruct (Nat.eqb_spec k c); [contradiction | exact IH].
Qed.

Lemma Map_delete_In e c m : In e (Map_delete c m) -> In e m.
Proof.
  induction m as [|[k x] m IH]; simpl; [tauto|].
  destruct (Nat.eqb k c); simpl; intuition.
Qed.

Lemma Map_delete_keys_In k c m :
  In k (Map_keys (Map_delete c m)) -> In k (Map_keys m).
Proof.
  induction m as [|[k' x] m IH]; simpl; [tauto|].
  destruct (Nat.eqb k' c); simpl; intuition.
Qed.

Lemma Map_delete_keys_other k c m :
  k <> c -> In k (Map_keys m) -> In k (Map_keys (Map_delete c m)).
Proof.
  intro Hne. induction m as [|[k' x] m IH]; simpl; [tauto|].
  destruct (Nat.eqb_spec k' c) as [->|Hne']; simpl.
  - intros [E|H]; [congruence | exact H].
  - intuition.
Qed.

Lemma Map_delete_NoDup c m :
  NoDup (Map_keys m) -> NoDup (Map_keys (Map_delete c m)).
Proof.
  induction m as [|[k x] m IH]; simpl; [auto|].
  intro H. inversion H as [|? ? Hk Hm]; subst.
  destruct (Nat.eqb k c); simpl; [exact Hm|].
  constructor; [|auto]. intro HIn. apply Hk. eapply Map_delete_keys_In; eauto.
Qed.

Lemma Map_delete_gone c m :
  NoDup (Map_keys m) -> ~ In c (Map_keys (Map_delete c m)).
Proof.
  induction m as [|[k x] m IH]; simpl; [tauto|].
  intro H. inversion H as [|? ? Hk Hm]; subst.
  destruct (Nat.eqb_spec k c) as [->|Hne]; simpl; [exact Hk|].
  intros [E|HIn]; [congruence|]. now apply IH.
Qed.

(** *** The log of emitted statuses *)

Lemma emitted_of_app l1 l2 : emitted_of (l1 ++ l2) = emitted_of l1 ++ emitted_of l2.
Proof.
  induction l1 as [|e l1 IH]; simpl; [reflexivity|].
  destruct e; simpl; now rewrite ?IH.
Qed.

Lemma last_status_snoc l x : last_status (l ++ [x]) = Some x.
Proof.
  induction l as [|a l IH]; simpl; [reflexivity|].
  destruct (l ++ [x]) eqn:E; [|exact IH].
  now destruct l.
Qed.

Lemma last_status_cons a b l : last_status (a :: b :: l) = last_status (b :: l).
Proof. reflexivity. Qed.

Lemma repeats_only_break_snoc l x :
  repeats_only_break l ->
  (last_status l = Some x -> x = STATUS_BREAK) ->
  repeats_only_break (l ++ [x]).
Proof.
  induction l as [|a l IH]; simpl; [auto|].
  destruct l as [|b l]; simpl.
  - intros _ H. split; [|exact I]. intros ->. now apply H.
  - intros [Hab Hrest] H. split; [exact Hab|]. apply IH; assumption.
Qed.


(** *** Running computations *)

Lemma exec_bind {A B : Type} (m : Js A) (k : A -> Js B) s :
  exec (bind m k) s =
  match completion m s with
  | Normal a => exec (k a) (exec m s)
  | Throw _ => exec m s
  end.
Proof. unfold exec, completion, bind. now destruct (m s) as [[a|e] s']. Qed.

Lemma completion_bind {A B : Type} (m : Js A) (k : A -> Js B) s :
  completion (bind m k) s =
  match completion m s with
  | Normal a => completion (k a) (exec m s)
  | Throw e => Throw e
  end.
Proof. unfold exec, completion, bind. now destruct (m s) as [[a|e] s']. Qed.

Lemma preserves_bind {A B : Type} (P : Mux -> Prop) (m : Js A) (k : A -> Js B) :
  preserves P m -> (forall a, preserves P (k a)) -> preserves P (bind m k).
Proof.
  intros Hm Hk s Hs. rewrite exec_bind.
  destruct (completion m s); [apply Hk|]; now apply Hm.
Qed.

Lemma preserves_ret {A : Type} (P : Mux -> Prop) (a : A) : preserves P (ret a).
Proof. intros s Hs. exact Hs. Qed.

Lemma preserves_this (P : Mux -> Prop) : preserves P this.
Proof. intros s Hs. exact Hs. Qed.

Lemma preserves_throw {A : Type} (P : Mux -> Prop) e : preserves P (@throw A e).
Proof. intros s Hs. exact Hs. Qed.

Lemma preserves_assign (P : Mux -> Prop) f :
  (forall s, P s -> P (f s)) -> preserves P (assign f).
Proof. intros H s Hs. now apply H. Qed.

Lemma preserves_if {A : Type} (P : Mux -> Prop) (b : bool) (m1 m2 : Js A) :
  preserves P m1 -> preserves P m2 -> preserves P (if b then m1 else m2).
Proof. now destruct b. Qed.

(** *** [Base] is kept by every step of a callback *)

Lemma Base_same s s' :
  _connections s' = _connections s -> _status s' = _status s ->
  heapNext s' = heapNext s -> _breakpointStore s' = _breakpointStore s ->
  _dummyConnection s' = _dummyConnection s ->
  awaitingDummyRun s' = awaitingDummyRun s ->
  emitted s' = emitted s ->
  Base s -> Base s'.
Proof.
  intros E1 E2 E3 E4 E5 E6 E7 [].
  constructor; unfold tracked, is_dummy in *;
    rewrite ?E1, ?E2, ?E3, ?E4, ?E5, ?E6, ?E7; assumption.
Qed.

Lemma emitted_perform_silent e s :
  (forall st, e <> EmitStatus st) ->
  emitted (exec (perform e) s) = emitted s.
Proof.
  intro H. unfold emitted, exec, perform, assign; simpl.
  rewrite emitted_of_app. destruct e; simpl; try apply app_nil_r.
  now destruct (H st).
Qed.

Lemma Base_perform e :
  (forall st, e <> EmitStatus st) -> preserves Base (perform e).
Proof.
  intros H s Hs. eapply Base_same; try eassumption; try reflexivity.
  now apply emitted_perform_silent.
Qed.

Lemma emitted_emit st s s0 :
  emitted (set_effects (effects s0 ++ [EmitStatus st]) s) = emitted s0 ++ [st].
Proof. unfold emitted; simpl. now rewrite emitted_of_app. Qed.

Lemma Base_emit s st s0 :
  mux_status st ->
  (last_status (emitted s0) = Some st -> st = STATUS_BREAK) ->
  _connections s = _connections s0 -> heapNext s = heapNext s0 ->
  _breakpointStore s = _breakpointStore s0 ->
  _dummyConnection s = _dummyConnection s0 ->
  awaitingDummyRun s = awaitingDummyRun s0 ->
  _status s = st ->
  emitted s = emitted s0 ++ [st] ->
  Base s0 -> Base s.
Proof.
  intros Hst Hlast E1 E2 E3 E4 E5 E6 E7 [].
  constructor; unfold tracked, is_dummy in *;
    rewrite ?E1, ?E2, ?E3, ?E4, ?E5, ?E6, ?E7; try assumption.
  - intros x. rewrite last_status_snoc. intros [= <-]. reflexivity.
  - intro H. now destruct (emitted s0).
  - now apply repeats_only_break_snoc.
  - apply Forall_app. split; [assumption|]. now constructor.
Qed.

Lemma exec_setStatus st s :
  exec (_setStatus st) s =
  if Status_eqb st (_status s) then s
  else set_effects (effects s ++ [EmitStatus st]) (set_status st s).
Proof.
  unfold exec, _setStatus, _emitStatus, perform, assign, bind, this, ret; simpl.
  now destruct (Status_eqb st (_status s)).
Qed.

Lemma completion_setStatus st s : completion (_setStatus st) s = Normal tt.
Proof.
  unfold completion, _setStatus, _emitStatus, perform, assign, bind, this, ret; simpl.
  now destruct (Status_eqb st (_status s)).
Qed.

Lemma Base_setStatus st : mux_status st -> preserves Base (_setStatus st).
Proof.
  intros Hst s Hs. rewrite exec_setStatus.
  destruct (Status_eqb st (_status s)) eqn:E; [exact Hs|].
  apply Status_eqb_neq in E.
  apply (Base_emit _ st s); try reflexivity; try assumption.
  - intro H. apply (inv_last _ Hs) in H. congruence.
  - apply emitted_emit.
Qed.

Lemma Base_emit_break s :
  _status s = STATUS_BREAK -> Base s -> Base (exec (_emitStatus STATUS_BREAK) s).
Proof.
  intros E Hs.
  apply (Base_emit _ STATUS_BREAK s); try reflexivity; try assumption.
  - now left.
  - apply emitted_emit.
Qed.

Lemma Base_set_enabled v : preserves Base (assign (set_enabledConnection v)).
Proof. intros s Hs. eapply Base_same; try eassumption; reflexivity. Qed.

Lemma Base_enableConnection c : preserves Base (_enableConnection c).
Proof.
  apply preserves_bind; [apply Base_set_enabled|].
  intros _. apply Base_setStatus. now left.
Qed.

Lemma Base_disableConnection : preserves Base _disableConnection.
Proof.
  apply preserves_bind; [apply Base_set_enabled|].
  intros _. apply Base_setStatus. right. now left.
Qed.

Lemma Base_checkForEnd : preserves Base _checkForEnd.
Proof.
  apply preserves_bind; [apply preserves_this|].
  intros s. apply preserves_if; [|apply preserves_ret].
  apply Base_setStatus. right. now right.
Qed.

Lemma Base_delete c s :
  Base s -> Base (set_connections (Map_delete c (_connections s)) s).
Proof.
  intros [].
  constructor; unfold tracked, is_dummy in *; simpl; try assumption.
  - now apply Map_delete_NoDup.
  - intros k i H. apply inv_info0. eapply Map_delete_In; eauto.
  - intros k H. apply inv_keys_lt0. eapply Map_delete_keys_In; eauto.
  - intros k H. apply inv_keys_store0. eapply Map_delete_keys_In; eauto.
Qed.

Lemma Base_removeConnection c : preserves Base (_removeConnection c).
Proof.
  apply preserves_bind; [apply preserves_this|].
  intros s. destruct (Map_get c (_connections s)) as [info|];
    [|apply preserves_throw].
  apply preserves_bind; [now apply Base_perform|]. intros _.
  apply preserves_bind; [now apply Base_perform|]. intros _.
  apply preserves_bind; [apply preserves_assign; intros; now apply Base_delete|].
  intros _.
  apply preserves_bind; [apply preserves_this|]. intros s'.
  apply preserves_bind; [|intros _; apply Base_checkForEnd].
  apply preserves_if; [apply Base_disableConnection | apply preserves_ret].
Qed.

Lemma Base_enableFirstBreak infos : preserves Base (enableFirstBreak infos).
Proof.
  induction infos as [|i infos IH]; simpl; [apply preserves_ret|].
  apply preserves_if; [apply Base_enableConnection | exact IH].
Qed.

Lemma Base_updateStatus : preserves Base _updateStatus.
Proof.
  apply preserves_bind; [apply preserves_this|]. intros s.
  apply preserves_if; [apply preserves_ret|].
  apply preserves_if; [apply preserves_ret|].
  apply Base_enableFirstBreak.
Qed.

Lemma Base_touch c info st s :
  Map_get c (_connections s) = Some info ->
  Base s ->
  Base (set_connections
          (Map_set c {| connection := connection info;
                        onStatusDisposable := onStatusDisposable info;
                        status := st |} (_connections s)) s).
Proof.
  intros Hget [].
  pose proof (Map_get_Some_key _ _ _ Hget) as Hin.
  constructor; unfold tracked, is_dummy in *; simpl;
    rewrite ?(Map_set_keys_present _ _ _ Hin); try assumption.
  intros k i H. apply Map_set_In in H. destruct H as [[= -> ->]|H]; simpl.
  - apply inv_info0. now apply Map_get_Some_In.
  - now apply inv_info0.
Qed.

(** *** The enabled slot and the status *)

Lemma exec_checkForEnd s :
  exec _checkForEnd s = if end_of_life s then exec (_setStatus STATUS_END) s else s.
Proof.
  unfold exec, _checkForEnd, end_of_life, bind, this, ret; simpl.
  now destruct (_ && _).
Qed.

Lemma completion_checkForEnd s : completion _checkForEnd s = Normal tt.
Proof.
  unfold _checkForEnd. rewrite completion_bind. simpl.
  destruct (_ && _); [apply completion_setStatus | reflexivity].
Qed.

Lemma end_of_life_empty s : end_of_life s = true -> _connections s = [].
Proof.
  unfold end_of_life, Map_size. intro H. apply andb_prop in H as [H _].
  apply Nat.eqb_eq in H. now destruct (_connections s).
Qed.

Lemma exec_disableConnection s :
  exec _disableConnection s =
  exec (_setStatus STATUS_RUNNING) (set_enabledConnection None s).
Proof. reflexivity. Qed.

Lemma exec_enableConnection c s :
  exec (_enableConnection c) s =
  exec (_setStatus STATUS_BREAK) (set_enabledConnection (Some c) s).
Proof. reflexivity. Qed.

Lemma setStatus_status st s : _status (exec (_setStatus st) s) = st.
Proof.
  rewrite exec_setStatus. destruct (Status_eqb st (_status s)) eqn:E; [|reflexivity].
  symmetry. now apply Status_eqb_eq.
Qed.

Lemma setStatus_enabled st s :
  _enabledConnection (exec (_setStatus st) s) = _enabledConnection s.
Proof. rewrite exec_setStatus. now destruct (Status_eqb st (_status s)). Qed.

Lemma setStatus_connections st s :
  _connections (exec (_setStatus st) s) = _connections s.
Proof. rewrite exec_setStatus. now destruct (Status_eqb st (_status s)). Qed.

Lemma checkForEnd_twice s :
  exec _checkForEnd (exec _checkForEnd s) = exec _checkForEnd s.
Proof.
  rewrite (exec_checkForEnd s). destruct (end_of_life s) eqn:E.
  - rewrite exec_checkForEnd.
    assert (E' : end_of_life (exec (_setStatus STATUS_END) s) = true).
    { rewrite exec_setStatus. now destruct (Status_eqb _ _). }
    rewrite E'. rewrite (exec_setStatus STATUS_END (exec _ s)), setStatus_status.
    reflexivity.
  - rewrite exec_checkForEnd. now rewrite E.
Qed.

Lemma Link_none s :
  _enabledConnection s = None -> _status s <> STATUS_BREAK -> Link s.
Proof. intros E H. split; [intros c Hc; congruence | tauto]. Qed.

Lemma Link_some s c :
  _enabledConnection s = Some c -> tracked s c -> _status s = STATUS_BREAK -> Link s.
Proof.
  intros E Ht H. split; [|congruence].
  intros c' Hc'. assert (c' = c) as -> by congruence. tauto.
Qed.

Lemma Link_cases s :
  Link s ->
  (_enabledConnection s = None /\ _status s <> STATUS_BREAK) \/
  (exists c, _enabledConnection s = Some c /\ tracked s c /\ _status s = STATUS_BREAK).
Proof.
  intros [He Hb]. destruct (_enabledConnection s) as [c|] eqn:E.
  - right. exists c. destruct (He c eq_refl). auto.
  - left. split; [reflexivity|]. intro H. now apply Hb.
Qed.

Lemma Inv_disableConnection s : Base s -> Inv (exec _disableConnection s).
Proof.
  intro Hs. split; [now apply Base_disableConnection|].
  rewrite exec_disableConnection. apply Link_none.
  - now rewrite setStatus_enabled.
  - now rewrite setStatus_status.
Qed.

Lemma Inv_enableConnection c s :
  Base s -> tracked s c -> Inv (exec (_enableConnection c) s).
Proof.
  intros Hs Hc. split; [now apply Base_enableConnection|].
  rewrite exec_enableConnection. apply (Link_some _ c).
  - now rewrite setStatus_enabled.
  - unfold tracked. now rewrite setStatus_connections.
  - now rewrite setStatus_status.
Qed.

Lemma Inv_checkForEnd : preserves Inv _checkForEnd.
Proof.
  intros s [Hb Hl]. split; [now apply Base_checkForEnd|].
  rewrite exec_checkForEnd. destruct (end_of_life s) eqn:E; [|exact Hl].
  apply end_of_life_empty in E. apply Link_none.
  - rewrite setStatus_enabled. destruct (_enabledConnection s) as [c|] eqn:Ec; [|reflexivity].
    destruct (inv_enabled _ Hl c Ec) as [Ht _]. unfold tracked in Ht.
    rewrite E in Ht. destruct Ht.
  - now rewrite setStatus_status.
Qed.

Lemma Inv_enableFirstBreak infos s :
  (forall i, In i infos -> tracked s (connection i)) ->
  Inv s -> Inv (exec (enableFirstBreak infos) s).
Proof.
  induction infos as [|i infos IH]; simpl; intros Hin Hs; [exact Hs|].
  destruct (Status_eqb (status i) STATUS_BREAK).
  - apply Inv_enableConnection; [apply Hs | apply Hin; now left].
  - apply IH; [|exact Hs]. intros j Hj. apply Hin. now right.
Qed.

Lemma values_tracked s i :
  Base s -> In i (Map_values (_connections s)) -> tracked s (connection i).
Proof.
  intros Hb H. unfold Map_values in H. apply in_map_iff in H as [[k j] [E H]].
  simpl in E. subst j. rewrite (inv_info _ Hb _ _ H).
  unfold tracked, Map_keys. change k with (fst (k, i)). now apply in_map.
Qed.

Lemma exec_updateStatus s :
  exec _updateStatus s =
  if Status_eqb (_status s) STATUS_END then s
  else if Status_eqb (_status s) STATUS_BREAK then s
  else exec (enableFirstBreak (Map_values (_connections s))) s.
Proof.
  unfold exec, _updateStatus, bind, this, ret; simpl.
  now destruct (Status_eqb (_status s) STATUS_END), (Status_eqb (_status s) STATUS_BREAK).
Qed.

Lemma Inv_updateStatus : preserves Inv _updateStatus.
Proof.
  intros s Hs. rewrite exec_updateStatus.
  destruct (Status_eqb (_status s) STATUS_END); [exact Hs|].
  destruct (Status_eqb (_status s) STATUS_BREAK); [exact Hs|].
  apply Inv_enableFirstBreak; [|exact Hs].
  intros i Hi. apply values_tracked; [apply Hs | exact Hi].
Qed.

Lemma run_pair {A : Type} (m : Js A) s : m s = (completion m s, exec m s).
Proof. unfold completion, exec. now destruct (m s). Qed.

Lemma run_bind {A B : Type} (m : Js A) (k : A -> Js B) s :
  bind m k s =
  match completion m s with
  | Normal a => k a (exec m s)
  | Throw e => (Throw e, exec m s)
  end.
Proof. unfold exec, completion, bind. now destruct (m s) as [[a|e] s']. Qed.

Lemma completion_disableConnection s : completion _disableConnection s = Normal tt.
Proof.
  unfold _disableConnection. rewrite completion_bind. simpl. apply completion_setStatus.
Qed.

Lemma completion_enableConnection c s : completion (_enableConnection c) s = Normal tt.
Proof.
  unfold _enableConnection. rewrite completion_bind. simpl. apply completion_setStatus.
Qed.

Lemma run_removeConnection c s info :
  Map_get c (_connections s) = Some info ->
  _removeConnection c s =
  (Normal tt,
   exec _checkForEnd
     (if same_connection c (_enabledConnection s)
      then exec _disableConnection (removed c info s)
      else removed c info s)).
Proof.
  intro H. unfold _removeConnection.
  unfold bind at 1. unfold this at 1. rewrite H.
  unfold bind at 1. unfold perform at 1, assign at 1.
  unfold bind at 1. unfold perform at 1, assign at 1.
  unfold bind at 1. unfold assign at 1.
  unfold bind at 1. unfold this at 1.
  cbn [_enabledConnection set_connections set_effects].
  rewrite run_bind.
  destruct (same_connection c (_enabledConnection s)).
  - rewrite completion_disableConnection, (run_pair _checkForEnd), completion_checkForEnd.
    reflexivity.
  - simpl. rewrite (run_pair _checkForEnd), completion_checkForEnd. reflexivity.
Qed.

Lemma completion_removeConnection c s info :
  Map_get c (_connections s) = Some info ->
  completion (_removeConnection c) s = Normal tt.
Proof. intro H. unfold completion. now rewrite (run_removeConnection _ _ _ H). Qed.

Lemma run_removeConnection_untracked c s :
  Map_get c (_connections s) = None ->
  _removeConnection c s = (Throw TypeError, s).
Proof. intro H. unfold _removeConnection, bind, this. now rewrite H. Qed.

Lemma Inv_removeConnection c : preserves Inv (_removeConnection c).
Proof.
  intros s Hs. split; [apply Base_removeConnection; apply Hs|].
  destruct Hs as [Hb Hl].
  destruct (Map_get c (_connections s)) as [info|] eqn:Hget.
  2:{ unfold exec. now rewrite run_removeConnection_untracked. }
  unfold exec at 1. rewrite (run_removeConnection _ _ _ Hget). simpl.
  assert (Hb1 : Base (removed c info s)).
  { apply (Base_delete c
             (set_effects ((effects s ++ [DisposeSubscription (onStatusDisposable info)])
                             ++ [DisposeConnection c]) s)).
    eapply Base_same; try eassumption; try reflexivity.
    unfold emitted; simpl. rewrite !emitted_of_app. simpl. now rewrite !app_nil_r. }
  destruct (same_connection c (_enabledConnection s)) eqn:E.
  - apply Inv_checkForEnd. now apply Inv_disableConnection.
  - apply Inv_checkForEnd. split; [exact Hb1|].
    apply same_connection_false in E.
    destruct (Link_cases _ Hl) as [[He Hst]|[c' [He [Ht Hst]]]].
    + now apply Link_none.
    + apply (Link_some _ c'); try assumption.
      unfold tracked, removed; simpl. apply Map_delete_keys_other; [congruence | exact Ht].
Qed.

Lemma Link_same s s' :
  _connections s' = _connections s -> _status s' = _status s ->
  _enabledConnection s' = _enabledConnection s ->
  Link s -> Link s'.
Proof.
  intros E1 E2 E3 [He Hb]. split; unfold tracked in *; rewrite ?E1, ?E2, ?E3; assumption.
Qed.

Lemma Inv_perform e : (forall st, e <> EmitStatus st) -> preserves Inv (perform e).
Proof.
  intros H s [Hb Hl]. split; [now apply Base_perform|].
  eapply Link_same; try eassumption; reflexivity.
Qed.

Lemma Inv_touched c info st s :
  Map_get c (_connections s) = Some info -> Inv s -> Inv (touched c info st s).
Proof.
  intros Hget [Hb Hl]. split; [now apply Base_touch|].
  destruct Hl as [He Hbr]. split; unfold tracked, touched in *; simpl.
  - rewrite (Map_set_keys_present _ _ _ (Map_get_Some_key _ _ _ Hget)). exact He.
  - exact Hbr.
Qed.

Lemma run_connectionOnStatus_untracked c st s :
  Map_get c (_connections s) = None ->
  _connectionOnStatus c st s = (Throw TypeError, s).
Proof. intro H. unfold _connectionOnStatus, bind, this. now rewrite H. Qed.

Lemma run_connectionOnStatus_continue c st s info :
  Map_get c (_connections s) = Some info ->
  st = STATUS_STARTING \/ st = STATUS_STOPPING ->
  _connectionOnStatus c st s =
  (Normal tt,
   set_effects (effects s ++ [SendContinuationCommand c COMMAND_RUN])
               (touched c info st s)).
Proof.
  intros H Hst. unfold _connectionOnStatus, bind at 1, this at 1. rewrite H.
  destruct Hst as [-> | ->]; reflexivity.
Qed.

Lemma completion_enableFirstBreak infos s :
  completion (enableFirstBreak infos) s = Normal tt.
Proof.
  induction infos as [|i infos IH]; simpl; [reflexivity|].
  destruct (Status_eqb (status i) STATUS_BREAK); [apply completion_enableConnection | exact IH].
Qed.

Lemma completion_updateStatus s : completion _updateStatus s = Normal tt.
Proof.
  unfold _updateStatus. rewrite completion_bind. simpl.
  destruct (Status_eqb (_status s) STATUS_END); [reflexivity|].
  destruct (Status_eqb (_status s) STATUS_BREAK); [reflexivity|].
  apply completion_enableFirstBreak.
Qed.

Lemma run_updateStatus s : _updateStatus s = (Normal tt, exec _updateStatus s).
Proof. now rewrite (run_pair _updateStatus), completion_updateStatus. Qed.

Lemma run_connectionOnStatus_running c s info :
  Map_get c (_connections s) = Some info ->
  _connectionOnStatus c STATUS_RUNNING s =
  (Normal tt,
   exec _updateStatus
     (if same_connection c (_enabledConnection s)
      then exec _disableConnection (touched c info STATUS_RUNNING s)
      else touched c info STATUS_RUNNING s)).
Proof.
  intros H. unfold _connectionOnStatus, bind at 1, this at 1. rewrite H.
  unfold bind at 1, assign at 1. unfold bind at 1, this at 1.
  cbn [_enabledConnection set_connections].
  rewrite run_bind.
  destruct (same_connection c (_enabledConnection s)).
  - rewrite completion_disableConnection. apply run_updateStatus.
  - simpl. apply run_updateStatus.
Qed.

Lemma run_connectionOnStatus_break c s info :
  Map_get c (_connections s) = Some info ->
  _connectionOnStatus c STATUS_BREAK s =
  (Normal tt,
   if same_connection c (_enabledConnection s)
   then set_effects (effects s ++ [EmitStatus STATUS_BREAK])
                    (touched c info STATUS_BREAK s)
   else exec _updateStatus (touched c info STATUS_BREAK s)).
Proof.
  intros H. unfold _connectionOnStatus, bind at 1, this at 1. rewrite H.
  unfold bind at 1, assign at 1. unfold bind at 1, this at 1.
  cbn [_enabledConnection set_connections].
  destruct (same_connection c (_enabledConnection s)).
  - reflexivity.
  - apply run_updateStatus.
Qed.

Lemma touched_get c info st s :
  Map_get c (_connections (touched c info st s)) =
  Some {| connection := connection info;
          onStatusDisposable := onStatusDisposable info;
          status := st |}.
Proof. unfold touched; simpl. apply Map_get_set_same. Qed.

Lemma run_connectionOnStatus_terminal c st s info :
  Map_get c (_connections s) = Some info ->
  st = STATUS_STOPPED \/ st = STATUS_ERROR \/ st = STATUS_END ->
  _connectionOnStatus c st s =
  (Normal tt,
   exec _updateStatus (exec (_removeConnection c) (touched c info st s))).
Proof.
  intros H Hst. unfold _connectionOnStatus, bind at 1, this at 1. rewrite H.
  unfold bind at 1, assign at 1.
  change (set_connections _ s) with (touched c info st s).
  assert (E : (_removeConnection c ;; _updateStatus) (touched c info st s) =
              (Normal tt, exec _updateStatus (exec (_removeConnection c) (touched c info st s)))).
  { rewrite run_bind.
    rewrite (completion_removeConnection _ _ _ (touched_get c info st s)).
    apply run_updateStatus. }
  destruct Hst as [-> | [-> | ->]]; exact E.
Qed.

Lemma run_connectionOnStatus_unlisted c name s info :
  Map_get c (_connections s) = Some info ->
  _connectionOnStatus c (STATUS_UNLISTED name) s =
  (Normal tt, exec _updateStatus (touched c info (STATUS_UNLISTED name) s)).
Proof.
  intros H. unfold _connectionOnStatus, bind at 1, this at 1. rewrite H.
  unfold bind at 1, assign at 1. apply run_updateStatus.
Qed.

Lemma Inv_connectionOnStatus c st : preserves Inv (_connectionOnStatus c st).
Proof.
  intros s Hs. unfold exec.
  destruct (Map_get c (_connections s)) as [info|] eqn:Hget.
  2:{ now rewrite run_connectionOnStatus_untracked. }
  pose proof (Inv_touched c info st s Hget Hs) as Ht.
  destruct st.
  - rewrite (run_connectionOnStatus_continue _ _ _ _ Hget) by auto.
    change (Inv (exec (perform (SendContinuationCommand c COMMAND_RUN))
                      (touched c info STATUS_STARTING s))).
    apply Inv_perform; [discriminate | exact Ht].
  - rewrite (run_connectionOnStatus_continue _ _ _ _ Hget) by auto.
    change (Inv (exec (perform (SendContinuationCommand c COMMAND_RUN))
                      (touched c info STATUS_STOPPING s))).
    apply Inv_perform; [discriminate | exact Ht].
  - rewrite (run_connectionOnStatus_terminal _ _ _ _ Hget) by auto. simpl.
    apply Inv_updateStatus. now apply Inv_removeConnection.
  - rewrite (run_connectionOnStatus_running _ _ _ Hget). simpl.
    apply Inv_updateStatus.
    destruct (same_connection c (_enabledConnection s)); [|exact Ht].
    apply Inv_disableConnection. apply Ht.
  - rewrite (run_connectionOnStatus_break _ _ _ Hget). simpl.
    destruct (same_connection c (_enabledConnection s)) eqn:E.
    + apply same_connection_true in E. destruct Ht as [Hb Hl].
      assert (Hst : _status s = STATUS_BREAK).
      { destruct Hs as [_ Hls]. now destruct (inv_enabled _ Hls c E). }
      split.
      * apply (Base_emit_break (touched c info STATUS_BREAK s)); assumption.
      * eapply Link_same; try eassumption; reflexivity.
    + now apply Inv_updateStatus.
  - rewrite (run_connectionOnStatus_terminal _ _ _ _ Hget) by auto. simpl.
    apply Inv_updateStatus. now apply Inv_removeConnection.
  - rewrite (run_connectionOnStatus_terminal _ _ _ _ Hget) by auto. simpl.
    apply Inv_updateStatus. now apply Inv_removeConnection.
  - rewrite (run_connectionOnStatus_unlisted _ _ _ _ Hget). simpl.
    now apply Inv_updateStatus.
Qed.

(** *** Attaching *)

Lemma run_onAttach_regular message s :
  isCorrectConnection (_config s) message = true ->
  isDummyConnection message = false ->
  _onAttach message s = (Normal tt, attached s).
Proof.
  intros H1 H2. unfold _onAttach, bind at 1, this at 1. rewrite H1, H2. simpl.
  unfold attached, bind, new_Connection, perform, assign, this, ret; simpl.
  now rewrite <- !app_assoc.
Qed.

Lemma run_onAttach_dummy message s :
  isCorrectConnection (_config s) message = true ->
  isDummyConnection message = true ->
  _onAttach message s = (Normal tt, dummy_started s).
Proof.
  intros H1 H2. unfold _onAttach, bind at 1, this at 1. rewrite H1, H2. reflexivity.
Qed.

Lemma run_onAttach_discard message s :
  isCorrectConnection (_config s) message = false ->
  _onAttach message s = (Normal tt, exec (perform FailConnection) s).
Proof.
  intros H1. unfold _onAttach, bind at 1, this at 1. rewrite H1. reflexivity.
Qed.

Lemma fresh_untracked s : Base s -> ~ tracked s (heapNext s).
Proof. intros Hb H. apply (inv_keys_lt _ Hb) in H. lia. Qed.

Lemma attached_connections s :
  Base s ->
  _connections (attached s) =
  _connections s ++ [(heapNext s, {| connection := heapNext s;
                                    onStatusDisposable := {| detaches := heapNext s |};
                                    status := STATUS_STARTING |})].
Proof. intro Hb. unfold attached; simpl. apply Map_set_fresh. now apply fresh_untracked. Qed.

Lemma Inv_attached s : Inv s -> Inv (attached s).
Proof.
  intros [Hb Hl]. pose proof (attached_connections s Hb) as Ec.
  pose proof (fresh_untracked s Hb) as Hfresh. split.
  - destruct Hb. constructor; unfold tracked, is_dummy in *; rewrite ?Ec;
      unfold Map_keys; rewrite ?map_app; simpl; try assumption.
    + apply NoDup_app; [assumption | repeat constructor; simpl; tauto |].
      intros x Hx [<-|[]]. now apply Hfresh.
    + intros k i H. apply in_app_or in H as [H|[[= <- <-]|[]]]; auto.
    + intros c H. apply in_app_or in H as [H|[<-|[]]]; [|lia].
      apply inv_keys_lt0 in H. lia.
    + intros c H. apply in_or_app. apply in_app_or in H as [H|[<-|[]]]; [left; auto | right; now left].
    + intros c H. apply in_app_or in H as [H|[<-|[]]]; [|lia].
      apply inv_store_lt0 in H. lia.
    + intros d H. destruct (inv_dummy0 d H) as [Hlt Hn]. split; [lia|].
      intro Hin. apply in_app_or in Hin as [Hin|[<-|[]]]; [tauto | lia].
    + unfold emitted in *. simpl. rewrite emitted_of_app. simpl.
      now rewrite app_nil_r.
    + unfold emitted in *. simpl. rewrite emitted_of_app. simpl.
      now rewrite app_nil_r.
    + unfold emitted in *. simpl. rewrite emitted_of_app. simpl.
      now rewrite app_nil_r.
    + unfold emitted in *. simpl. rewrite emitted_of_app. simpl.
      now rewrite app_nil_r.
  - destruct Hl as [He Hbr]. split; [|exact Hbr].
    intros c H. destruct (He c H) as [Ht Hst]. split; [|exact Hst].
    unfold tracked in *. rewrite Ec. unfold Map_keys. rewrite map_app.
    apply in_or_app. now left.
Qed.

Lemma Inv_dummy_started s : Inv s -> Inv (dummy_started s).
Proof.
  intros [Hb Hl]. split.
  - destruct Hb. constructor; unfold tracked, is_dummy in *; simpl; try assumption.
    + intros c H. apply inv_keys_lt0 in H. lia.
    + intros c H. apply inv_store_lt0 in H. lia.
    + intros d [H|H].
      * destruct (inv_dummy0 d (or_introl H)). split; [lia | assumption].
      * apply in_app_or in H as [H|[<-|[]]].
        -- destruct (inv_dummy0 d (or_intror H)). split; [lia | assumption].
        -- split; [lia|]. intro H. apply inv_store_lt0 in H. lia.
    + unfold emitted in *. simpl. rewrite emitted_of_app. simpl.
      now rewrite app_nil_r.
    + unfold emitted in *. simpl. rewrite emitted_of_app. simpl.
      now rewrite app_nil_r.
    + unfold emitted in *. simpl. rewrite emitted_of_app. simpl.
      now rewrite app_nil_r.
    + unfold emitted in *. simpl. rewrite emitted_of_app. simpl.
      now rewrite app_nil_r.
  - eapply Link_same; try eassumption; reflexivity.
Qed.

Lemma Inv_onAttach message : preserves Inv (_onAttach message).
Proof.
  intros s Hs. unfold exec.
  destruct (isCorrectConnection (_config s) message) eqn:H1.
  - destruct (isDummyConnection message) eqn:H2.
    + rewrite run_onAttach_dummy by assumption. now apply Inv_dummy_started.
    + rewrite run_onAttach_regular by assumption. now apply Inv_attached.
  - rewrite run_onAttach_discard by assumption. now apply Inv_perform.
Qed.

(** *** The other callbacks *)

Lemma Inv_same s s' :
  _connections s' = _connections s -> _status s' = _status s ->
  _enabledConnection s' = _enabledConnection s ->
  heapNext s' = heapNext s -> _breakpointStore s' = _breakpointStore s ->
  _dummyConnection s' = _dummyConnection s ->
  awaitingDummyRun s' = awaitingDummyRun s ->
  emitted s' = emitted s ->
  Inv s -> Inv s'.
Proof.
  intros E1 E2 E3 E4 E5 E6 E7 E8 [Hb Hl]. split.
  - eapply Base_same; eassumption.
  - eapply Link_same; eassumption.
Qed.

Lemma Inv_disposeConnector : preserves Inv _disposeConnector.
Proof.
  apply preserves_bind; [apply preserves_this|]. intros s0.
  apply preserves_bind; [|intros _; apply Inv_checkForEnd].
  destruct (_connector s0); [|apply preserves_ret].
  apply preserves_bind; [|intros _; now apply Inv_perform].
  apply preserves_assign. intros s Hs. eapply Inv_same; try eassumption; reflexivity.
Qed.

Lemma Inv_removeEach keys : preserves Inv (removeEach keys).
Proof.
  induction keys as [|c keys IH]; simpl; [apply preserves_ret|].
  apply preserves_bind; [apply Inv_removeConnection | intros _; exact IH].
Qed.

Lemma Inv_dispose : preserves Inv dispose.
Proof.
  apply preserves_bind; [apply preserves_this|]. intros s0.
  apply preserves_bind; [apply Inv_removeEach|]. intros _.
  apply preserves_bind; [apply preserves_this|]. intros s1.
  apply preserves_bind; [|intros _; apply Inv_disposeConnector].
  destruct (_dummyRequestProcess s1); [now apply Inv_perform | apply preserves_ret].
Qed.

Lemma Inv_dummy_resolved d : preserves Inv (deliver (DummyRunResolved d)).
Proof.
  intros s Hs. unfold deliver, exec, bind at 1, this at 1.
  destruct (existsb (Nat.eqb d) (awaitingDummyRun s)) eqn:E; [|exact Hs].
  apply existsb_exists in E as [x [Hx Ex]]. apply Nat.eqb_eq in Ex. subst x.
  simpl. destruct Hs as [Hb Hl]. split.
  - destruct Hb. constructor; unfold tracked, is_dummy in *; simpl; try assumption.
    + intros d' [[= <-]|H].
      * apply inv_dummy0. now right.
      * apply filter_In in H as [H _]. apply inv_dummy0. now right.
    + unfold emitted in *. simpl. rewrite emitted_of_app. simpl. now rewrite app_nil_r.
    + unfold emitted in *. simpl. rewrite emitted_of_app. simpl. now rewrite app_nil_r.
    + unfold emitted in *. simpl. rewrite emitted_of_app. simpl. now rewrite app_nil_r.
    + unfold emitted in *. simpl. rewrite emitted_of_app. simpl. now rewrite app_nil_r.
  - eapply Link_same; try eassumption; reflexivity.
Qed.

Lemma Inv_deliver e : preserves Inv (deliver e).
Proof.
  destruct e.
  - apply Inv_onAttach.
  - apply Inv_connectionOnStatus.
  - apply Inv_dummy_resolved.
  - apply Inv_connectionOnStatus.
  - apply Inv_disposeConnector.
  - now apply Inv_perform.
  - apply Inv_dispose.
Qed.

Lemma Inv_listening config : Inv (listening config).
Proof.
  split.
  - constructor; unfold tracked, is_dummy; simpl; try tauto; try discriminate.
    + constructor.
    + right. now left.
    + intros d [H|[]]. discriminate.
    + constructor.
  - apply Link_none; [reflexivity | discriminate].
Qed.

Lemma Inv_run_from s events : Inv s -> Inv (run_from s events).
Proof.
  revert s. induction events as [|e events IH]; intros s Hs; [exact Hs|].
  simpl. apply IH. now apply Inv_deliver.
Qed.

Lemma Inv_run config events : Inv (run config events).
Proof. apply Inv_run_from, Inv_listening. Qed.

(** *** Properties kept by every step *)

Section StepClosed.

Variable P : Mux -> Prop.
Hypothesis HP : step_closed P.

Lemma sc_checkForEnd : preserves P _checkForEnd.
Proof.
  intros s Hs. rewrite exec_checkForEnd.
  destruct (end_of_life s) eqn:E; [now apply (sc_end P HP) | exact Hs].
Qed.

Lemma sc_removed s c info :
  Map_get c (_connections s) = Some info -> P s -> P (removed c info s).
Proof.
  intros Hget Hs.
  apply (sc_delete P HP
           (set_effects ((effects s ++ [DisposeSubscription (onStatusDisposable info)])
                           ++ [DisposeConnection c]) s) c info Hget).
  apply (sc_perform P HP (exec (perform (DisposeSubscription (onStatusDisposable info))) s)
           (DisposeConnection c)); [discriminate|].
  apply (sc_perform P HP); [discriminate | exact Hs].
Qed.

Lemma sc_removeConnection c : preserves P (_removeConnection c).
Proof.
  intros s Hs. unfold exec.
  destruct (Map_get c (_connections s)) as [info|] eqn:Hget.
  2:{ now rewrite run_removeConnection_untracked. }
  rewrite (run_removeConnection _ _ _ Hget). simpl.
  apply sc_checkForEnd.
  destruct (same_connection c (_enabledConnection s)) eqn:E.
  - apply same_connection_true in E.
    apply (sc_disable P HP _ c); [exact E | now apply sc_removed].
  - now apply sc_removed.
Qed.

Lemma sc_enableFirstBreak infos s :
  _status s <> STATUS_END -> _status s <> STATUS_BREAK -> P s ->
  P (exec (enableFirstBreak infos) s).
Proof.
  intros H1 H2 Hs. induction infos as [|i infos IH]; simpl; [exact Hs|].
  destruct (Status_eqb (status i) STATUS_BREAK); [now apply (sc_enable P HP) | exact IH].
Qed.

Lemma sc_updateStatus : preserves P _updateStatus.
Proof.
  intros s Hs. rewrite exec_updateStatus.
  destruct (Status_eqb (_status s) STATUS_END) eqn:E1; [exact Hs|].
  destruct (Status_eqb (_status s) STATUS_BREAK) eqn:E2; [exact Hs|].
  apply Status_eqb_neq in E1, E2. now apply sc_enableFirstBreak.
Qed.

Lemma sc_connectionOnStatus c st : preserves P (_connectionOnStatus c st).
Proof.
  intros s Hs. unfold exec.
  destruct (Map_get c (_connections s)) as [info|] eqn:Hget.
  2:{ now rewrite run_connectionOnStatus_untracked. }
  pose proof (sc_touch P HP s c info st Hget Hs) as Ht.
  assert (Hcont : st = STATUS_STARTING \/ st = STATUS_STOPPING ->
                  P (snd (_connectionOnStatus c st s))).
  { intro H. rewrite (run_connectionOnStatus_continue _ _ _ _ Hget H).
    apply (sc_perform P HP (touched c info st s)); [discriminate | exact Ht]. }
  assert (Hterm : st = STATUS_STOPPED \/ st = STATUS_ERROR \/ st = STATUS_END ->
                  P (snd (_connectionOnStatus c st s))).
  { intro H. rewrite (run_connectionOnStatus_terminal _ _ _ _ Hget H). simpl.
    apply sc_updateStatus. now apply sc_removeConnection. }
  destruct st; auto.
  - rewrite (run_connectionOnStatus_running _ _ _ Hget). simpl.
    apply sc_updateStatus.
    destruct (same_connection c (_enabledConnection s)) eqn:E; [|exact Ht].
    apply same_connection_true in E. now apply (sc_disable P HP _ c).
  - rewrite (run_connectionOnStatus_break _ _ _ Hget). simpl.
    destruct (same_connection c (_enabledConnection s)) eqn:E.
    + apply same_connection_true in E.
      now apply (sc_emit P HP (touched c info STATUS_BREAK s) c).
    + now apply sc_updateStatus.
  - rewrite (run_connectionOnStatus_unlisted _ _ _ _ Hget). simpl.
    now apply sc_updateStatus.
Qed.

Lemma sc_disposeConnector : preserves P _disposeConnector.
Proof.
  apply preserves_bind; [apply preserves_this|]. intros s0.
  apply preserves_bind; [|intros _; apply sc_checkForEnd].
  destruct (_connector s0); [|apply preserves_ret].
  apply preserves_bind.
  - apply preserves_assign. apply (sc_close P HP).
  - intros _ s Hs. now apply (sc_perform P HP).
Qed.

Lemma sc_removeEach keys : preserves P (removeEach keys).
Proof.
  induction keys as [|c keys IH]; simpl; [apply preserves_ret|].
  apply preserves_bind; [apply sc_removeConnection | intros _; exact IH].
Qed.

Lemma sc_dispose : preserves P dispose.
Proof.
  apply preserves_bind; [apply preserves_this|]. intros s0.
  apply preserves_bind; [apply sc_removeEach|]. intros _.
  apply preserves_bind; [apply preserves_this|]. intros s1.
  apply preserves_bind; [|intros _; apply sc_disposeConnector].
  destruct (_dummyRequestProcess s1); [|apply preserves_ret].
  intros s Hs. now apply (sc_perform P HP).
Qed.

Lemma sc_deliver e :
  (forall message, e <> Attach message) -> preserves P (deliver e).
Proof.
  intro Hne. destruct e.
  - now destruct (Hne message).
  - apply sc_connectionOnStatus.
  - intros s Hs. unfold deliver, exec, bind at 1, this at 1.
    destruct (existsb (Nat.eqb d) (awaitingDummyRun s)); [|exact Hs].
    now apply (sc_dummy P HP s d).
  - apply sc_connectionOnStatus.
  - apply sc_disposeConnector.
  - intros s Hs. now apply (sc_perform P HP).
  - apply sc_dispose.
Qed.

End StepClosed.

(** ** The enabled connection *)

Lemma filter_same_connection_none l :
  filter (fun c => same_connection c None) l = [].
Proof. induction l; simpl; auto. Qed.

Lemma filter_same_connection_absent e l :
  ~ In e l -> filter (fun c => same_connection c (Some e)) l = [].
Proof.
  induction l as [|a l IH]; simpl; [reflexivity|]. intro H.
  destruct (Nat.eqb_spec a e) as [->|Hne]; [tauto|]. apply IH. tauto.
Qed.

Lemma filter_same_connection_NoDup slot l :
  NoDup l -> List.length (filter (fun c => same_connection c slot) l) <= 1.
Proof.
  destruct slot as [e|]; [|rewrite filter_same_connection_none; simpl; lia].
  induction 1 as [|a l Ha Hl IH]; cbn [filter]; [simpl; lia|].
  destruct (same_connection a (Some e)) eqn:E; [|exact IH].
  apply same_connection_true in E. injection E as ->.
  rewrite filter_same_connection_absent by assumption. simpl. lia.
Qed.

(** C1. After [listen()] and any sequence of callbacks, at most one
    tracked connection is the enabled one; an enabled connection is tracked
    and the global status is then BREAK; and when the global status is
    RUNNING no connection is enabled. *)
Theorem C1_at_most_one_enabled (config : ConnectionConfig) (events : list Event) :
  let s := run config events in
  List.length (enabledConnections s) <= 1 /\
  (forall c, _enabledConnection s = Some c ->
             tracked s c /\ enabledConnections s = [c] /\ _status s = STATUS_BREAK) /\
  (_status s = STATUS_RUNNING ->
   _enabledConnection s = None /\ enabledConnections s = []).
Proof.
  intro s. destruct (Inv_run config events) as [Hb Hl]. fold s in Hb, Hl.
  pose proof (filter_same_connection_NoDup (_enabledConnection s) _ (inv_nodup _ Hb)) as Hlen.
  split; [exact Hlen|]. split.
  - intros c Hc. destruct (inv_enabled _ Hl c Hc) as [Ht Hst].
    repeat split; try assumption.
    unfold enabledConnections in *. rewrite Hc in *.
    assert (Hin : In c (filter (fun c0 => same_connection c0 (Some c))
                               (Map_keys (_connections s)))).
    { apply filter_In. split; [exact Ht | simpl; apply Nat.eqb_refl]. }
    destruct (filter _ _) as [|a [|b l]] eqn:E; simpl in Hlen.
    + destruct Hin.
    + destruct Hin as [->|[]]. reflexivity.
    + lia.
  - intro Hst. destruct (Link_cases _ Hl) as [[He _]|[c [_ [_ H]]]]; [|congruence].
    split; [exact He|]. unfold enabledConnections. rewrite He.
    apply filter_same_connection_none.
Qed.

(** ** Choosing the connection to enable *)

Lemma enableFirstBreak_first (m : ConnectionMap) s :
  (exists e, In e m /\ status (snd e) = STATUS_BREAK) ->
  exists before k i after,
    m = before ++ (k, i) :: after /\
    (forall e, In e before -> status (snd e) <> STATUS_BREAK) /\
    status i = STATUS_BREAK /\
    exec (enableFirstBreak (Map_values m)) s = exec (_enableConnection (connection i)) s.
Proof.
  induction m as [|[k i] m IH]; intros [e [Hin He]]; [destruct Hin|].
  simpl. destruct (Status_eqb (status i) STATUS_BREAK) eqn:E.
  - apply Status_eqb_eq in E. exists [], k, i, m. repeat split; auto.
  - apply Status_eqb_neq in E. destruct Hin as [<-|Hin]; [simpl in He; congruence|].
    destruct IH as [before [k' [i' [after [Em [Hb [Hi Hx]]]]]]]; [eauto|].
    exists ((k, i) :: before), k', i', after. repeat split; auto.
    + simpl. now rewrite Em.
    + intros e' [<-|He']; [exact E | now apply Hb].
Qed.

Lemma exec_enableConnection_fresh c s :
  _status s <> STATUS_BREAK ->
  exec (_enableConnection c) s =
  set_effects (effects s ++ [EmitStatus STATUS_BREAK])
              (set_status STATUS_BREAK (set_enabledConnection (Some c) s)).
Proof.
  intro H. rewrite exec_enableConnection, exec_setStatus.
  destruct (Status_eqb STATUS_BREAK _) eqn:E; [|reflexivity].
  apply Status_eqb_eq in E. simpl in E. congruence.
Qed.

(** ** Removing the enabled connection *)

Lemma emitted_removed c info s : emitted (removed c info s) = emitted s.
Proof.
  unfold emitted, removed; simpl. rewrite !emitted_of_app. simpl.
  now rewrite !app_nil_r.
Qed.

Lemma emitted_setStatus st s :
  emitted (exec (_setStatus st) s) =
  if Status_eqb st (_status s) then emitted s else emitted s ++ [st].
Proof.
  rewrite exec_setStatus. destruct (Status_eqb st (_status s)); [reflexivity|].
  apply emitted_emit.
Qed.

(** ** The end of the session *)

Lemma end_of_life_spec s :
  end_of_life s = true <->
  _connections s = [] /\
  (_connector s = None \/ endDebugWhenNoRequests (_config s) = true).
Proof.
  unfold end_of_life, Map_size. rewrite andb_true_iff, orb_true_iff, Nat.eqb_eq.
  destruct (_connections s), (_connector s); simpl; intuition discriminate.
Qed.

Lemma checkForEnd_status s :
  _status s <> STATUS_END ->
  (_status (exec _checkForEnd s) = STATUS_END <-> end_of_life s = true).
Proof.
  intro H. rewrite exec_checkForEnd. destruct (end_of_life s).
  - rewrite setStatus_status. tauto.
  - split; [tauto | discriminate].
Qed.

Lemma ended_step_closed l : step_closed (ended l).
Proof.
  constructor; unfold ended.
  - intros s e He [H1 [H2 H3]]. repeat split; try assumption.
    now rewrite emitted_perform_silent.
  - intros s c info _ H. exact H.
  - intros s c info st _ H. exact H.
  - intros s c He [_ [H _]]. congruence.
  - intros s c H _ [H1 _]. contradiction.
  - intros s _ [H1 [H2 H3]]. rewrite exec_setStatus, H1. simpl. auto.
  - intros s c He [_ [H _]]. congruence.
  - intros s H. exact H.
  - intros s d [H1 [H2 H3]]. repeat split; try assumption.
    unfold resumed_dummy, emitted in *; simpl. rewrite emitted_of_app. simpl.
    now rewrite app_nil_r.
Qed.

Lemma end_checked_tracked s c info :
  Map_get c (_connections s) = Some info -> end_checked s -> _status s <> STATUS_END.
Proof.
  intros Hget H E. apply H, end_of_life_empty in E. rewrite E in Hget. discriminate.
Qed.

Lemma end_checked_step_closed : step_closed end_checked.
Proof.
  constructor; unfold end_checked.
  - intros s e _ H. exact H.
  - intros s c info Hget H E. now destruct (end_checked_tracked _ _ _ Hget H).
  - intros s c info st Hget H E. now destruct (end_checked_tracked _ _ _ Hget H).
  - intros s c _ _. rewrite exec_disableConnection, setStatus_status. discriminate.
  - intros s c _ _ _. rewrite exec_enableConnection, setStatus_status. discriminate.
  - intros s E _ _. rewrite exec_setStatus.
    destruct (Status_eqb _ _); exact E.
  - intros s c _ H. exact H.
  - intros s H E. apply H in E. apply end_of_life_spec in E as [E1 _].
    apply end_of_life_spec. simpl. auto.
  - intros s d H. exact H.
Qed.

Lemma onAttach_frame message s :
  _status (exec (_onAttach message) s) = _status s /\
  _enabledConnection (exec (_onAttach message) s) = _enabledConnection s /\
  emitted (exec (_onAttach message) s) = emitted s.
Proof.
  unfold exec.
  destruct (isCorrectConnection (_config s) message) eqn:H1.
  - destruct (isDummyConnection message) eqn:H2.
    + rewrite run_onAttach_dummy by assumption.
      unfold emitted; simpl. rewrite emitted_of_app. simpl. now rewrite app_nil_r.
    + rewrite run_onAttach_regular by assumption.
      unfold emitted; simpl. rewrite emitted_of_app. simpl. now rewrite app_nil_r.
  - rewrite run_onAttach_discard by assumption. simpl.
    unfold emitted; simpl. rewrite emitted_of_app. simpl. now rewrite app_nil_r.
Qed.

Lemma ended_deliver l e : preserves (ended l) (deliver e).
Proof.
  destruct e as [message| | | | | |];
    try (apply sc_deliver; [apply ended_step_closed | discriminate]).
  intros s [H1 [H2 H3]]. destruct (onAttach_frame message s) as [E1 [E2 E3]].
  unfold ended, deliver. now rewrite E1, E2, E3.
Qed.

Lemma ended_run_from l events s : ended l s -> ended l (run_from s events).
Proof.
  revert s. induction events as [|e events IH]; intros s Hs; [exact Hs|].
  simpl. apply IH. now apply ended_deliver.
Qed.

Lemma enableFirstBreak_status infos s :
  _status s <> STATUS_END ->
  _status (exec (enableFirstBreak infos) s) <> STATUS_END.
Proof.
  intro H. induction infos as [|i infos IH]; simpl; [exact H|].
  destruct (Status_eqb (status i) STATUS_BREAK); [|exact IH].
  rewrite exec_enableConnection, setStatus_status. discriminate.
Qed.

Lemma updateStatus_not_end s :
  _status s <> STATUS_END -> _status (exec _updateStatus s) <> STATUS_END.
Proof.
  intro H. rewrite exec_updateStatus.
  destruct (Status_eqb _ STATUS_END); [exact H|].
  destruct (Status_eqb _ STATUS_BREAK); [exact H|].
  now apply enableFirstBreak_status.
Qed.

Lemma connectionOnStatus_not_end c st s :
  terminal st = false -> _status s <> STATUS_END ->
  _status (exec (_connectionOnStatus c st) s) <> STATUS_END.
Proof.
  intros Ht H. unfold exec.
  destruct (Map_get c (_connections s)) as [info|] eqn:Hget.
  2:{ now rewrite run_connectionOnStatus_untracked. }
  destruct st; try discriminate Ht.
  - now rewrite (run_connectionOnStatus_continue _ _ _ _ Hget) by auto.
  - now rewrite (run_connectionOnStatus_continue _ _ _ _ Hget) by auto.
  - rewrite (run_connectionOnStatus_running _ _ _ Hget). simpl.
    apply updateStatus_not_end.
    destruct (same_connection c (_enabledConnection s)); [|exact H].
    rewrite exec_disableConnection, setStatus_status. discriminate.
  - rewrite (run_connectionOnStatus_break _ _ _ Hget). simpl.
    destruct (same_connection c (_enabledConnection s)); [exact H|].
    now apply updateStatus_not_end.
  - rewrite (run_connectionOnStatus_unlisted _ _ _ _ Hget). simpl.
    now apply updateStatus_not_end.
Qed.

Lemma deliver_reported e c st :
  reported e = Some (c, st) -> deliver e = _connectionOnStatus c st.
Proof.
  destruct e as [message|c0 [st0|]|d|c0 st0| | |]; simpl; intro H;
    try discriminate H; injection H as <- <-; reflexivity.
Qed.

Lemma deliver_not_end e s :
  checks_for_end s e = false -> _status s <> STATUS_END ->
  _status (exec (deliver e) s) <> STATUS_END.
Proof.
  intros He H.
  destruct (reported e) as [[c st]|] eqn:Er.
  - rewrite (deliver_reported _ _ _ Er).
    assert (Hc : terminal st &&
                 match Map_get c (_connections s) with Some _ => true | None => false end
                 = false).
    { destruct e as [message|c0 [st0|]|d|c0 st0| | |]; try discriminate Er;
        simpl in Er, He; injection Er as <- <-; exact He. }
    destruct (terminal st) eqn:Ht; [|now apply connectionOnStatus_not_end].
    destruct (Map_get c (_connections s)) eqn:Hget; [discriminate Hc|].
    unfold exec. now rewrite run_connectionOnStatus_untracked.
  - destruct e as [message|c0 [st0|]|d|c0 st0| | |]; try discriminate Er;
      try discriminate He.
    + unfold deliver. destruct (onAttach_frame message s) as [E _]. now rewrite E.
    + unfold deliver, exec, bind at 1, this at 1.
      now destruct (existsb (Nat.eqb d) (awaitingDummyRun s)).
    + exact H.
Qed.

(** ** Forwarding with no enabled connection *)

(** C5. With no enabled connection, [evaluateOnCallFrame],
    [getScopesForFrame] and [sendContinuationCommand] throw the
    [No connection] error, [getStackFrames] resolves to the empty stack,
    [sendBreakCommand] resolves to [false], and [getProperties] is answered
    by the dummy connection when there is one and throws the
    [No connection] error when there is none.  None of them changes the
    multiplexer. *)
Theorem C5_forwarding_without_enabled_connection (s : Mux) :
  _enabledConnection s = None ->
  (forall frameIndex expression,
     evaluateOnCallFrame frameIndex expression s = (Throw (Error "No connection"), s)) /\
  (forall frameIndex,
     getScopesForFrame frameIndex s = (Throw (Error "No connection"), s)) /\
  (forall command,
     sendContinuationCommand command s = (Throw (Error "No connection"), s)) /\
  getStackFrames s = (Normal EmptyStack, s) /\
  sendBreakCommand s = (Normal (ResolvedBool false), s) /\
  (forall remoteId d,
     _dummyConnection s = Some d ->
     getProperties remoteId s = (Normal (OfConnection d (getProperties_call remoteId)), s)) /\
  (forall remoteId,
     _dummyConnection s = None ->
     getProperties remoteId s = (Throw (Error "No connection"), s)).
Proof.
  intro He.
  unfold evaluateOnCallFrame, getScopesForFrame, sendContinuationCommand,
    getStackFrames, sendBreakCommand, getProperties, bind, this.
  rewrite He. repeat split; try reflexivity.
  - intros remoteId d Hd. now rewrite Hd.
  - intros remoteId Hd. now rewrite Hd.
Qed.

(** ** The enabled connection breaks again *)

(** C7. When the enabled connection reports BREAK, the callback returns
    normally having emitted BREAK once and done nothing else to its
    collaborators; the enabled connection is the same and the global status
    was and stays BREAK. *)
Theorem C7_enabled_connection_breaks_again
    (config : ConnectionConfig) (events : list Event) (c : Connection) :
  let s := run config events in
  _enabledConnection s = Some c ->
  let s' := exec (deliver (ConnectionStatus c STATUS_BREAK)) s in
  completion (deliver (ConnectionStatus c STATUS_BREAK)) s = Normal tt /\
  effects s' = effects s ++ [EmitStatus STATUS_BREAK] /\
  emitted s' = emitted s ++ [STATUS_BREAK] /\
  _enabledConnection s' = Some c /\
  _status s = STATUS_BREAK /\
  _status s' = STATUS_BREAK.
Proof.
  intros s He s'. destruct (Inv_run config events) as [_ Hl]. fold s in Hl.
  destruct (inv_enabled _ Hl c He) as [Ht Hst].
  destruct (In_keys_get _ _ Ht) as [info Hget].
  unfold s', completion, exec, deliver.
  rewrite (run_connectionOnStatus_break _ _ _ Hget).
  apply same_connection_true in He as E. rewrite E. simpl.
  repeat split; try assumption.
  unfold emitted. simpl. now rewrite emitted_of_app.
Qed.

(** ** A failed status query *)

Lemma grown_setStatus l st s :
  grown l is_emission s -> grown l is_emission (exec (_setStatus st) s).
Proof.
  intros [more [E H]]. rewrite exec_setStatus.
  destruct (Status_eqb st (_status s)); [now exists more|].
  exists (more ++ [EmitStatus st]). simpl. rewrite E, app_assoc. split; [reflexivity|].
  apply Forall_app. split; [exact H|]. repeat constructor. now exists st.
Qed.

Lemma grown_checkForEnd l s :
  grown l is_emission s -> grown l is_emission (exec _checkForEnd s).
Proof.
  intro H. rewrite exec_checkForEnd.
  destruct (end_of_life s); [now apply grown_setStatus | exact H].
Qed.

Lemma grown_updateStatus l s :
  grown l is_emission s -> grown l is_emission (exec _updateStatus s).
Proof.
  intro H. rewrite exec_updateStatus.
  destruct (Status_eqb _ STATUS_END); [exact H|].
  destruct (Status_eqb _ STATUS_BREAK); [exact H|].
  induction (Map_values (_connections s)) as [|i infos IH]; simpl; [exact H|].
  destruct (Status_eqb (status i) STATUS_BREAK); [|exact IH].
  rewrite exec_enableConnection. now apply grown_setStatus.
Qed.

Lemma enableFirstBreak_connections infos s :
  _connections (exec (enableFirstBreak infos) s) = _connections s.
Proof.
  induction infos as [|i infos IH]; simpl; [reflexivity|].
  destruct (Status_eqb (status i) STATUS_BREAK); [|exact IH].
  rewrite exec_enableConnection. now rewrite setStatus_connections.
Qed.

Lemma updateStatus_connections s :
  _connections (exec _updateStatus s) = _connections s.
Proof.
  rewrite exec_updateStatus.
  destruct (Status_eqb _ STATUS_END); [reflexivity|].
  destruct (Status_eqb _ STATUS_BREAK); [reflexivity|].
  apply enableFirstBreak_connections.
Qed.

Lemma checkForEnd_connections s :
  _connections (exec _checkForEnd s) = _connections s.
Proof.
  rewrite exec_checkForEnd.
  destruct (end_of_life s); [apply setStatus_connections | reflexivity].
Qed.

Lemma fold_left_snoc {A B : Type} (f : A -> B -> A) l x a :
  fold_left f (l ++ [x]) a = f (fold_left f l a) x.
Proof. now rewrite fold_left_app. Qed.

(** X19. The first status query of a connection that is still in the map
    fails: the resumed attach handler does what a reported ERROR status does
    and returns normally.  The status subscription is disposed, then the
    connection, and whatever else is done to the collaborators is status
    emissions; the connection is no longer in the map.  The multiplexer is
    then in the state the next callbacks start from. *)
Theorem failed_status_query_removes_the_connection
    (config : ConnectionConfig) (events : list Event)
    (c : Connection) (info : ConnectionInfo) :
  let s := run config events in
  Map_get c (_connections s) = Some info ->
  let s' := exec (deliver (StatusQuerySettled c None)) s in
  deliver (StatusQuerySettled c None) s = _connectionOnStatus c STATUS_ERROR s /\
  completion (deliver (StatusQuerySettled c None)) s = Normal tt /\
  (exists more,
     effects s' = effects s ++ DisposeSubscription (onStatusDisposable info)
                            :: DisposeConnection c :: more /\
     Forall is_emission more) /\
  Map_get c (_connections s') = None /\
  ~ tracked s' c /\
  s' = run config (events ++ [StatusQuerySettled c None]).
Proof.
  intros s Hget s'. destruct (Inv_run config events) as [Hb _]. fold s in Hb.
  split; [reflexivity|].
  unfold s', completion, exec, deliver, _onAttach_resume.
  rewrite (run_connectionOnStatus_terminal _ _ _ _ Hget) by auto. simpl.
  split; [reflexivity|].
  set (t := touched c info STATUS_ERROR s).
  set (info' := {| connection := connection info;
                   onStatusDisposable := onStatusDisposable info;
                   status := STATUS_ERROR |}).
  pose proof (touched_get c info STATUS_ERROR s) as Hgt. fold t info' in Hgt.
  assert (Er : exec (_removeConnection c) t =
               exec _checkForEnd
                 (if same_connection c (_enabledConnection t)
                  then exec _disableConnection (removed c info' t)
                  else removed c info' t)).
  { unfold exec at 1. now rewrite (run_removeConnection _ _ _ Hgt). }
  assert (Hgone : ~ In c (Map_keys (_connections
                    (exec _updateStatus (exec (_removeConnection c) t))))).
  { rewrite updateStatus_connections, Er, checkForEnd_connections.
    assert (Hd : ~ In c (Map_keys (Map_delete c (_connections t)))).
    { apply Map_delete_gone. unfold t, touched; simpl.
      rewrite (Map_set_keys_present _ _ _ (Map_get_Some_key _ _ _ Hget)).
      apply (inv_nodup _ Hb). }
    destruct (same_connection c (_enabledConnection t)); [|exact Hd].
    rewrite exec_disableConnection, setStatus_connections. exact Hd. }
  split; [|split; [|split]].
  - assert (H : grown (effects s ++ [DisposeSubscription (onStatusDisposable info);
                                    DisposeConnection c])
                  is_emission (exec _updateStatus (exec (_removeConnection c) t))).
    { apply grown_updateStatus. rewrite Er. apply grown_checkForEnd.
      assert (H0 : grown (effects s ++ [DisposeSubscription (onStatusDisposable info);
                                        DisposeConnection c])
                     is_emission (removed c info' t)).
      { exists []. simpl. rewrite <- app_assoc, app_nil_r. split; [reflexivity | constructor]. }
      destruct (same_connection c (_enabledConnection t)); [|exact H0].
      rewrite exec_disableConnection. apply grown_setStatus.
      destruct H0 as [more [E H0]]. exists more. split; [exact E | exact H0]. }
    destruct H as [more [E H]]. exists more. split; [|exact H].
    rewrite E, <- app_assoc. reflexivity.
  - destruct (Map_get c (_connections (exec _updateStatus (exec (_removeConnection c) t))))
      as [i|] eqn:E; [|reflexivity].
    apply Map_get_Some_key in E. contradiction.
  - exact Hgone.
  - unfold run, run_from. rewrite fold_left_snoc. unfold exec, deliver, _onAttach_resume.
    fold (run_from (listening config) events). fold (run config events). fold s.
    now rewrite (run_connectionOnStatus_terminal _ _ _ _ Hget) by auto.
Qed.

(** ** What the subscribers see *)


(** C10. [listen()] takes the status from STARTING to RUNNING and emits
    nothing: all it does to the collaborators is start the connector and
    send the pre-loading message.  Every status emitted afterwards, the
    first one included, is BREAK, RUNNING or END. *)
Theorem C10_listen_emits_nothing (config : ConnectionConfig) (events : list Event) :
  _status (constructor config) = STATUS_STARTING /\
  listen (constructor config) = (Normal tt, listening config) /\
  _status (listening config) = STATUS_RUNNING /\
  effects (listening config) =
    [ConnectorListen;
     SendUserMessage "console" "warning" "Pre-loading, please wait..."] /\
  emitted (listening config) = [] /\
  (forall st rest,
     emitted (run config events) = st :: rest ->
     st = STATUS_BREAK \/ st = STATUS_RUNNING \/ st = STATUS_END) /\
  Forall mux_status (emitted (run config events)).
Proof.
  repeat split; try reflexivity.
  - intros st rest E. destruct (Inv_run config events) as [Hb _].
    pose proof (inv_emitted _ Hb) as H. rewrite E in H.
    inversion H; subst. assumption.
  - destruct (Inv_run config events) as [Hb _]. apply (inv_emitted _ Hb).
Qed.

(** ** The dummy connection *)






(** ** Disposing *)

Lemma pick_app {A : Type} (f : Effect -> option A) l1 l2 :
  pick f (l1 ++ l2) = pick f l1 ++ pick f l2.
Proof.
  induction l1 as [|e l1 IH]; simpl; [reflexivity|].
  destruct (f e); simpl; now rewrite IH.
Qed.

Lemma pick_silent {A : Type} (f : Effect -> option A) l :
  Forall (fun e => f e = None) l -> pick f l = [].
Proof.
  induction 1 as [|e l He Hl IH]; simpl; [reflexivity|]. now rewrite He.
Qed.

Lemma pick_grown {A : Type} (f : Effect -> option A) l s :
  (forall st, f (EmitStatus st) = None) ->
  grown l is_emission s -> pick f (effects s) = pick f l.
Proof.
  intros Hf [more [E H]]. rewrite E, pick_app, (pick_silent f more); [apply app_nil_r|].
  eapply Forall_impl; [|exact H]. intros e [st ->]. apply Hf.
Qed.

Lemma grown_refl s : grown (effects s) is_emission s.
Proof. exists []. rewrite app_nil_r. split; [reflexivity | constructor]. Qed.

Lemma grown_disableConnection l s :
  grown l is_emission s -> grown l is_emission (exec _disableConnection s).
Proof.
  intro H. rewrite exec_disableConnection. apply grown_setStatus.
  destruct H as [more [E H]]. now exists more.
Qed.

Lemma exec_removeConnection c s info :
  Map_get c (_connections s) = Some info ->
  exec (_removeConnection c) s =
  exec _checkForEnd
    (if same_connection c (_enabledConnection s)
     then exec _disableConnection (removed c info s)
     else removed c info s).
Proof. intro H. unfold exec at 1. now rewrite (run_removeConnection _ _ _ H). Qed.

Lemma removeConnection_grown c s info :
  Map_get c (_connections s) = Some info ->
  grown ((effects s ++ [DisposeSubscription (onStatusDisposable info)])
           ++ [DisposeConnection c]) is_emission (exec (_removeConnection c) s).
Proof.
  intro H. rewrite (exec_removeConnection _ _ _ H). apply grown_checkForEnd.
  destruct (same_connection c (_enabledConnection s)).
  - apply grown_disableConnection. apply (grown_refl (removed c info s)).
  - apply (grown_refl (removed c info s)).
Qed.

Lemma removeConnection_connections c s info :
  Map_get c (_connections s) = Some info ->
  _connections (exec (_removeConnection c) s) = Map_delete c (_connections s).
Proof.
  intro H. rewrite (exec_removeConnection _ _ _ H), checkForEnd_connections.
  destruct (same_connection c (_enabledConnection s)); [|reflexivity].
  now rewrite exec_disableConnection, setStatus_connections.
Qed.

Lemma removeConnection_disposed c s info :
  Map_get c (_connections s) = Some info ->
  disposed (exec (_removeConnection c) s) = disposed s ++ [c] /\
  released (exec (_removeConnection c) s) = released s ++ [onStatusDisposable info].
Proof.
  intro H. pose proof (removeConnection_grown _ _ _ H) as Hg. unfold disposed, released.
  split.
  - rewrite (pick_grown disposal _ _ (fun _ => eq_refl) Hg), !pick_app. simpl.
    now rewrite app_nil_r.
  - rewrite (pick_grown release _ _ (fun _ => eq_refl) Hg), !pick_app. simpl.
    now rewrite app_nil_r.
Qed.

(** The loop of [dispose()], run on the keys of the map. *)
Lemma removeEach_all (m : ConnectionMap) : forall s,
  _connections s = m ->
  completion (removeEach (Map_keys m)) s = Normal tt /\
  _connections (exec (removeEach (Map_keys m)) s) = [] /\
  disposed (exec (removeEach (Map_keys m)) s) = disposed s ++ Map_keys m /\
  released (exec (removeEach (Map_keys m)) s) =
    released s ++ map onStatusDisposable (Map_values m).
Proof.
  induction m as [|[k x] m IH]; intros s E; simpl.
  - rewrite !app_nil_r. auto.
  - assert (Hget : Map_get k (_connections s) = Some x)
      by (rewrite E; simpl; now rewrite Nat.eqb_refl).
    rewrite completion_bind, exec_bind, (completion_removeConnection _ _ _ Hget).
    destruct (removeConnection_disposed _ _ _ Hget) as [Hd Hr].
    destruct (IH (exec (_removeConnection k) s)) as [H1 [H2 [H3 H4]]].
    { rewrite (removeConnection_connections _ _ _ Hget), E. simpl.
      now rewrite Nat.eqb_refl. }
    repeat split; try assumption.
    + rewrite H3, Hd, <- app_assoc. reflexivity.
    + rewrite H4, Hr, <- app_assoc. reflexivity.
Qed.


Lemma surroundings_setStatus st s :
  surroundings (exec (_setStatus st) s) = surroundings s.
Proof. rewrite exec_setStatus. now destruct (Status_eqb _ _). Qed.

Lemma surroundings_checkForEnd s :
  surroundings (exec _checkForEnd s) = surroundings s.
Proof.
  rewrite exec_checkForEnd.
  destruct (end_of_life s); [apply surroundings_setStatus | reflexivity].
Qed.

Lemma surroundings_disableConnection s :
  surroundings (exec _disableConnection s) = surroundings s.
Proof. rewrite exec_disableConnection. now rewrite surroundings_setStatus. Qed.

Lemma surroundings_enableFirstBreak infos s :
  surroundings (exec (enableFirstBreak infos) s) = surroundings s.
Proof.
  induction infos as [|i infos IH]; simpl; [reflexivity|].
  destruct (Status_eqb (status i) STATUS_BREAK); [|exact IH].
  rewrite exec_enableConnection. now rewrite surroundings_setStatus.
Qed.

Lemma surroundings_updateStatus s :
  surroundings (exec _updateStatus s) = surroundings s.
Proof.
  rewrite exec_updateStatus.
  destruct (Status_eqb _ STATUS_END); [reflexivity|].
  destruct (Status_eqb _ STATUS_BREAK); [reflexivity|].
  apply surroundings_enableFirstBreak.
Qed.

Lemma surroundings_removeConnection c s :
  surroundings (exec (_removeConnection c) s) = surroundings s.
Proof.
  destruct (Map_get c (_connections s)) as [info|] eqn:Hget.
  - rewrite (exec_removeConnection _ _ _ Hget), surroundings_checkForEnd.
    destruct (same_connection c (_enabledConnection s)); [|reflexivity].
    now rewrite surroundings_disableConnection.
  - unfold exec. now rewrite run_removeConnection_untracked.
Qed.

Lemma surroundings_removeEach keys : forall s,
  surroundings (exec (removeEach keys) s) = surroundings s.
Proof.
  induction keys as [|c keys IH]; intro s; simpl; [reflexivity|].
  rewrite exec_bind. destruct (completion (_removeConnection c) s).
  - now rewrite IH, surroundings_removeConnection.
  - apply surroundings_removeConnection.
Qed.

Lemma surroundings_connectionOnStatus c st s :
  surroundings (exec (_connectionOnStatus c st) s) = surroundings s.
Proof.
  unfold exec. destruct (Map_get c (_connections s)) as [info|] eqn:Hget.
  2:{ now rewrite run_connectionOnStatus_untracked. }
  destruct st.
  - now rewrite (run_connectionOnStatus_continue _ _ _ _ Hget) by auto.
  - now rewrite (run_connectionOnStatus_continue _ _ _ _ Hget) by auto.
  - rewrite (run_connectionOnStatus_terminal _ _ _ _ Hget) by auto. simpl.
    now rewrite surroundings_updateStatus, surroundings_removeConnection.
  - rewrite (run_connectionOnStatus_running _ _ _ Hget). simpl.
    rewrite surroundings_updateStatus.
    destruct (same_connection c (_enabledConnection s)); [|reflexivity].
    now rewrite surroundings_disableConnection.
  - rewrite (run_connectionOnStatus_break _ _ _ Hget). simpl.
    destruct (same_connection c (_enabledConnection s)); [reflexivity|].
    now rewrite surroundings_updateStatus.
  - rewrite (run_connectionOnStatus_terminal _ _ _ _ Hget) by auto. simpl.
    now rewrite surroundings_updateStatus, surroundings_removeConnection.
  - rewrite (run_connectionOnStatus_terminal _ _ _ _ Hget) by auto. simpl.
    now rewrite surroundings_updateStatus, surroundings_removeConnection.
  - rewrite (run_connectionOnStatus_unlisted _ _ _ _ Hget). simpl.
    now rewrite surroundings_updateStatus.
Qed.

Lemma run_disposeConnector s :
  _disposeConnector s = (Normal tt, exec _checkForEnd (closed s)).
Proof.
  unfold _disposeConnector, closed, bind at 1, this at 1.
  rewrite run_bind. destruct (_connector s); simpl;
    now rewrite (run_pair _checkForEnd), completion_checkForEnd.
Qed.

Lemma run_dispose s :
  dispose s =
  (Normal tt,
   exec _checkForEnd
     (closed (killed (exec (removeEach (Map_keys (_connections s))) s)))).
Proof.
  unfold dispose, bind at 1, this at 1. rewrite run_bind.
  destruct (removeEach_all (_connections s) s eq_refl) as [Hc _]. rewrite Hc.
  unfold bind at 1, this at 1. rewrite run_bind. unfold killed.
  destruct (_dummyRequestProcess (exec (removeEach (Map_keys (_connections s))) s));
    simpl; apply run_disposeConnector.
Qed.

Lemma closed_frame s :
  _connections (closed s) = _connections s /\
  _connector (closed s) = None /\
  _status (closed s) = _status s /\
  _enabledConnection (closed s) = _enabledConnection s /\
  _config (closed s) = _config s.
Proof. unfold closed. destruct (_connector s) eqn:E; simpl; auto. Qed.

Lemma killed_frame s :
  _connections (killed s) = _connections s /\
  _connector (killed s) = _connector s /\
  _status (killed s) = _status s /\
  _enabledConnection (killed s) = _enabledConnection s /\
  _config (killed s) = _config s.
Proof. unfold killed. destruct (_dummyRequestProcess s); simpl; auto. Qed.

Lemma dispose_state s :
  let s' := exec dispose s in
  _connections s' = [] /\ _connector s' = None /\ _status s' = STATUS_END.
Proof.
  intro s'. unfold s', exec. rewrite run_dispose. simpl.
  set (s1 := exec (removeEach (Map_keys (_connections s))) s).
  destruct (removeEach_all (_connections s) s eq_refl) as [_ [Hc _]]. fold s1 in Hc.
  destruct (killed_frame s1) as [K1 _].
  destruct (closed_frame (killed s1)) as [C1 [C2 _]].
  assert (Hend : end_of_life (closed (killed s1)) = true).
  { apply end_of_life_spec. rewrite C1, K1, Hc, C2. auto. }
  rewrite exec_checkForEnd, Hend.
  rewrite setStatus_connections, setStatus_status, C1, K1, Hc.
  repeat split.
  pose proof (surroundings_setStatus STATUS_END (closed (killed s1))) as E.
  unfold surroundings in E. injection E as _ E _ _ _ _ _. now rewrite E.
Qed.


Lemma checkForEnd_picks {A : Type} (f : Effect -> option A) s :
  (forall st, f (EmitStatus st) = None) ->
  pick f (effects (exec _checkForEnd s)) = pick f (effects s).
Proof. intro Hf. apply pick_grown; [exact Hf|]. apply grown_checkForEnd, grown_refl. Qed.

Lemma closed_picks {A : Type} (f : Effect -> option A) s :
  f ConnectorDispose = None -> pick f (effects (closed s)) = pick f (effects s).
Proof.
  intro Hf. unfold closed. destruct (_connector s); [|reflexivity].
  simpl. rewrite pick_app. simpl. rewrite Hf. apply app_nil_r.
Qed.

Lemma killed_picks {A : Type} (f : Effect -> option A) s :
  (forall p, f (KillDummyRequestProcess p) = None) ->
  pick f (effects (killed s)) = pick f (effects s).
Proof.
  intro Hf. unfold killed. destruct (_dummyRequestProcess s); [|reflexivity].
  simpl. rewrite pick_app. simpl. rewrite Hf. apply app_nil_r.
Qed.

(** X1. [dispose()] always returns normally and leaves no connection in
    the map, no connector, no enabled connection and the status END; the
    dummy connection slot and the breakpoint store are as they were. *)
Theorem dispose_ends_the_session (config : ConnectionConfig) (events : list Event) :
  let s := run config events in
  let s' := exec (deliver Dispose) s in
  completion (deliver Dispose) s = Normal tt /\
  _connections s' = [] /\
  _connector s' = None /\
  _enabledConnection s' = None /\
  _status s' = STATUS_END /\
  _dummyConnection s' = _dummyConnection s /\
  _breakpointStore s' = _breakpointStore s.
Proof.
  intros s s'. unfold s', deliver.
  destruct (dispose_state s) as [H1 [H2 H3]].
  split; [unfold completion; now rewrite run_dispose|].
  split; [exact H1|]. split; [exact H2|]. split; [|split; [exact H3|]].
  - pose proof (Inv_dispose s (Inv_run config events)) as [_ Hl].
    destruct (_enabledConnection (exec dispose s)) as [c|] eqn:E; [|reflexivity].
    destruct (inv_enabled _ Hl c E) as [Ht _]. unfold tracked in Ht.
    rewrite H1 in Ht. destruct Ht.
  - unfold exec. rewrite run_dispose. simpl.
    set (s1 := exec (removeEach (Map_keys (_connections s))) s).
    pose proof (surroundings_checkForEnd (closed (killed s1))) as E1.
    pose proof (surroundings_removeEach (Map_keys (_connections s)) s) as E2.
    fold s1 in E2. unfold surroundings in E1, E2.
    injection E1 as _ _ _ E1d E1b _ _. injection E2 as _ _ _ E2d E2b _ _.
    rewrite E1d, E1b, <- E2d, <- E2b. unfold closed, killed.
    destruct (_dummyRequestProcess s1), (_connector s1); simpl; auto;
      destruct (_connector s1); auto.
Qed.

(** X2. [dispose()] disposes exactly the connections of the map, each
    once and in the order of the map, and the status subscription of each;
    it asks the warm-up process, when there is one, to stop. *)
Theorem dispose_disposes_the_tracked_connections (s : Mux) :
  let s' := exec dispose s in
  disposed s' = disposed s ++ Map_keys (_connections s) /\
  released s' = released s ++ map onStatusDisposable (Map_values (_connections s)) /\
  (forall p, _dummyRequestProcess s = Some p ->
             In (KillDummyRequestProcess p) (effects s')).
Proof.
  intro s'. unfold s', exec. rewrite run_dispose. simpl.
  set (s1 := exec (removeEach (Map_keys (_connections s))) s).
  destruct (removeEach_all (_connections s) s eq_refl) as [_ [_ [Hd Hr]]].
  fold s1 in Hd, Hr. unfold disposed, released in *.
  split; [|split].
  - rewrite checkForEnd_picks, closed_picks, killed_picks; auto.
  - rewrite checkForEnd_picks, closed_picks, killed_picks; auto.
  - intros p Hp.
    assert (Ep : _dummyRequestProcess s1 = Some p).
    { pose proof (surroundings_removeEach (Map_keys (_connections s)) s) as E.
      fold s1 in E. unfold surroundings in E. injection E as _ _ E _ _ _ _. congruence. }
    destruct (grown_checkForEnd (effects (closed (killed s1))) (closed (killed s1))
                (grown_refl _)) as [more [E _]].
    rewrite E. apply in_or_app. left. unfold closed, killed. rewrite Ep. simpl.
    destruct (_connector s1); simpl.
    + apply in_or_app. left. apply in_or_app. right. now left.
    + apply in_or_app. right. now left.
Qed.

(** X3. A second [dispose()] leaves the multiplexer as the first one left
    it and emits nothing; all it does is signal the warm-up process
    again, when there is one. *)
Theorem dispose_twice (s : Mux) :
  let s1 := exec dispose s in
  dispose s1 = (Normal tt, killed s1) /\
  emitted (killed s1) = emitted s1 /\
  disposed (killed s1) = disposed s1.
Proof.
  intro s1. destruct (dispose_state s) as [H1 [H2 H3]]. fold s1 in H1, H2, H3.
  split; [|split].
  - rewrite run_dispose, H1. simpl.
    change (exec (ret tt) s1) with s1.
    destruct (killed_frame s1) as [K1 [K2 [K3 _]]].
    assert (Ec : closed (killed s1) = killed s1).
    { unfold closed. now rewrite K2, H2. }
    rewrite Ec, exec_checkForEnd.
    assert (He : end_of_life (killed s1) = true).
    { apply end_of_life_spec. rewrite K1, K2, H1, H2. auto. }
    rewrite He, exec_setStatus, K3, H3. reflexivity.
  - unfold killed. destruct (_dummyRequestProcess s1); [|reflexivity].
    now apply emitted_perform_silent.
  - unfold disposed. now apply killed_picks.
Qed.


(** ** One connection resumes or goes away while others wait *)

Lemma NoDup_keys_functional (m : ConnectionMap) k a b :
  NoDup (Map_keys m) -> In (k, a) m -> In (k, b) m -> a = b.
Proof.
  induction m as [|[k' x] m IH]; simpl; [tauto|].
  intros Hnd Ha Hb. inversion Hnd as [|? ? Hk Hm]; subst.
  assert (Hkey : forall y, In (k', y) m -> False).
  { intros y Hy. apply Hk. unfold Map_keys. change k' with (fst (k', y)).
    now apply in_map. }
  destruct Ha as [Ha|Ha], Hb as [Hb|Hb].
  - congruence.
  - injection Ha as -> ->. destruct (Hkey _ Hb).
  - injection Hb as -> ->. destruct (Hkey _ Ha).
  - now apply IH.
Qed.

Lemma enableFirstBreak_none (m : ConnectionMap) s :
  (forall e, In e m -> status (snd e) <> STATUS_BREAK) ->
  enableFirstBreak (Map_values m) s = (Normal tt, s).
Proof.
  induction m as [|[k i] m IH]; intro H; [reflexivity|]. simpl.
  assert (E : Status_eqb (status i) STATUS_BREAK = false).
  { apply Status_eqb_neq. apply (H (k, i)). now left. }
  rewrite E. apply IH. intros e He. apply H. now right.
Qed.

Lemma exec_disableConnection_break s :
  _status s = STATUS_BREAK ->
  exec _disableConnection s =
  set_effects (effects s ++ [EmitStatus STATUS_RUNNING])
              (set_status STATUS_RUNNING (set_enabledConnection None s)).
Proof.
  intro H. rewrite exec_disableConnection, exec_setStatus. simpl. now rewrite H.
Qed.

(** X4. The enabled connection reports RUNNING: it is disabled and RUNNING
    is emitted.  If some connection of the map has BREAK as its cached
    status, the first such one in the order of the map is enabled at once
    and BREAK is emitted after RUNNING; otherwise no connection is enabled
    and the status stays RUNNING. *)
Theorem enabled_connection_resumes
    (config : ConnectionConfig) (events : list Event) (c : Connection) :
  let s := run config events in
  _enabledConnection s = Some c ->
  let s' := exec (deliver (ConnectionStatus c STATUS_RUNNING)) s in
  completion (deliver (ConnectionStatus c STATUS_RUNNING)) s = Normal tt /\
  (exists info,
     Map_get c (_connections s) = Some info /\
     _connections s' =
       Map_set c {| connection := connection info;
                    onStatusDisposable := onStatusDisposable info;
                    status := STATUS_RUNNING |} (_connections s)) /\
  ((exists e, In e (_connections s') /\ status (snd e) = STATUS_BREAK) ->
   exists before c' info' after,
     _connections s' = before ++ (c', info') :: after /\
     (forall e, In e before -> status (snd e) <> STATUS_BREAK) /\
     status info' = STATUS_BREAK /\
     c' <> c /\
     _enabledConnection s' = Some c' /\
     _status s' = STATUS_BREAK /\
     emitted s' = emitted s ++ [STATUS_RUNNING; STATUS_BREAK]) /\
  ((forall e, In e (_connections s') -> status (snd e) <> STATUS_BREAK) ->
   _enabledConnection s' = None /\
   _status s' = STATUS_RUNNING /\
   emitted s' = emitted s ++ [STATUS_RUNNING]).
Proof.
  intros s He s'. pose proof (Inv_run config events) as Hs. fold s in Hs.
  destruct (inv_enabled _ (proj2 Hs) c He) as [Ht Hst].
  destruct (In_keys_get _ _ Ht) as [info Hget].
  pose proof (Inv_touched c info STATUS_RUNNING s Hget Hs) as [Hbt _].
  set (t := touched c info STATUS_RUNNING s) in *.
  assert (Hd : exec _disableConnection t =
               set_effects (effects s ++ [EmitStatus STATUS_RUNNING])
                 (set_status STATUS_RUNNING (set_enabledConnection None t)))
    by exact (exec_disableConnection_break t Hst).
  set (d := exec _disableConnection t) in *.
  assert (Es : s' = exec _updateStatus d).
  { unfold s', exec at 1, deliver. rewrite (run_connectionOnStatus_running _ _ _ Hget).
    apply same_connection_true in He. now rewrite He. }
  assert (Eu : exec _updateStatus d =
               exec (enableFirstBreak (Map_values (_connections t))) d).
  { rewrite exec_updateStatus, Hd. reflexivity. }
  assert (Ec : _connections s' = _connections t).
  { rewrite Es, updateStatus_connections, Hd. reflexivity. }
  split; [|split; [|split]].
  - unfold completion, deliver. now rewrite (run_connectionOnStatus_running _ _ _ Hget).
  - exists info. split; [exact Hget | exact Ec].
  - intro Hex. rewrite Ec in Hex.
    destruct (enableFirstBreak_first (_connections t) d Hex)
      as [before [k [i [after [Em [Hbef [Hi Hx]]]]]]].
    assert (Ek : connection i = k).
    { apply (inv_info _ Hbt). fold t. rewrite Em. apply in_or_app. right. now left. }
    exists before, k, i, after. rewrite Ec, Es, Eu, Hx, Ek.
    rewrite exec_enableConnection_fresh by (rewrite Hd; discriminate).
    rewrite Hd. simpl. repeat split; try assumption.
    + intros ->.
      assert (Hin : In (c, i) (_connections t))
        by (rewrite Em; apply in_or_app; right; now left).
      pose proof (Map_get_Some_In _ _ _ (touched_get c info STATUS_RUNNING s)) as Hin'.
      fold t in Hin'.
      rewrite (NoDup_keys_functional _ _ _ _ (inv_nodup _ Hbt) Hin Hin') in Hi.
      discriminate Hi.
    + unfold emitted. simpl. rewrite !emitted_of_app. simpl. now rewrite <- app_assoc.
  - intro Hno. rewrite Ec in Hno.
    rewrite Es, Eu. unfold exec. rewrite (enableFirstBreak_none _ d Hno). simpl.
    rewrite Hd. simpl. repeat split.
    unfold emitted. simpl. now rewrite emitted_of_app.
Qed.


Lemma terminal_cases st :
  terminal st = true -> st = STATUS_STOPPED \/ st = STATUS_ERROR \/ st = STATUS_END.
Proof. destruct st; simpl; intro H; try discriminate H; auto. Qed.

(** X5. A connection other than the enabled one reaches a terminal status:
    it is disposed and leaves the map, and nothing else happens.  The
    enabled connection stays enabled, the status stays BREAK, nothing is
    emitted and the other connections stay in the map. *)
Theorem other_connection_ends
    (config : ConnectionConfig) (events : list Event)
    (c enabled : Connection) (info : ConnectionInfo) (st : Status) :
  let s := run config events in
  _enabledConnection s = Some enabled ->
  c <> enabled ->
  Map_get c (_connections s) = Some info ->
  terminal st = true ->
  let s' := exec (deliver (ConnectionStatus c st)) s in
  completion (deliver (ConnectionStatus c st)) s = Normal tt /\
  _enabledConnection s' = Some enabled /\
  _status s' = STATUS_BREAK /\
  emitted s' = emitted s /\
  disposed s' = disposed s ++ [c] /\
  released s' = released s ++ [onStatusDisposable info] /\
  ~ tracked s' c /\
  (forall k, k <> c -> (tracked s' k <-> tracked s k)).
Proof.
  intros s He Hne Hget Hterm s'.
  pose proof (Inv_run config events) as Hs. fold s in Hs.
  destruct (inv_enabled _ (proj2 Hs) enabled He) as [Ht Hst].
  apply terminal_cases in Hterm.
  pose proof (Inv_touched c info st s Hget Hs) as [Hbt _].
  set (t := touched c info st s) in *.
  set (info' := {| connection := connection info;
                   onStatusDisposable := onStatusDisposable info;
                   status := st |}).
  pose proof (touched_get c info st s) as Hgt. fold t info' in Hgt.
  assert (Hkeys : Map_keys (_connections t) = Map_keys (_connections s)).
  { unfold t, touched. simpl.
    apply Map_set_keys_present. eapply Map_get_Some_key; eauto. }
  assert (Hsame : same_connection c (_enabledConnection t) = false).
  { apply same_connection_false. change (_enabledConnection t) with (_enabledConnection s).
    congruence. }
  assert (Hstay : In enabled (Map_keys (Map_delete c (_connections t)))).
  { apply Map_delete_keys_other; [congruence|]. rewrite Hkeys. exact Ht. }
  assert (Hr : exec (_removeConnection c) t = removed c info' t).
  { rewrite (exec_removeConnection _ _ _ Hgt), Hsame, exec_checkForEnd.
    destruct (end_of_life (removed c info' t)) eqn:E; [|reflexivity].
    apply end_of_life_empty in E.
    change (_connections (removed c info' t)) with (Map_delete c (_connections t)) in E.
    rewrite E in Hstay. destruct Hstay. }
  assert (Es : s' = removed c info' t).
  { unfold s', exec at 1, deliver.
    rewrite (run_connectionOnStatus_terminal _ _ _ _ Hget Hterm). cbn [snd]. fold t.
    rewrite Hr, exec_updateStatus.
    change (_status (removed c info' t)) with (_status s). now rewrite Hst. }
  split.
  { unfold completion, deliver.
    now rewrite (run_connectionOnStatus_terminal _ _ _ _ Hget Hterm). }
  rewrite Es. split; [exact He|]. split; [exact Hst|].
  split; [exact (emitted_removed c info' t)|].
  split; [|split; [|split]].
  - unfold disposed, removed. simpl. rewrite !pick_app. simpl. now rewrite app_nil_r.
  - unfold released, removed. simpl. rewrite !pick_app. simpl. now rewrite app_nil_r.
  - change (~ In c (Map_keys (Map_delete c (_connections t)))).
    apply Map_delete_gone. apply (inv_nodup _ Hbt).
  - intros k Hk.
    change (In k (Map_keys (Map_delete c (_connections t))) <->
            In k (Map_keys (_connections s))).
    rewrite <- Hkeys. split.
    + apply Map_delete_keys_In.
    + now apply Map_delete_keys_other.
Qed.


(** ** What holds between two callbacks, continued *)

Lemma enableFirstBreak_settles (m : ConnectionMap) s :
  _status (exec (enableFirstBreak (Map_values m)) s) = STATUS_BREAK \/
  (exec (enableFirstBreak (Map_values m)) s = s /\
   forall e, In e m -> status (snd e) <> STATUS_BREAK).
Proof.
  induction m as [|[k i] m IH]; simpl; [right; split; [reflexivity | tauto]|].
  destruct (Status_eqb (status i) STATUS_BREAK) eqn:E.
  - left. rewrite exec_enableConnection. apply setStatus_status.
  - destruct IH as [IH|[IH1 IH2]]; [now left|]. right. split; [exact IH1|].
    intros e [<-|He]; [now apply Status_eqb_neq | now apply IH2].
Qed.

Lemma settled_updateStatus s : settled (exec _updateStatus s).
Proof.
  unfold settled. rewrite exec_updateStatus.
  destruct (Status_eqb (_status s) STATUS_END) eqn:E1.
  { apply Status_eqb_eq in E1. congruence. }
  destruct (Status_eqb (_status s) STATUS_BREAK) eqn:E2.
  { apply Status_eqb_eq in E2. congruence. }
  destruct (enableFirstBreak_settles (_connections s) s) as [H|[H1 H2]].
  - congruence.
  - rewrite H1. intros _. exact H2.
Qed.

Lemma checkForEnd_running s :
  _status (exec _checkForEnd s) = STATUS_RUNNING -> _status s = STATUS_RUNNING.
Proof.
  rewrite exec_checkForEnd. destruct (end_of_life s); [|auto].
  rewrite setStatus_status. discriminate.
Qed.

Lemma settled_connectionOnStatus c st s :
  Inv s -> settled s -> settled (exec (_connectionOnStatus c st) s).
Proof.
  intros Hs H. unfold exec.
  destruct (Map_get c (_connections s)) as [info|] eqn:Hget.
  2:{ now rewrite run_connectionOnStatus_untracked. }
  assert (Hcont : st = STATUS_STARTING \/ st = STATUS_STOPPING ->
                  settled (snd (_connectionOnStatus c st s))).
  { intro Hst. rewrite (run_connectionOnStatus_continue _ _ _ _ Hget Hst).
    intros Hr [k i] He. simpl in Hr, He. apply Map_set_In in He.
    destruct He as [[= -> ->]|He]; [|now apply (H Hr (k, i))].
    simpl. destruct Hst as [-> | ->]; discriminate. }
  assert (Hterm : st = STATUS_STOPPED \/ st = STATUS_ERROR \/ st = STATUS_END ->
                  settled (snd (_connectionOnStatus c st s))).
  { intro Hst. rewrite (run_connectionOnStatus_terminal _ _ _ _ Hget Hst).
    apply settled_updateStatus. }
  destruct st; auto.
  - rewrite (run_connectionOnStatus_running _ _ _ Hget). apply settled_updateStatus.
  - rewrite (run_connectionOnStatus_break _ _ _ Hget). simpl.
    destruct (same_connection c (_enabledConnection s)) eqn:E;
      [|apply settled_updateStatus].
    apply same_connection_true in E.
    destruct (inv_enabled _ (proj2 Hs) c E) as [_ Hst].
    intros Hr. simpl in Hr. congruence.
  - rewrite (run_connectionOnStatus_unlisted _ _ _ _ Hget). apply settled_updateStatus.
Qed.

Lemma settled_deliver e s : Inv s -> settled s -> settled (exec (deliver e) s).
Proof.
  intros Hs H. destruct e as [message|c settled0|d|c st| | |]; unfold deliver.
  - unfold exec. destruct (isCorrectConnection (_config s) message) eqn:H1.
    + destruct (isDummyConnection message) eqn:H2.
      * rewrite run_onAttach_dummy by assumption. exact H.
      * rewrite run_onAttach_regular by assumption. simpl.
        intros Hr e He. rewrite (attached_connections s (proj1 Hs)) in He.
        apply in_app_or in He as [He|[<-|[]]]; [now apply H | discriminate].
    + rewrite run_onAttach_discard by assumption. exact H.
  - now apply settled_connectionOnStatus.
  - unfold exec, bind at 1, this at 1.
    destruct (existsb (Nat.eqb d) (awaitingDummyRun s)); exact H.
  - now apply settled_connectionOnStatus.
  - unfold exec. rewrite run_disposeConnector. simpl.
    intros Hr e He. rewrite checkForEnd_connections in He.
    apply checkForEnd_running in Hr.
    destruct (closed_frame s) as [C1 [_ [C3 _]]]. rewrite C1 in He. rewrite C3 in Hr.
    now apply H.
  - exact H.
  - destruct (dispose_state s) as [E _]. intros _ e He. rewrite E in He. destruct He.
Qed.

Lemma settled_run config events : settled (run config events).
Proof.
  unfold run. generalize (Inv_listening config).
  assert (H0 : settled (listening config)) by (intros _ e []).
  revert H0. generalize (listening config) as s.
  induction events as [|e events IH]; intros s H0 Hs; [exact H0|].
  simpl. apply IH; [now apply settled_deliver | now apply Inv_deliver].
Qed.

Lemma over_checkForEnd s : over_when_deserted (exec _checkForEnd s).
Proof.
  unfold over_when_deserted. rewrite checkForEnd_connections.
  pose proof (surroundings_checkForEnd s) as E. unfold surroundings in E.
  injection E as _ E _ _ _ _ _. rewrite E. intros H1 H2.
  rewrite exec_checkForEnd.
  assert (He : end_of_life s = true) by (apply end_of_life_spec; auto).
  rewrite He. apply setStatus_status.
Qed.

Lemma over_updateStatus s :
  over_when_deserted s -> over_when_deserted (exec _updateStatus s).
Proof.
  unfold over_when_deserted. rewrite updateStatus_connections.
  pose proof (surroundings_updateStatus s) as E. unfold surroundings in E.
  injection E as _ E _ _ _ _ _. rewrite E. intros H H1 H2.
  pose proof (H H1 H2) as E'. rewrite exec_updateStatus, E'. simpl. exact E'.
Qed.

Lemma over_populated s : _connections s <> [] -> over_when_deserted s.
Proof. intros H _ E. contradiction. Qed.

Lemma touched_populated c info st s :
  Map_get c (_connections s) = Some info -> _connections (touched c info st s) <> [].
Proof.
  intros Hget E. pose proof (touched_get c info st s) as H. rewrite E in H. discriminate.
Qed.

Lemma over_connectionOnStatus c st s :
  over_when_deserted s -> over_when_deserted (exec (_connectionOnStatus c st) s).
Proof.
  intros H. unfold exec.
  destruct (Map_get c (_connections s)) as [info|] eqn:Hget.
  2:{ now rewrite run_connectionOnStatus_untracked. }
  pose proof (touched_populated c info st s Hget) as Hp.
  assert (Hterm : st = STATUS_STOPPED \/ st = STATUS_ERROR \/ st = STATUS_END ->
                  over_when_deserted (snd (_connectionOnStatus c st s))).
  { intro Hst. rewrite (run_connectionOnStatus_terminal _ _ _ _ Hget Hst). simpl.
    apply over_updateStatus.
    rewrite (exec_removeConnection _ _ _ (touched_get c info st s)).
    apply over_checkForEnd. }
  destruct st; auto.
  - rewrite (run_connectionOnStatus_continue _ _ _ _ Hget) by auto.
    now apply over_populated.
  - rewrite (run_connectionOnStatus_continue _ _ _ _ Hget) by auto.
    now apply over_populated.
  - rewrite (run_connectionOnStatus_running _ _ _ Hget). simpl.
    apply over_populated. rewrite updateStatus_connections.
    destruct (same_connection c (_enabledConnection s)); [|exact Hp].
    now rewrite exec_disableConnection, setStatus_connections.
  - rewrite (run_connectionOnStatus_break _ _ _ Hget). simpl.
    apply over_populated.
    destruct (same_connection c (_enabledConnection s)); [exact Hp|].
    now rewrite updateStatus_connections.
  - rewrite (run_connectionOnStatus_unlisted _ _ _ _ Hget). simpl.
    apply over_populated. now rewrite updateStatus_connections.
Qed.

Lemma over_deliver e s :
  Base s -> over_when_deserted s -> over_when_deserted (exec (deliver e) s).
Proof.
  intros Hb H. destruct e as [message|c settled0|d|c st| | |]; unfold deliver.
  - unfold exec. destruct (isCorrectConnection (_config s) message) eqn:H1.
    + destruct (isDummyConnection message) eqn:H2.
      * rewrite run_onAttach_dummy by assumption. exact H.
      * rewrite run_onAttach_regular by assumption. simpl.
        apply over_populated. rewrite (attached_connections s Hb).
        now destruct (_connections s).
    + rewrite run_onAttach_discard by assumption. exact H.
  - now apply over_connectionOnStatus.
  - unfold exec, bind at 1, this at 1.
    destruct (existsb (Nat.eqb d) (awaitingDummyRun s)); exact H.
  - now apply over_connectionOnStatus.
  - unfold exec. rewrite run_disposeConnector. apply over_checkForEnd.
  - exact H.
  - destruct (dispose_state s) as [_ [_ E]]. intros _ _. exact E.
Qed.

Lemma over_run config events : over_when_deserted (run config events).
Proof.
  unfold run. generalize (Inv_listening config).
  assert (H0 : over_when_deserted (listening config)) by (intros E; discriminate E).
  revert H0. generalize (listening config) as s.
  induction events as [|e events IH]; intros s H0 Hs; [exact H0|].
  simpl. apply IH; [apply over_deliver; [apply Hs | exact H0] | now apply Inv_deliver].
Qed.


(** X6. Between two callbacks no connection waits in BREAK unnoticed: if
    the cached status of a connection of the map is BREAK, then some
    connection is enabled and the status is BREAK, unless the session has
    ended. *)
Theorem waiting_break_is_served
    (config : ConnectionConfig) (events : list Event)
    (c : Connection) (info : ConnectionInfo) :
  let s := run config events in
  Map_get c (_connections s) = Some info ->
  status info = STATUS_BREAK ->
  _status s = STATUS_END \/
  (_status s = STATUS_BREAK /\
   exists c', _enabledConnection s = Some c' /\ tracked s c').
Proof.
  intros s Hget Hst. destruct (Inv_run config events) as [Hb Hl]. fold s in Hb, Hl.
  destruct (inv_status _ Hb) as [E|[E|E]].
  - right. split; [exact E|].
    destruct (Link_cases _ Hl) as [[_ Hn]|[c' [He [Ht _]]]]; [contradiction|].
    exists c'. auto.
  - exfalso. apply (settled_run config events E (c, info)); [|exact Hst].
    now apply Map_get_Some_In.
  - now left.
Qed.

(** X7. Once the connector is gone the session is over as soon as no
    connection is left: with no connector and an empty map the status is
    END.  The connector closing ends the session at once when the map is
    empty, and changes neither the status nor the enabled connection, and
    emits nothing, when it is not. *)
Theorem session_over_when_deserted (config : ConnectionConfig) (events : list Event) :
  let s := run config events in
  let s' := exec (deliver ConnectorClose) s in
  (_connector s = None -> _connections s = [] -> _status s = STATUS_END) /\
  completion (deliver ConnectorClose) s = Normal tt /\
  _connector s' = None /\
  _connections s' = _connections s /\
  (_connections s = [] -> _status s' = STATUS_END) /\
  (_connections s <> [] ->
   _status s' = _status s /\
   _enabledConnection s' = _enabledConnection s /\
   emitted s' = emitted s).
Proof.
  intros s s'. split; [apply over_run|].
  unfold s', completion, exec, deliver. rewrite run_disposeConnector. simpl.
  destruct (closed_frame s) as [C1 [C2 [C3 [C4 C5]]]].
  split; [reflexivity|]. split; [|split; [|split]].
  - pose proof (surroundings_checkForEnd (closed s)) as E. unfold surroundings in E.
    injection E as _ E _ _ _ _ _. now rewrite E.
  - now rewrite checkForEnd_connections.
  - intro E. apply (over_checkForEnd (closed s)).
    + pose proof (surroundings_checkForEnd (closed s)) as E'. unfold surroundings in E'.
      injection E' as _ E' _ _ _ _ _. now rewrite E'.
    + now rewrite checkForEnd_connections, C1.
  - intro Hne. rewrite exec_checkForEnd.
    destruct (end_of_life (closed s)) eqn:E.
    + apply end_of_life_empty in E. rewrite C1 in E. contradiction.
    + repeat split; try assumption.
      unfold closed. destruct (_connector s); [|reflexivity].
      apply (emitted_perform_silent ConnectorDispose (set_connector None s)). discriminate.
Qed.

(** X8. While a connection is enabled every forwarding operation goes to
    it: [getProperties] too, which never turns to the dummy connection
    then, since the status is BREAK. *)
Theorem forwarding_goes_to_the_enabled_connection
    (config : ConnectionConfig) (events : list Event) (c : Connection) :
  let s := run config events in
  _enabledConnection s = Some c ->
  (forall remoteId,
     getProperties remoteId s = (Normal (OfConnection c (getProperties_call remoteId)), s)) /\
  (forall frameIndex expression,
     evaluateOnCallFrame frameIndex expression s =
     (Normal (OfConnection c (evaluateOnCallFrame_call frameIndex expression)), s)) /\
  (forall frameIndex,
     getScopesForFrame frameIndex s =
     (Normal (OfConnection c (getScopesForFrame_call frameIndex)), s)) /\
  getStackFrames s = (Normal (OfConnection c getStackFrames_call), s) /\
  sendBreakCommand s = (Normal (OfConnection c sendBreakCommand_call), s) /\
  (forall command,
     sendContinuationCommand command s =
     (Normal tt, set_effects (effects s ++ [SendContinuationCommand c command]) s)).
Proof.
  intros s He. destruct (Inv_run config events) as [_ Hl]. fold s in Hl.
  destruct (inv_enabled _ Hl c He) as [_ Hst].
  unfold getProperties, evaluateOnCallFrame, getScopesForFrame, getStackFrames,
    sendBreakCommand, sendContinuationCommand, bind, this.
  rewrite He, Hst. repeat split; reflexivity.
Qed.

(** X9. After the session has ended no connection is enabled any more,
    whatever attaches or breaks later: the forwarding operations keep
    answering as with no connection. *)
Theorem nothing_enabled_after_end
    (config : ConnectionConfig) (events later : list Event) :
  let s := run config events in
  _status s = STATUS_END ->
  let s' := run_from s later in
  _enabledConnection s' = None /\
  getStackFrames s' = (Normal EmptyStack, s') /\
  sendBreakCommand s' = (Normal (ResolvedBool false), s') /\
  (forall frameIndex expression,
     evaluateOnCallFrame frameIndex expression s' = (Throw (Error "No connection"), s')).
Proof.
  intros s H s'. destruct (Inv_run config events) as [_ Hl]. fold s in Hl.
  assert (Hs : ended (emitted s) s).
  { repeat split; [exact H|].
    destruct (Link_cases _ Hl) as [[He _]|[c [_ [_ Hb]]]]; [exact He | congruence]. }
  destruct (ended_run_from _ later s Hs) as [_ [E _]]. fold s' in E.
  unfold getStackFrames, sendBreakCommand, evaluateOnCallFrame, bind, this.
  rewrite E. repeat split; reflexivity.
Qed.

(** X10. A socket attaching changes nothing the debugger UI can see: the
    status, the enabled connection, the dummy connection and what was
    emitted are as before, and so are the connections already in the map.
    At most one entry is added, for a new connection whose cached status is
    STARTING; a handshake the configuration refuses only has its socket
    failed. *)
Theorem attach_is_not_visible
    (config : ConnectionConfig) (events : list Event) (message : Message) :
  let s := run config events in
  let s' := exec (deliver (Attach message)) s in
  completion (deliver (Attach message)) s = Normal tt /\
  _status s' = _status s /\
  _enabledConnection s' = _enabledConnection s /\
  _dummyConnection s' = _dummyConnection s /\
  emitted s' = emitted s /\
  disposed s' = disposed s /\
  (_connections s' = _connections s \/
   (~ tracked s (heapNext s) /\
    _connections s' =
    _connections s ++ [(heapNext s, {| connection := heapNext s;
                                       onStatusDisposable := {| detaches := heapNext s |};
                                       status := STATUS_STARTING |})])) /\
  (isCorrectConnection (_config s) message = false ->
   s' = set_effects (effects s ++ [FailConnection]) s).
Proof.
  intros s s'. destruct (Inv_run config events) as [Hb _]. fold s in Hb.
  destruct (onAttach_frame message s) as [F1 [F2 F3]].
  unfold s', completion, exec, deliver in *.
  destruct (isCorrectConnection (_config s) message) eqn:H1.
  - destruct (isDummyConnection message) eqn:H2.
    + rewrite run_onAttach_dummy in * by assumption. simpl.
      repeat split; try assumption; try discriminate.
      * unfold disposed. simpl. rewrite pick_app. simpl. apply app_nil_r.
      * now left.
    + rewrite run_onAttach_regular in * by assumption. cbn [fst snd].
      repeat split; try assumption; try discriminate.
      * unfold disposed. simpl. rewrite pick_app. simpl. apply app_nil_r.
      * right. split; [now apply fresh_untracked | now apply attached_connections].
  - rewrite run_onAttach_discard in * by assumption. simpl.
    repeat split; try assumption.
    + unfold disposed. simpl. rewrite pick_app. simpl. apply app_nil_r.
    + now left.
Qed.


(** ** The life of a connection *)

Lemma updateStatus_picks {A : Type} (f : Effect -> option A) s :
  (forall st, f (EmitStatus st) = None) ->
  pick f (effects (exec _updateStatus s)) = pick f (effects s).
Proof. intro Hf. apply pick_grown; [exact Hf|]. apply grown_updateStatus, grown_refl. Qed.

Lemma disableConnection_picks {A : Type} (f : Effect -> option A) s :
  (forall st, f (EmitStatus st) = None) ->
  pick f (effects (exec _disableConnection s)) = pick f (effects s).
Proof. intro Hf. apply pick_grown; [exact Hf|]. apply grown_disableConnection, grown_refl. Qed.

Lemma store_of_surroundings s s' :
  surroundings s' = surroundings s -> _breakpointStore s' = _breakpointStore s.
Proof. unfold surroundings. intro E. now injection E. Qed.

(** What a status callback does to the map and to the disposals. *)
Lemma connectionOnStatus_removal c st s :
  Base s ->
  let s' := exec (_connectionOnStatus c st) s in
  (disposed s' = disposed s /\
   Map_keys (_connections s') = Map_keys (_connections s)) \/
  (tracked s c /\ disposed s' = disposed s ++ [c] /\ ~ tracked s' c /\
   forall k, tracked s' k -> tracked s k).
Proof.
  intros Hb s'. unfold s', exec.
  destruct (Map_get c (_connections s)) as [info|] eqn:Hget.
  2:{ rewrite run_connectionOnStatus_untracked by assumption. now left. }
  assert (Hk : Map_keys (_connections (touched c info st s)) = Map_keys (_connections s)).
  { unfold touched. simpl. apply Map_set_keys_present. eapply Map_get_Some_key; eauto. }
  assert (Hcont : st = STATUS_STARTING \/ st = STATUS_STOPPING ->
    disposed (snd (_connectionOnStatus c st s)) = disposed s /\
    Map_keys (_connections (snd (_connectionOnStatus c st s))) = Map_keys (_connections s)).
  { intro Hst. rewrite (run_connectionOnStatus_continue _ _ _ _ Hget Hst). simpl.
    split; [|exact Hk]. unfold disposed. simpl. rewrite pick_app. simpl. apply app_nil_r. }
  assert (Hterm : st = STATUS_STOPPED \/ st = STATUS_ERROR \/ st = STATUS_END ->
    tracked s c /\
    disposed (snd (_connectionOnStatus c st s)) = disposed s ++ [c] /\
    ~ tracked (snd (_connectionOnStatus c st s)) c /\
    forall k, tracked (snd (_connectionOnStatus c st s)) k -> tracked s k).
  { intro Hst. rewrite (run_connectionOnStatus_terminal _ _ _ _ Hget Hst). simpl.
    pose proof (touched_get c info st s) as Hgt.
    destruct (removeConnection_disposed _ _ _ Hgt) as [Hd _].
    pose proof (removeConnection_connections _ _ _ Hgt) as Hc.
    split; [eapply Map_get_Some_key; eauto|]. unfold tracked, disposed in *.
    rewrite updateStatus_connections, Hc, updateStatus_picks by auto.
    split; [exact Hd|]. split.
    - apply Map_delete_gone. rewrite Hk. apply (inv_nodup _ Hb).
    - intros k H. apply Map_delete_keys_In in H. now rewrite Hk in H. }
  destruct st; auto.
  - left. rewrite (run_connectionOnStatus_running _ _ _ Hget). simpl.
    unfold disposed. rewrite updateStatus_connections, updateStatus_picks by auto.
    destruct (same_connection c (_enabledConnection s)); [|split; [reflexivity | exact Hk]].
    rewrite disableConnection_picks by auto.
    rewrite exec_disableConnection, setStatus_connections. split; [reflexivity | exact Hk].
  - left. rewrite (run_connectionOnStatus_break _ _ _ Hget). simpl.
    destruct (same_connection c (_enabledConnection s)).
    + split; [|exact Hk]. unfold disposed. simpl. rewrite pick_app. simpl. apply app_nil_r.
    + unfold disposed. rewrite updateStatus_connections, updateStatus_picks by auto.
      split; [reflexivity | exact Hk].
  - left. rewrite (run_connectionOnStatus_unlisted _ _ _ _ Hget). simpl.
    unfold disposed. rewrite updateStatus_connections, updateStatus_picks by auto.
    split; [reflexivity | exact Hk].
Qed.

Lemma dispose_disposed s :
  disposed (exec dispose s) = disposed s ++ Map_keys (_connections s).
Proof.
  unfold exec. rewrite run_dispose. simpl.
  destruct (removeEach_all (_connections s) s eq_refl) as [_ [_ [Hd _]]].
  unfold disposed in *. rewrite checkForEnd_picks, closed_picks, killed_picks; auto.
Qed.

Lemma dispose_store s : _breakpointStore (exec dispose s) = _breakpointStore s.
Proof.
  unfold exec. rewrite run_dispose. simpl.
  set (s1 := exec (removeEach (Map_keys (_connections s))) s).
  rewrite (store_of_surroundings _ _ (surroundings_checkForEnd (closed (killed s1)))).
  rewrite <- (store_of_surroundings _ _ (surroundings_removeEach (Map_keys (_connections s)) s)).
  fold s1. unfold closed, killed.
  destruct (_dummyRequestProcess s1), (_connector s1); simpl; auto;
    destruct (_connector s1); auto.
Qed.

Lemma lifecycle_connectionOnStatus c st s :
  Base s -> lifecycle s -> lifecycle (exec (_connectionOnStatus c st) s).
Proof.
  intros Hb [L1 [L2 L3]].
  pose proof (store_of_surroundings _ _ (surroundings_connectionOnStatus c st s)) as Es.
  destruct (connectionOnStatus_removal c st s Hb) as [[Hd Hk]|[Ht [Hd [Hn Hsub]]]];
    unfold lifecycle, tracked in *; rewrite Es, Hd.
  - rewrite Hk. auto.
  - split; [exact L1|]. split.
    + apply NoDup_app; [exact L2 | repeat constructor; simpl; tauto|].
      intros x Hx [E|[]]. subst x. now destruct (L3 c Hx).
    + intros x Hx. apply in_app_or in Hx as [Hx|[E|[]]].
      * destruct (L3 x Hx) as [H1 H2]. split; [exact H1|]. intro H. apply H2. now apply Hsub.
      * subst x. split; [now apply (inv_keys_store _ Hb) | exact Hn].
Qed.

Lemma lifecycle_same s s' :
  _breakpointStore s' = _breakpointStore s -> disposed s' = disposed s ->
  _connections s' = _connections s -> lifecycle s -> lifecycle s'.
Proof. unfold lifecycle, tracked. intros -> -> ->. auto. Qed.

Lemma lifecycle_deliver e s : Inv s -> lifecycle s -> lifecycle (exec (deliver e) s).
Proof.
  intros [Hb Hl] L. destruct e as [message|c settled0|d|c st| | |]; unfold deliver.
  - unfold exec. destruct (isCorrectConnection (_config s) message) eqn:H1.
    + destruct (isDummyConnection message) eqn:H2.
      * rewrite run_onAttach_dummy by assumption.
        apply (lifecycle_same s); auto.
        unfold disposed. simpl. rewrite pick_app. simpl. apply app_nil_r.
      * rewrite run_onAttach_regular by assumption. cbn [snd].
        destruct L as [L1 [L2 L3]].
        unfold lifecycle, tracked. rewrite (attached_connections s Hb).
        assert (Ed : disposed (attached s) = disposed s).
        { unfold disposed. simpl. rewrite pick_app. simpl. apply app_nil_r. }
        rewrite Ed. change (_breakpointStore (attached s))
          with (_breakpointStore s ++ [heapNext s]).
        split; [|split; [exact L2|]].
        -- apply NoDup_app; [exact L1 | repeat constructor; simpl; tauto|].
           intros x Hx [E|[]]. subst x. apply (inv_store_lt _ Hb) in Hx. lia.
        -- intros x Hx. destruct (L3 x Hx) as [H3 H4]. split; [apply in_or_app; now left|].
           unfold Map_keys. rewrite map_app. intro H. apply in_app_or in H as [H|[E|[]]].
           ++ now apply H4.
           ++ simpl in E. subst x. apply (inv_store_lt _ Hb) in H3. lia.
    + rewrite run_onAttach_discard by assumption.
      apply (lifecycle_same s); auto.
      unfold disposed. simpl. rewrite pick_app. simpl. apply app_nil_r.
  - now apply lifecycle_connectionOnStatus.
  - unfold exec, bind at 1, this at 1.
    destruct (existsb (Nat.eqb d) (awaitingDummyRun s)); [|exact L].
    apply (lifecycle_same s); auto.
    unfold disposed. simpl. rewrite pick_app. simpl. apply app_nil_r.
  - now apply lifecycle_connectionOnStatus.
  - unfold exec. rewrite run_disposeConnector. cbn [snd].
    destruct (closed_frame s) as [C1 _].
    apply (lifecycle_same s); auto.
    + rewrite (store_of_surroundings _ _ (surroundings_checkForEnd (closed s))).
      unfold closed; destruct (_connector s); reflexivity.
    + unfold disposed. rewrite checkForEnd_picks, closed_picks; auto.
    + now rewrite checkForEnd_connections.
  - apply (lifecycle_same s); auto.
    unfold disposed. simpl. rewrite pick_app. simpl. apply app_nil_r.
  - destruct L as [L1 [L2 L3]].
    destruct (dispose_state s) as [E1 _].
    unfold lifecycle, tracked. rewrite E1, dispose_store, dispose_disposed.
    split; [exact L1|]. split.
    + apply NoDup_app; [exact L2 | apply (inv_nodup _ Hb)|].
      intros x Hx Hk. now destruct (L3 x Hx).
    + intros x Hx. split; [|simpl; tauto].
      apply in_app_or in Hx as [Hx|Hx]; [now destruct (L3 x Hx) | now apply (inv_keys_store _ Hb)].
Qed.

Lemma lifecycle_run config events : lifecycle (run config events).
Proof.
  unfold run. generalize (Inv_listening config).
  assert (H0 : lifecycle (listening config)).
  { split; [apply NoDup_nil|]. split; [apply NoDup_nil|]. intros c []. }
  revert H0. generalize (listening config) as s.
  induction events as [|e events IH]; intros s H0 Hs; [exact H0|].
  simpl. apply IH; [now apply lifecycle_deliver | now apply Inv_deliver].
Qed.

(** X11. Every connection of the map was handed to the breakpoint store
    when it attached, and no connection is handed to it twice. *)
Theorem tracked_connections_are_registered_once
    (config : ConnectionConfig) (events : list Event) :
  let s := run config events in
  NoDup (_breakpointStore s) /\
  NoDup (Map_keys (_connections s)) /\
  (forall c, tracked s c -> In c (_breakpointStore s)) /\
  (forall message,
     isCorrectConnection (_config s) message = true ->
     isDummyConnection message = false ->
     _breakpointStore (exec (deliver (Attach message)) s) =
       _breakpointStore s ++ [heapNext s] /\
     tracked (exec (deliver (Attach message)) s) (heapNext s)).
Proof.
  intro s. destruct (Inv_run config events) as [Hb _]. fold s in Hb.
  destruct (lifecycle_run config events) as [L1 _]. fold s in L1.
  split; [exact L1|]. split; [apply (inv_nodup _ Hb)|].
  split; [apply (inv_keys_store _ Hb)|].
  intros message H1 H2. unfold exec, deliver. rewrite run_onAttach_regular by assumption.
  split; [reflexivity|]. unfold tracked. cbn [snd]. rewrite (attached_connections s Hb).
  unfold Map_keys. rewrite map_app. apply in_or_app. right. now left.
Qed.

(** X12. A connection is disposed at most once, and only one that was in
    the map; once disposed it is not in the map again.  The dummy connection
    is never disposed, not even by [dispose()]. *)
Theorem connections_are_disposed_once
    (config : ConnectionConfig) (events : list Event) :
  let s := run config events in
  NoDup (disposed s) /\
  (forall c, In c (disposed s) -> In c (_breakpointStore s) /\ ~ tracked s c) /\
  (forall d, is_dummy s d -> ~ In d (disposed s)).
Proof.
  intro s. destruct (Inv_run config events) as [Hb _]. fold s in Hb.
  destruct (lifecycle_run config events) as [_ [L2 L3]]. fold s in L2, L3.
  split; [exact L2|]. split; [exact L3|].
  intros d Hd H. destruct (L3 d H) as [H1 _].
  now destruct (inv_dummy _ Hb d Hd).
Qed.


(** ** The cached status of the enabled connection *)

Lemma Map_get_set_other c k v m : k <> c -> Map_get k (Map_set c v m) = Map_get k m.
Proof.
  intro Hne. induction m as [|[k' x] m IH]; simpl.
  - destruct (Nat.eqb_spec c k); [congruence | reflexivity].
  - destruct (Nat.eqb_spec k' c) as [->|Hc]; simpl.
    + destruct (Nat.eqb_spec c k); [congruence | reflexivity].
    + destruct (Nat.eqb_spec k' k); [reflexivity | exact IH].
Qed.

Lemma Map_get_delete_other c k m : k <> c -> Map_get k (Map_delete c m) = Map_get k m.
Proof.
  intro Hne. induction m as [|[k' x] m IH]; simpl; [reflexivity|].
  destruct (Nat.eqb_spec k' c) as [->|Hc]; simpl.
  - destruct (Nat.eqb_spec c k); [congruence | reflexivity].
  - destruct (Nat.eqb_spec k' k); [reflexivity | exact IH].
Qed.

Lemma Map_get_app c m l :
  Map_get c (m ++ l) = match Map_get c m with Some i => Some i | None => Map_get c l end.
Proof.
  induction m as [|[k x] m IH]; simpl; [reflexivity|].
  destruct (Nat.eqb k c); [reflexivity | exact IH].
Qed.

Lemma checkForEnd_enabled s :
  _enabledConnection (exec _checkForEnd s) = _enabledConnection s.
Proof.
  rewrite exec_checkForEnd. destruct (end_of_life s); [apply setStatus_enabled | reflexivity].
Qed.

Lemma enabled_cache_same s s' :
  _enabledConnection s' = _enabledConnection s -> _connections s' = _connections s ->
  enabled_cache s -> enabled_cache s'.
Proof. unfold enabled_cache. intros -> ->. auto. Qed.

Lemma enabled_cache_none s : _enabledConnection s = None -> enabled_cache s.
Proof. intros E c info H. congruence. Qed.

Lemma enableFirstBreak_result (m : ConnectionMap) s :
  (exec (enableFirstBreak (Map_values m)) s = s /\
   forall e, In e m -> status (snd e) <> STATUS_BREAK) \/
  (exists before k i after,
     m = before ++ (k, i) :: after /\
     (forall e, In e before -> status (snd e) <> STATUS_BREAK) /\
     status i = STATUS_BREAK /\
     exec (enableFirstBreak (Map_values m)) s = exec (_enableConnection (connection i)) s).
Proof.
  induction m as [|[k i] m IH]; simpl; [left; split; [reflexivity | tauto]|].
  destruct (Status_eqb (status i) STATUS_BREAK) eqn:E.
  - right. apply Status_eqb_eq in E. exists [], k, i, m. repeat split; auto.
  - apply Status_eqb_neq in E. destruct IH as [[H1 H2]|[before [k' [i' [after [Em [Hb [Hi Hx]]]]]]]].
    + left. split; [exact H1|]. intros e [<-|He]; [exact E | now apply H2].
    + right. exists ((k, i) :: before), k', i', after. repeat split; auto.
      * simpl. now rewrite Em.
      * intros e [<-|He]; [exact E | now apply Hb].
Qed.

Lemma enabled_cache_updateStatus s :
  Base s -> enabled_cache s -> enabled_cache (exec _updateStatus s).
Proof.
  intros Hb H. rewrite exec_updateStatus.
  destruct (Status_eqb (_status s) STATUS_END); [exact H|].
  destruct (Status_eqb (_status s) STATUS_BREAK); [exact H|].
  destruct (enableFirstBreak_result (_connections s) s)
    as [[Hs _]|[before [k [i [after [Em [_ [Hi Hx]]]]]]]]; [now rewrite Hs|].
  rewrite Hx, exec_enableConnection. intros c info He Hget.
  rewrite setStatus_enabled in He. rewrite setStatus_connections in Hget.
  simpl in He, Hget. injection He as <-.
  assert (Hin : In (k, i) (_connections s))
    by (rewrite Em; apply in_or_app; right; now left).
  rewrite (inv_info _ Hb _ _ Hin) in Hget. apply Map_get_Some_In in Hget.
  rewrite (NoDup_keys_functional _ _ _ _ (inv_nodup _ Hb) Hget Hin).
  now left.
Qed.

Lemma enabled_cache_touched c info st s :
  Map_get c (_connections s) = Some info ->
  (_enabledConnection s = Some c -> paused_or_continued st) ->
  enabled_cache s -> enabled_cache (touched c info st s).
Proof.
  intros Hget Hst H e i He Hi. unfold touched in *. simpl in He, Hi.
  destruct (Nat.eq_dec e c) as [->|Hne].
  - rewrite Map_get_set_same in Hi. injection Hi as <-. simpl. auto.
  - rewrite Map_get_set_other in Hi by assumption. now apply (H e).
Qed.

Lemma enabled_cache_connectionOnStatus c st s :
  Inv s -> enabled_cache s -> enabled_cache (exec (_connectionOnStatus c st) s).
Proof.
  intros Hs H. unfold exec.
  destruct (Map_get c (_connections s)) as [info|] eqn:Hget.
  2:{ now rewrite run_connectionOnStatus_untracked. }
  pose proof (Inv_touched c info st s Hget Hs) as [Hbt Hlt].
  assert (Hcont : st = STATUS_STARTING \/ st = STATUS_STOPPING ->
                  enabled_cache (snd (_connectionOnStatus c st s))).
  { intro Hst. rewrite (run_connectionOnStatus_continue _ _ _ _ Hget Hst).
    apply (enabled_cache_same (touched c info st s)); try reflexivity.
    apply enabled_cache_touched; auto. intros _. unfold paused_or_continued. tauto. }
  assert (Hterm : st = STATUS_STOPPED \/ st = STATUS_ERROR \/ st = STATUS_END ->
                  enabled_cache (snd (_connectionOnStatus c st s))).
  { intro Hst. rewrite (run_connectionOnStatus_terminal _ _ _ _ Hget Hst). cbn [snd].
    apply enabled_cache_updateStatus; [now apply Base_removeConnection|].
    pose proof (touched_get c info st s) as Hgt.
    rewrite (exec_removeConnection _ _ _ Hgt).
    change (_enabledConnection (touched c info st s)) with (_enabledConnection s).
    destruct (same_connection c (_enabledConnection s)) eqn:E.
    - apply enabled_cache_none.
      now rewrite checkForEnd_enabled, exec_disableConnection, setStatus_enabled.
    - apply same_connection_false in E. intros e i He Hi.
      rewrite checkForEnd_enabled in He. rewrite checkForEnd_connections in Hi.
      simpl in He, Hi. assert (Hne : e <> c) by congruence.
      rewrite Map_get_delete_other, Map_get_set_other in Hi by assumption.
      now apply (H e). }
  destruct st; auto.
  - rewrite (run_connectionOnStatus_running _ _ _ Hget). cbn [snd].
    destruct (same_connection c (_enabledConnection s)) eqn:E.
    + apply enabled_cache_updateStatus; [now apply Base_disableConnection|].
      apply enabled_cache_none. now rewrite exec_disableConnection, setStatus_enabled.
    + apply same_connection_false in E.
      apply enabled_cache_updateStatus; [exact Hbt|].
      apply enabled_cache_touched; auto. intro. contradiction.
  - rewrite (run_connectionOnStatus_break _ _ _ Hget). cbn [snd].
    destruct (same_connection c (_enabledConnection s)) eqn:E.
    + apply (enabled_cache_same (touched c info STATUS_BREAK s)); try reflexivity.
      apply enabled_cache_touched; auto. intros _. now left.
    + apply same_connection_false in E.
      apply enabled_cache_updateStatus; [exact Hbt|].
      apply enabled_cache_touched; auto. intro. contradiction.
  - rewrite (run_connectionOnStatus_unlisted _ _ _ _ Hget). cbn [snd].
    apply enabled_cache_updateStatus; [exact Hbt|].
    apply enabled_cache_touched; auto. intros _. unfold paused_or_continued. eauto.
Qed.

Lemma enabled_cache_deliver e s :
  Inv s -> enabled_cache s -> enabled_cache (exec (deliver e) s).
Proof.
  intros Hs H. destruct e as [message|c settled0|d|c st| | |]; unfold deliver.
  - unfold exec. destruct (isCorrectConnection (_config s) message) eqn:H1.
    + destruct (isDummyConnection message) eqn:H2.
      * rewrite run_onAttach_dummy by assumption. exact H.
      * rewrite run_onAttach_regular by assumption. cbn [snd].
        intros c info He Hi. rewrite (attached_connections s (proj1 Hs)) in Hi.
        change (_enabledConnection (attached s)) with (_enabledConnection s) in He.
        destruct (inv_enabled _ (proj2 Hs) c He) as [Ht _].
        destruct (In_keys_get _ _ Ht) as [i Hg].
        rewrite Map_get_app, Hg in Hi. injection Hi as <-. now apply (H c).
    + rewrite run_onAttach_discard by assumption. exact H.
  - now apply enabled_cache_connectionOnStatus.
  - unfold exec, bind at 1, this at 1.
    destruct (existsb (Nat.eqb d) (awaitingDummyRun s)); exact H.
  - now apply enabled_cache_connectionOnStatus.
  - unfold exec. rewrite run_disposeConnector. cbn [snd].
    destruct (closed_frame s) as [C1 [_ [_ [C4 _]]]].
    apply (enabled_cache_same s); [| |exact H].
    + now rewrite checkForEnd_enabled.
    + now rewrite checkForEnd_connections.
  - exact H.
  - intros c info _ Hi. destruct (dispose_state s) as [E _].
    rewrite E in Hi. discriminate.
Qed.

Lemma enabled_cache_run config events : enabled_cache (run config events).
Proof.
  unfold run. generalize (Inv_listening config).
  assert (H0 : enabled_cache (listening config)) by (intros c info E; discriminate E).
  revert H0. generalize (listening config) as s.
  induction events as [|e events IH]; intros s H0 Hs; [exact H0|].
  simpl. apply IH; [now apply enabled_cache_deliver | now apply Inv_deliver].
Qed.

(** X13. The enabled connection is in the map with BREAK as its cached
    status, unless it has reported since a status on which it is not
    disabled: STARTING or STOPPING, on which the multiplexer sends it the run
    command and does nothing else, or a status that is none of the seven
    constants, which matches no case of the [switch] and leaves the
    re-evaluation nothing to do, the status being BREAK.  After such a report
    the connection is still enabled, the status is still BREAK, nothing was
    emitted, and the report is its cached status.  So the cached status of
    the enabled connection is never RUNNING and never a terminal one, and it
    need not be BREAK. *)
Theorem enabled_connection_cache
    (config : ConnectionConfig) (events : list Event) (c : Connection) :
  let s := run config events in
  _enabledConnection s = Some c ->
  (exists info,
     Map_get c (_connections s) = Some info /\
     (status info = STATUS_BREAK \/ status info = STATUS_STARTING \/
      status info = STATUS_STOPPING \/
      exists name, status info = STATUS_UNLISTED name)) /\
  (forall st, st = STATUS_STARTING \/ st = STATUS_STOPPING ->
     let s' := exec (deliver (ConnectionStatus c st)) s in
     _enabledConnection s' = Some c /\
     _status s' = STATUS_BREAK /\
     emitted s' = emitted s /\
     effects s' = effects s ++ [SendContinuationCommand c COMMAND_RUN] /\
     exists info', Map_get c (_connections s') = Some info' /\ status info' = st) /\
  (forall name,
     let s' := exec (deliver (ConnectionStatus c (STATUS_UNLISTED name))) s in
     _enabledConnection s' = Some c /\
     _status s' = STATUS_BREAK /\
     effects s' = effects s /\
     exists info', Map_get c (_connections s') = Some info' /\
                   status info' = STATUS_UNLISTED name).
Proof.
  intros s He. destruct (Inv_run config events) as [Hb Hl]. fold s in Hb, Hl.
  destruct (inv_enabled _ Hl c He) as [Ht Hst].
  destruct (In_keys_get _ _ Ht) as [info Hget]. split; [|split].
  - exists info. split; [exact Hget|]. apply (enabled_cache_run config events c info He Hget).
  - intros st Hcase s'. unfold s', exec, deliver.
    rewrite (run_connectionOnStatus_continue _ _ _ _ Hget Hcase). cbn [snd].
    repeat split; try assumption.
    + unfold emitted. simpl. rewrite emitted_of_app. simpl. apply app_nil_r.
    + eexists. split; [apply (touched_get c info st s) | reflexivity].
  - intros name s'. unfold s', exec, deliver.
    rewrite (run_connectionOnStatus_unlisted _ _ _ _ Hget). cbn [snd].
    rewrite exec_updateStatus.
    change (_status (touched c info (STATUS_UNLISTED name) s)) with (_status s).
    rewrite Hst. cbn [Status_eqb].
    repeat split; try assumption.
    eexists. split; [apply (touched_get c info (STATUS_UNLISTED name) s) | reflexivity].
Qed.



(** ** The order of the emitted statuses *)

Lemma last_or_cons from x l : last_or from (x :: l) = last_or x l.
Proof.
  unfold last_or. destruct l as [|y l]; [reflexivity|].
  rewrite last_status_cons. destruct (last_status (y :: l)) eqn:E; [reflexivity|].
  exfalso. clear -E. revert y E. induction l as [|z l IH]; intros y E; [discriminate|].
  rewrite last_status_cons in E. eauto.
Qed.

Lemma path_snoc from l x :
  path from l -> may_follow (last_or from l) x -> path from (l ++ [x]).
Proof.
  revert from. induction l as [|a l IH]; intros from; simpl.
  - intros _ H. auto.
  - intros [H1 H2] H. split; [exact H1|]. apply IH; [exact H2|].
    now rewrite last_or_cons in H.
Qed.

Lemma path_app from l more :
  path from (l ++ more) -> path (last_or from l) more.
Proof.
  revert from. induction l as [|a l IH]; intros from; simpl; [auto|].
  intros [_ H]. rewrite last_or_cons. now apply IH.
Qed.

Lemma path_nth from l :
  path from l ->
  forall n a b, nth_error l n = Some a -> nth_error l (S n) = Some b -> may_follow a b.
Proof.
  revert from. induction l as [|x l IH]; intros from H n a b Ha Hb.
  - destruct n; discriminate.
  - destruct H as [_ H]. destruct n as [|n].
    + simpl in Ha. injection Ha as ->. destruct l as [|y l]; [discriminate|].
      simpl in Hb. injection Hb as ->. now destruct H.
    + eapply IH; eauto.
Qed.

Lemma last_or_status s : Base s -> last_or STATUS_RUNNING (emitted s) = _status s.
Proof.
  intro Hb. unfold last_or. destruct (last_status (emitted s)) eqn:E.
  - now apply (inv_last _ Hb).
  - symmetry. apply (inv_first _ Hb). destruct (emitted s) as [|x l]; [reflexivity|].
    exfalso. clear -E. revert x E. induction l as [|z l IH]; intros x E; [discriminate|].
    rewrite last_status_cons in E. eauto.
Qed.

Lemma ordered_setStatus st s :
  Base s -> ordered s -> (st <> _status s -> may_follow (_status s) st) ->
  ordered (exec (_setStatus st) s).
Proof.
  intros Hb H Hf. unfold ordered. rewrite emitted_setStatus.
  destruct (Status_eqb st (_status s)) eqn:E; [exact H|].
  apply Status_eqb_neq in E. apply path_snoc; [exact H|].
  rewrite (last_or_status s Hb). now apply Hf.
Qed.

Lemma ordered_same s s' : emitted s' = emitted s -> ordered s -> ordered s'.
Proof. unfold ordered. now intros ->. Qed.

Lemma status_running_or s :
  Base s -> _status s <> STATUS_BREAK -> _status s <> STATUS_END ->
  _status s = STATUS_RUNNING.
Proof. intros Hb H1 H2. destruct (inv_status _ Hb) as [E|[E|E]]; congruence. Qed.

Lemma sound_disableConnection s :
  Base s -> ordered s -> _status s = STATUS_BREAK -> sound (exec _disableConnection s).
Proof.
  intros Hb H Hst. split; [now apply Inv_disableConnection|].
  rewrite exec_disableConnection.
  apply ordered_setStatus; [exact (Base_set_enabled None s Hb) | exact H|].
  intros _. left. simpl. auto.
Qed.

Lemma sound_checkForEnd : preserves sound _checkForEnd.
Proof.
  intros s [Hs H]. split; [now apply Inv_checkForEnd|].
  rewrite exec_checkForEnd. destruct (end_of_life s) eqn:E; [|exact H].
  apply ordered_setStatus; [apply Hs | exact H|]. intro Hne.
  right. split; [|now right].
  apply status_running_or; [apply Hs | | congruence].
  intro Hbr. destruct Hs as [_ Hl].
  destruct (Link_cases _ Hl) as [[_ Hn]|[c [_ [Ht _]]]]; [contradiction|].
  apply end_of_life_empty in E. unfold tracked in Ht. rewrite E in Ht. destruct Ht.
Qed.

Lemma sound_enableFirstBreak infos s :
  (forall i, In i infos -> tracked s (connection i)) ->
  _status s = STATUS_RUNNING ->
  sound s -> sound (exec (enableFirstBreak infos) s).
Proof.
  intros Hin Hst [Hs H]. split; [now apply Inv_enableFirstBreak|].
  clear Hin. induction infos as [|i infos IH]; simpl; [exact H|].
  destruct (Status_eqb (status i) STATUS_BREAK); [|exact IH].
  rewrite exec_enableConnection.
  apply ordered_setStatus;
    [exact (Base_set_enabled (Some (connection i)) s (proj1 Hs)) | exact H|].
  intros _. right. simpl. split; [exact Hst | now left].
Qed.

Lemma sound_updateStatus : preserves sound _updateStatus.
Proof.
  intros s Hs. rewrite exec_updateStatus.
  destruct (Status_eqb (_status s) STATUS_END) eqn:E1; [exact Hs|].
  destruct (Status_eqb (_status s) STATUS_BREAK) eqn:E2; [exact Hs|].
  apply Status_eqb_neq in E1, E2.
  apply sound_enableFirstBreak; [|apply status_running_or; auto; apply Hs | exact Hs].
  intros i Hi. apply values_tracked; [apply Hs | exact Hi].
Qed.

Lemma Inv_removed c info s :
  Inv s -> Map_get c (_connections s) = Some info ->
  _enabledConnection s <> Some c -> Inv (removed c info s).
Proof.
  intros [Hb Hl] Hget Hne. split.
  - apply (Base_delete c
             (set_effects ((effects s ++ [DisposeSubscription (onStatusDisposable info)])
                             ++ [DisposeConnection c]) s)).
    eapply Base_same; try eassumption; try reflexivity.
    unfold emitted; simpl. rewrite !emitted_of_app. simpl. now rewrite !app_nil_r.
  - destruct (Link_cases _ Hl) as [[He Hst]|[c' [He [Ht Hst]]]].
    + now apply Link_none.
    + apply (Link_some _ c'); try assumption.
      unfold tracked, removed; simpl. apply Map_delete_keys_other; [congruence | exact Ht].
Qed.

Lemma Base_removed c info s : Base s -> Base (removed c info s).
Proof.
  intro Hb.
  apply (Base_delete c
           (set_effects ((effects s ++ [DisposeSubscription (onStatusDisposable info)])
                           ++ [DisposeConnection c]) s)).
  eapply Base_same; try eassumption; try reflexivity.
  unfold emitted; simpl. rewrite !emitted_of_app. simpl. now rewrite !app_nil_r.
Qed.

Lemma sound_removeConnection c : preserves sound (_removeConnection c).
Proof.
  intros s [Hs H]. destruct (Map_get c (_connections s)) as [info|] eqn:Hget.
  2:{ unfold exec. rewrite run_removeConnection_untracked by assumption. now split. }
  rewrite (exec_removeConnection _ _ _ Hget). apply sound_checkForEnd.
  assert (Ho : ordered (removed c info s))
    by (apply (ordered_same s); [apply emitted_removed | exact H]).
  destruct (same_connection c (_enabledConnection s)) eqn:E.
  - apply same_connection_true in E.
    apply sound_disableConnection; [apply Base_removed, Hs | exact Ho|].
    now destruct (inv_enabled _ (proj2 Hs) c E).
  - apply same_connection_false in E. split; [now apply Inv_removed | exact Ho].
Qed.

Lemma sound_touched c info st s :
  Map_get c (_connections s) = Some info -> sound s -> sound (touched c info st s).
Proof. intros Hget [Hs H]. split; [now apply Inv_touched | exact H]. Qed.

Lemma sound_silent s s' : Inv s' -> emitted s' = emitted s -> sound s -> sound s'.
Proof. intros Hi E [_ H]. split; [exact Hi | now apply (ordered_same s)]. Qed.

Lemma sound_perform e : (forall st, e <> EmitStatus st) -> preserves sound (perform e).
Proof.
  intros He s Hs. apply (sound_silent s); [apply Inv_perform; [exact He | apply Hs]| |exact Hs].
  now apply emitted_perform_silent.
Qed.

Lemma sound_connectionOnStatus c st : preserves sound (_connectionOnStatus c st).
Proof.
  intros s Hs. unfold exec.
  destruct (Map_get c (_connections s)) as [info|] eqn:Hget.
  2:{ now rewrite run_connectionOnStatus_untracked. }
  pose proof (sound_touched c info st s Hget Hs) as Ht.
  assert (Hcont : st = STATUS_STARTING \/ st = STATUS_STOPPING ->
                  sound (snd (_connectionOnStatus c st s))).
  { intro Hst. rewrite (run_connectionOnStatus_continue _ _ _ _ Hget Hst).
    change (sound (exec (perform (SendContinuationCommand c COMMAND_RUN))
                        (touched c info st s))).
    apply sound_perform; [discriminate | exact Ht]. }
  assert (Hterm : st = STATUS_STOPPED \/ st = STATUS_ERROR \/ st = STATUS_END ->
                  sound (snd (_connectionOnStatus c st s))).
  { intro Hst. rewrite (run_connectionOnStatus_terminal _ _ _ _ Hget Hst).
    apply sound_updateStatus. now apply sound_removeConnection. }
  destruct st; auto.
  - rewrite (run_connectionOnStatus_running _ _ _ Hget). apply sound_updateStatus.
    destruct (same_connection c (_enabledConnection s)) eqn:E; [|exact Ht].
    apply same_connection_true in E.
    apply sound_disableConnection; [apply Ht | apply Ht|].
    now destruct (inv_enabled _ (proj2 (proj1 Hs)) c E).
  - rewrite (run_connectionOnStatus_break _ _ _ Hget). cbn [snd].
    destruct (same_connection c (_enabledConnection s)) eqn:E;
      [|now apply sound_updateStatus].
    apply same_connection_true in E.
    destruct (inv_enabled _ (proj2 (proj1 Hs)) c E) as [_ Hst].
    destruct Ht as [[Hbt Hlt] Ho]. split; [split|].
    + now apply (Base_emit_break (touched c info STATUS_BREAK s)).
    + eapply Link_same; try eassumption; reflexivity.
    + unfold ordered. change (emitted _) with
        (emitted (set_effects (effects (touched c info STATUS_BREAK s)
                               ++ [EmitStatus STATUS_BREAK])
                              (touched c info STATUS_BREAK s))).
      rewrite emitted_emit. apply path_snoc; [exact Ho|].
      rewrite (last_or_status _ Hbt). left. split; [exact Hst | now left].
  - rewrite (run_connectionOnStatus_unlisted _ _ _ _ Hget). now apply sound_updateStatus.
Qed.

Lemma sound_disposeConnector : preserves sound _disposeConnector.
Proof.
  apply preserves_bind; [apply preserves_this|]. intros s0.
  apply preserves_bind; [|intros _; apply sound_checkForEnd].
  destruct (_connector s0); [|apply preserves_ret].
  apply preserves_bind; [|intros _; now apply sound_perform].
  apply preserves_assign. intros s Hs. apply (sound_silent s); [|reflexivity|exact Hs].
  apply (Inv_same s); try reflexivity. apply Hs.
Qed.

Lemma sound_dispose : preserves sound dispose.
Proof.
  apply preserves_bind; [apply preserves_this|]. intros s0.
  apply preserves_bind.
  { induction (Map_keys (_connections s0)) as [|c keys IH]; simpl; [apply preserves_ret|].
    apply preserves_bind; [apply sound_removeConnection | intros _; exact IH]. }
  intros _. apply preserves_bind; [apply preserves_this|]. intros s1.
  apply preserves_bind; [|intros _; apply sound_disposeConnector].
  destruct (_dummyRequestProcess s1); [now apply sound_perform | apply preserves_ret].
Qed.

Lemma sound_deliver e : preserves sound (deliver e).
Proof.
  destruct e as [message|c settled0|d|c st| | |]; unfold deliver.
  - intros s Hs. destruct (onAttach_frame message s) as [_ [_ E]].
    apply (sound_silent s); [apply Inv_onAttach, Hs | exact E | exact Hs].
  - apply sound_connectionOnStatus.
  - intros s Hs. apply (sound_silent s); [apply (Inv_dummy_resolved d), Hs| |exact Hs].
    unfold exec, deliver, bind at 1, this at 1.
    destruct (existsb (Nat.eqb d) (awaitingDummyRun s)); [|reflexivity].
    unfold emitted. simpl. rewrite emitted_of_app. simpl. apply app_nil_r.
  - apply sound_connectionOnStatus.
  - apply sound_disposeConnector.
  - now apply sound_perform.
  - apply sound_dispose.
Qed.

Lemma sound_run config events : sound (run config events).
Proof.
  unfold run.
  assert (H0 : sound (listening config)) by (split; [apply Inv_listening | exact I]).
  revert H0. generalize (listening config) as s.
  induction events as [|e events IH]; intros s H0; [exact H0|].
  simpl. apply IH. now apply sound_deliver.
Qed.

(** X14. The statuses reach the subscribers in the order of a small
    automaton that starts in RUNNING (the status [listen()] sets without
    emitting): after BREAK comes BREAK or RUNNING, after RUNNING comes BREAK
    or END, after END comes nothing.  So the first status emitted is BREAK
    or END, END is emitted at most once and last, and between a BREAK and
    END there is always a RUNNING. *)
Theorem emitted_statuses_follow_the_automaton
    (config : ConnectionConfig) (events : list Event) :
  let l := emitted (run config events) in
  path STATUS_RUNNING l /\
  (forall first rest, l = first :: rest -> first = STATUS_BREAK \/ first = STATUS_END) /\
  (forall n a b,
     nth_error l n = Some a -> nth_error l (S n) = Some b ->
     (a = STATUS_BREAK /\ (b = STATUS_BREAK \/ b = STATUS_RUNNING)) \/
     (a = STATUS_RUNNING /\ (b = STATUS_BREAK \/ b = STATUS_END))) /\
  (forall n, nth_error l n = Some STATUS_END -> nth_error l (S n) = None).
Proof.
  intro l. destruct (sound_run config events) as [_ H]. unfold ordered in H. fold l in H.
  split; [exact H|]. split; [|split].
  - intros first rest E. rewrite E in H. destruct H as [[[H _]|[_ H]] _];
      [discriminate H | exact H].
  - intros n a b Ha Hb. exact (path_nth _ _ H n a b Ha Hb).
  - intros n Hn. destruct (nth_error l (S n)) as [b|] eqn:E; [|reflexivity].
    destruct (path_nth _ _ H n _ b Hn E) as [[H1 _]|[H1 _]]; discriminate H1.
Qed.


(** ** What [dispose()] emits *)

Lemma grown_more l only s s' more :
  effects s' = effects s ++ more -> Forall only more ->
  grown l only s -> grown l only s'.
Proof.
  intros E H [m [Em Hm]]. exists (m ++ more). rewrite E, Em, app_assoc.
  split; [reflexivity | now apply Forall_app].
Qed.

Lemma quiet_setStatus l st s :
  st <> STATUS_BREAK -> grown l not_break s -> grown l not_break (exec (_setStatus st) s).
Proof.
  intros Hst H. rewrite exec_setStatus. destruct (Status_eqb st (_status s)); [exact H|].
  apply (grown_more l not_break s _ [EmitStatus st]); [reflexivity | | exact H].
  repeat constructor. unfold not_break. congruence.
Qed.

Lemma quiet_checkForEnd l s :
  grown l not_break s -> grown l not_break (exec _checkForEnd s).
Proof.
  intro H. rewrite exec_checkForEnd.
  destruct (end_of_life s); [apply quiet_setStatus; [discriminate | exact H] | exact H].
Qed.

Lemma quiet_removeConnection l c s :
  grown l not_break s -> grown l not_break (exec (_removeConnection c) s).
Proof.
  intro H. destruct (Map_get c (_connections s)) as [info|] eqn:Hget.
  2:{ unfold exec. now rewrite run_removeConnection_untracked. }
  rewrite (exec_removeConnection _ _ _ Hget). apply quiet_checkForEnd.
  assert (Hr : grown l not_break (removed c info s)).
  { apply (grown_more l not_break s _
             [DisposeSubscription (onStatusDisposable info); DisposeConnection c]);
      [unfold removed; simpl; now rewrite <- app_assoc | | exact H].
    repeat constructor; discriminate. }
  destruct (same_connection c (_enabledConnection s)); [|exact Hr].
  rewrite exec_disableConnection. apply quiet_setStatus; [discriminate|].
  destruct Hr as [m [Em Hm]]. now exists m.
Qed.

Lemma quiet_removeEach l keys : forall s,
  grown l not_break s -> grown l not_break (exec (removeEach keys) s).
Proof.
  induction keys as [|c keys IH]; intros s H; simpl; [exact H|].
  rewrite exec_bind. destruct (completion (_removeConnection c) s).
  - apply IH. now apply quiet_removeConnection.
  - now apply quiet_removeConnection.
Qed.

Lemma quiet_dispose s : grown (effects s) not_break (exec dispose s).
Proof.
  unfold exec at 1. rewrite run_dispose. cbn [snd]. apply quiet_checkForEnd.
  set (s1 := exec (removeEach (Map_keys (_connections s))) s).
  assert (H1 : grown (effects s) not_break s1).
  { apply quiet_removeEach. exists []. rewrite app_nil_r. split; [reflexivity | constructor]. }
  assert (H2 : grown (effects s) not_break (killed s1)).
  { unfold killed. destruct (_dummyRequestProcess s1); [|exact H1].
    apply (grown_more _ not_break s1 _ [KillDummyRequestProcess c]); [reflexivity | | exact H1].
    repeat constructor; discriminate. }
  unfold closed. destruct (_connector (killed s1)); [|exact H2].
  apply (grown_more _ not_break (killed s1) _ [ConnectorDispose]); [reflexivity | | exact H2].
  repeat constructor; discriminate.
Qed.

Lemma emitted_of_not_break more :
  Forall not_break more -> Forall (fun st => st <> STATUS_BREAK) (emitted_of more).
Proof.
  induction 1 as [|e more He Hm IH]; simpl; [constructor|].
  destruct e; try exact IH. constructor; [|exact IH].
  intros ->. now apply He.
Qed.

Lemma last_or_app from l more :
  last_or from (l ++ more) = last_or (last_or from l) more.
Proof.
  revert from. induction l as [|a l IH]; intro from; [reflexivity|].
  simpl. now rewrite !last_or_cons.
Qed.

(** The ways from a status to END that do not go through BREAK. *)
Lemma path_to_end from more :
  path from more -> Forall (fun st => st <> STATUS_BREAK) more ->
  last_or from more = STATUS_END ->
  (from = STATUS_BREAK /\ more = [STATUS_RUNNING; STATUS_END]) \/
  (from = STATUS_RUNNING /\ more = [STATUS_END]) \/
  (from = STATUS_END /\ more = []).
Proof.
  intros Hp Hn Hl. destruct more as [|x more].
  - right. right. split; [exact Hl | reflexivity].
  - destruct Hp as [Hx Hp]. inversion Hn as [|? ? Hxb Hn']; subst.
    rewrite last_or_cons in Hl.
    destruct Hx as [[-> [-> | ->]] | [-> [-> | ->]]]; try contradiction.
    + left. split; [reflexivity|]. destruct more as [|y more]; [discriminate Hl|].
      destruct Hp as [Hy Hp]. inversion Hn' as [|? ? Hyb Hn'']; subst.
      destruct Hy as [[H _] | [_ [-> | ->]]]; try discriminate H; try contradiction.
      destruct more as [|z more]; [reflexivity|].
      destruct Hp as [[[H _]|[H _]] _]; discriminate H.
    + right. left. split; [reflexivity|].
      destruct more as [|z more]; [reflexivity|].
      destruct Hp as [[[H _]|[H _]] _]; discriminate H.
Qed.

(** X15. What [dispose()] makes the subscribers see: RUNNING and then
    END when a connection was enabled (the status was BREAK), END alone when
    none was and the session had not ended, and nothing when it had. *)
Theorem dispose_emits_running_then_end
    (config : ConnectionConfig) (events : list Event) :
  let s := run config events in
  let s' := exec (deliver Dispose) s in
  (_status s = STATUS_BREAK -> emitted s' = emitted s ++ [STATUS_RUNNING; STATUS_END]) /\
  (_status s = STATUS_RUNNING -> emitted s' = emitted s ++ [STATUS_END]) /\
  (_status s = STATUS_END -> emitted s' = emitted s) /\
  (_status s = STATUS_BREAK <-> _enabledConnection s <> None).
Proof.
  intros s s'. pose proof (sound_run config events) as Hs. fold s in Hs.
  pose proof (sound_dispose s Hs) as [[Hb' _] Ho']. fold (deliver Dispose) in Hb', Ho'.
  fold s' in Hb', Ho'.
  destruct (quiet_dispose s) as [more [Em Hm]].
  change (exec dispose s) with s' in Em.
  assert (Ee : emitted s' = emitted s ++ emitted_of more).
  { unfold emitted. now rewrite Em, emitted_of_app. }
  destruct (dispose_state s) as [_ [_ Hend]]. change (exec dispose s) with s' in Hend.
  unfold ordered in Ho'. rewrite Ee in Ho'. apply path_app in Ho'.
  pose proof (last_or_status s' Hb') as Hlast.
  rewrite Ee, last_or_app, Hend in Hlast.
  destruct Hs as [[Hb Hl] _]. rewrite (last_or_status s Hb) in Ho', Hlast.
  destruct (path_to_end _ _ Ho' (emitted_of_not_break _ Hm) Hlast)
    as [[H1 H2]|[[H1 H2]|[H1 H2]]]; rewrite Ee, H2, H1;
    (split; [|split; [|split]]); try discriminate; try reflexivity;
    try (intros _; apply app_nil_r).
  - split; [intros _|reflexivity].
    destruct (Link_cases _ Hl) as [[_ Hn]|[c [He _]]]; [contradiction | congruence].
  - split; [discriminate|]. intro Hne.
    destruct (Link_cases _ Hl) as [[He _]|[c [_ [_ Hbr]]]]; congruence.
  - split; [discriminate|]. intro Hne.
    destruct (Link_cases _ Hl) as [[He _]|[c [_ [_ Hbr]]]]; congruence.
Qed.


(** ** Callbacks that come late *)

Lemma untracked_get c s : ~ tracked s c -> Map_get c (_connections s) = None.
Proof.
  intro H. destruct (Map_get c (_connections s)) as [i|] eqn:E; [|reflexivity].
  apply Map_get_Some_key in E. contradiction.
Qed.

(** X16. A callback for a connection that was disposed (after a terminal
    status, or by [dispose()]) finds no entry for it in the map: the status
    callback, and the attach handler resumed when its first status query
    settles, throw a TypeError and leave the multiplexer unchanged. *)
Theorem callbacks_of_a_disposed_connection_throw
    (config : ConnectionConfig) (events : list Event) (c : Connection) :
  let s := run config events in
  In c (disposed s) ->
  (forall st, deliver (ConnectionStatus c st) s = (Throw TypeError, s)) /\
  (forall settled, deliver (StatusQuerySettled c settled) s = (Throw TypeError, s)).
Proof.
  intros s Hc. destruct (lifecycle_run config events) as [_ [_ L3]]. fold s in L3.
  destruct (L3 c Hc) as [_ Hn]. apply untracked_get in Hn.
  split; intros; unfold deliver, _onAttach_resume;
    now apply run_connectionOnStatus_untracked.
Qed.

(** ** The dummy connection stays *)

Lemma dummy_step_closed : step_closed (fun s => _dummyConnection s <> None).
Proof.
  constructor; intros; try assumption.
  - rewrite exec_disableConnection, exec_setStatus. now destruct (Status_eqb _ _).
  - rewrite exec_enableConnection, exec_setStatus. now destruct (Status_eqb _ _).
  - rewrite exec_setStatus. now destruct (Status_eqb _ _).
  - discriminate.
Qed.

Lemma dummy_deliver e : preserves (fun s => _dummyConnection s <> None) (deliver e).
Proof.
  destruct e as [message| | | | | |];
    try (apply sc_deliver; [apply dummy_step_closed | discriminate]).
  intros s H. unfold deliver, exec.
  destruct (isCorrectConnection (_config s) message) eqn:H1.
  - destruct (isDummyConnection message) eqn:H2.
    + now rewrite run_onAttach_dummy.
    + now rewrite run_onAttach_regular.
  - now rewrite run_onAttach_discard.
Qed.

(** X17. Once the dummy connection is there it is there for good: no
    callback clears the slot, [dispose()] and the end of the session
    included.  So from then on [runtimeEvaluate] is always passed to a dummy
    connection, on its top frame, and never fails with [No connection]; and
    so is [getProperties] whenever no connection is enabled. *)
Theorem dummy_connection_stays
    (config : ConnectionConfig) (events later : list Event) (d : Connection) :
  let s := run config events in
  _dummyConnection s = Some d ->
  let s' := run_from s later in
  exists d',
    _dummyConnection s' = Some d' /\
    (forall expression,
       runtimeEvaluate expression s' =
       (Normal (OfConnection d' (evaluateOnCallFrame_call 0 expression)), s')) /\
    (forall remoteId,
       _enabledConnection s' = None ->
       getProperties remoteId s' =
       (Normal (OfConnection d' (getProperties_call remoteId)), s')).
Proof.
  intros s Hd s'.
  assert (H : _dummyConnection s' <> None).
  { unfold s'. assert (H0 : _dummyConnection s <> None) by congruence.
    revert H0. generalize s as s0. induction later as [|e later IH]; intros s0 H0; [exact H0|].
    simpl. apply IH. now apply (dummy_deliver e). }
  destruct (_dummyConnection s') as [d'|] eqn:E; [|contradiction].
  exists d'. split; [reflexivity|]. split.
  - intro expression. unfold runtimeEvaluate, bind, this. now rewrite E.
  - intros remoteId He. unfold getProperties, bind, this. now rewrite He, E.
Qed.

(** ** When the session can end *)

Lemma ends_step_closed : step_closed ends_with_connector.
Proof.
  constructor; unfold ends_with_connector; intros; try (now auto).
  - rewrite exec_disableConnection, setStatus_status in *. discriminate.
  - rewrite exec_enableConnection, setStatus_status in *. discriminate.
  - pose proof (surroundings_setStatus STATUS_END s) as E. unfold surroundings in E.
    injection E as Ec Ek _ _ _ _ _. rewrite Ek. rewrite Ec in H1.
    apply end_of_life_spec in H as [_ [H|H]]; [exact H | congruence].
Qed.

Lemma ends_deliver e : preserves ends_with_connector (deliver e).
Proof.
  destruct e as [message| | | | | |];
    try (apply sc_deliver; [apply ends_step_closed | discriminate]).
  intros s H. unfold deliver, exec, ends_with_connector in *.
  destruct (isCorrectConnection (_config s) message) eqn:H1.
  - destruct (isDummyConnection message) eqn:H2.
    + now rewrite run_onAttach_dummy.
    + now rewrite run_onAttach_regular.
  - now rewrite run_onAttach_discard.
Qed.

Lemma config_step_closed config : step_closed (fun s => _config s = config).
Proof.
  constructor; intros; try assumption.
  - rewrite exec_disableConnection, exec_setStatus. now destruct (Status_eqb _ _).
  - rewrite exec_enableConnection, exec_setStatus. now destruct (Status_eqb _ _).
  - rewrite exec_setStatus. now destruct (Status_eqb _ _).
Qed.

Lemma config_deliver config e : preserves (fun s => _config s = config) (deliver e).
Proof.
  destruct e as [message| | | | | |];
    try (apply sc_deliver; [apply config_step_closed | discriminate]).
  intros s H. unfold deliver, exec.
  destruct (isCorrectConnection (_config s) message) eqn:H1.
  - destruct (isDummyConnection message) eqn:H2.
    + now rewrite run_onAttach_dummy.
    + now rewrite run_onAttach_regular.
  - now rewrite run_onAttach_discard.
Qed.

Lemma config_run config events : _config (run config events) = config.
Proof.
  unfold run. assert (H0 : _config (listening config) = config) by reflexivity.
  revert H0. generalize (listening config) as s.
  induction events as [|e events IH]; intros s H0; [exact H0|].
  simpl. apply IH. now apply (config_deliver config e).
Qed.

Lemma ends_run config events : ends_with_connector (run config events).
Proof.
  unfold run.
  assert (H0 : ends_with_connector (listening config)) by (intros _ E; discriminate E).
  revert H0. generalize (listening config) as s.
  induction events as [|e events IH]; intros s H0; [exact H0|].
  simpl. apply IH. now apply (ends_deliver e).
Qed.

(** X18. The configuration is never changed.  When it does not set
    [endDebugWhenNoRequests], the session ends only once the connector is
    gone (it closed, or [dispose()] was called): while the connector is
    there, connections coming and going never end the session. *)
Theorem session_ends_only_without_connector
    (config : ConnectionConfig) (events : list Event) :
  let s := run config events in
  endDebugWhenNoRequests config = false ->
  _config s = config /\
  (_status s = STATUS_END -> _connector s = None) /\
  (_connector s <> None -> _status s = STATUS_BREAK \/ _status s = STATUS_RUNNING).
Proof.
  intros s Hc. pose proof (config_run config events) as Ec. fold s in Ec.
  pose proof (ends_run config events) as H. fold s in H. unfold ends_with_connector in H.
  rewrite Ec in H. split; [exact Ec|]. split; [now apply H|].
  intro Hk. destruct (Inv_run config events) as [Hb _]. fold s in Hb.
  destruct (inv_status _ Hb) as [E|[E|E]]; auto. now destruct (Hk (H Hc E)).
Qed.

(** ** The end of the session, callback by callback *)

Lemma Map_delete_set c v m : Map_delete c (Map_set c v m) = Map_delete c m.
Proof.
  induction m as [|[k x] m IH]; simpl.
  - now rewrite Nat.eqb_refl.
  - destruct (Nat.eqb k c) eqn:E; simpl; rewrite E; [reflexivity | now rewrite IH].
Qed.

Lemma end_of_life_same s s' :
  _connections s' = _connections s -> surroundings s' = surroundings s ->
  end_of_life s' = end_of_life s.
Proof.
  unfold end_of_life, surroundings. intros -> E. injection E as E1 E2 _ _ _ _ _.
  now rewrite E1, E2.
Qed.

Lemma checkForEnd_ends s :
  end_of_life s = true -> _status (exec _checkForEnd s) = STATUS_END.
Proof. intro H. rewrite exec_checkForEnd, H. apply setStatus_status. Qed.

Lemma updateStatus_ended s : _status s = STATUS_END -> exec _updateStatus s = s.
Proof. intro H. rewrite exec_updateStatus, H. reflexivity. Qed.

(** A terminal status of a connection of the map: the state [s1] the end
    check runs in, and what is left of the map. *)
Lemma terminal_status_frame c st s info :
  Map_get c (_connections s) = Some info -> terminal st = true ->
  exists s1,
    _connectionOnStatus c st s = (Normal tt, exec _updateStatus (exec _checkForEnd s1)) /\
    _connections s1 = Map_delete c (_connections s) /\
    surroundings s1 = surroundings s.
Proof.
  intros Hget Ht. apply terminal_cases in Ht.
  pose proof (touched_get c info st s) as Hgt.
  rewrite (run_connectionOnStatus_terminal _ _ _ _ Hget Ht).
  rewrite (exec_removeConnection _ _ _ Hgt).
  eexists. split; [reflexivity|].
  destruct (same_connection c (_enabledConnection (touched c info st s))).
  - rewrite exec_disableConnection, setStatus_connections, surroundings_setStatus.
    split; [apply Map_delete_set | reflexivity].
  - split; [apply Map_delete_set | reflexivity].
Qed.

Lemma terminal_status_left c st s info :
  Map_get c (_connections s) = Some info -> terminal st = true ->
  _connections (exec (_connectionOnStatus c st) s) = Map_delete c (_connections s) /\
  surroundings (exec (_connectionOnStatus c st) s) = surroundings s.
Proof.
  intros Hget Ht. destruct (terminal_status_frame c st s info Hget Ht) as [s1 [E [Hc Hs]]].
  unfold exec at 1 2. rewrite E. cbn [snd]. rewrite updateStatus_connections, checkForEnd_connections,
    surroundings_updateStatus, surroundings_checkForEnd. auto.
Qed.

(** A callback that reaches [_checkForEnd] ends the session if the test of
    the check holds when it returns. *)
Lemma deliver_ends e s :
  checks_for_end s e = true -> end_of_life (exec (deliver e) s) = true ->
  _status (exec (deliver e) s) = STATUS_END.
Proof.
  intros He Hend.
  destruct (reported e) as [[c st]|] eqn:Er.
  - assert (Hc : terminal st &&
                 match Map_get c (_connections s) with Some _ => true | None => false end
                 = true).
    { destruct e as [message|c0 [st0|]|d|c0 st0| | |]; try discriminate Er;
        simpl in Er, He; injection Er as <- <-; exact He. }
    apply andb_true_iff in Hc as [Ht Hc].
    destruct (Map_get c (_connections s)) as [info|] eqn:Hget; [|discriminate Hc].
    rewrite (deliver_reported _ _ _ Er) in *.
    destruct (terminal_status_frame c st s info Hget Ht) as [s1 [E [Hc1 Hs1]]].
    destruct (terminal_status_left c st s info Hget Ht) as [Hc' Hs'].
    assert (E1 : end_of_life s1 = true).
    { rewrite <- Hend. apply end_of_life_same; congruence. }
    unfold exec at 1. rewrite E. cbn [snd].
    rewrite updateStatus_ended; now apply checkForEnd_ends.
  - destruct e as [message|c0 [st0|]|d|c0 st0| | |]; try discriminate Er;
      try discriminate He.
    + unfold deliver, exec in *. rewrite run_disposeConnector in *. cbn [snd] in *.
      apply checkForEnd_ends. rewrite <- Hend. symmetry.
      apply end_of_life_same;
        [apply checkForEnd_connections | apply surroundings_checkForEnd].
    + now destruct (dispose_state s) as [_ [_ H]].
Qed.

(** C4. [_checkForEnd] moves the status to END exactly when the
    connection map is empty and the connector is gone or
    [endDebugWhenNoRequests] is set.  So does every callback: delivered
    before the session has ended, it ends the session if and only if it is
    one that reaches the check (a connection of the map removed on a
    terminal status, the connector closing, [dispose()]) and it leaves the
    map empty with the connector gone or [endDebugWhenNoRequests] set.  What
    these callbacks leave: the connector closing clears the connector and
    keeps the map; [dispose()] empties the map, clears the connector and
    always ends the session; a terminal status of a connection of the map
    deletes that connection and keeps the connector.  The connector
    closing runs [_checkForEnd] once the connector is cleared; a terminal
    status runs it once the connection is deleted, before the
    re-evaluation.  Once the status is END, no later callback changes it,
    and none emits a status. *)
Theorem C4_end_only_by_check_and_final
    (config : ConnectionConfig) (events : list Event) (e : Event) :
  let s := run config events in
  let s' := exec (deliver e) s in
  (forall s0, _status s0 <> STATUS_END ->
     (_status (exec _checkForEnd s0) = STATUS_END <->
      _connections s0 = [] /\
      (_connector s0 = None \/ endDebugWhenNoRequests (_config s0) = true))) /\
  (_status s <> STATUS_END ->
   (_status s' = STATUS_END <->
    checks_for_end s e = true /\
    _connections s' = [] /\
    (_connector s' = None \/ endDebugWhenNoRequests (_config s') = true))) /\
  (let closing := exec (deliver ConnectorClose) s in
   deliver ConnectorClose s = (Normal tt, exec _checkForEnd (closed s)) /\
   _connector closing = None /\
   _connections closing = _connections s /\
   _config closing = _config s) /\
  (let disposing := exec (deliver Dispose) s in
   completion (deliver Dispose) s = Normal tt /\
   _connector disposing = None /\
   _connections disposing = [] /\
   _status disposing = STATUS_END) /\
  (forall c st info,
     reported e = Some (c, st) -> terminal st = true ->
     Map_get c (_connections s) = Some info ->
     (exists s1,
        deliver e s = (Normal tt, exec _updateStatus (exec _checkForEnd s1)) /\
        _connections s1 = Map_delete c (_connections s) /\
        _connector s1 = _connector s /\
        _config s1 = _config s) /\
     _connections s' = Map_delete c (_connections s) /\
     _connector s' = _connector s /\
     _config s' = _config s) /\
  (_status s = STATUS_END ->
   forall later,
     _status (run_from s later) = STATUS_END /\
     emitted (run_from s later) = emitted s).
Proof.
  intros s s'. split; [|split; [|split; [|split; [|split]]]].
  - intros s0 H. rewrite <- end_of_life_spec. now apply checkForEnd_status.
  - intros H1. rewrite <- end_of_life_spec. split.
    + intros H2.
      assert (He : checks_for_end s e = true).
      { destruct (checks_for_end s e) eqn:He; [reflexivity|].
        now destruct (deliver_not_end e s He H1). }
      split; [exact He|].
      assert (Hc : end_checked s') by
        (apply sc_deliver;
         [apply end_checked_step_closed
         | intros message ->; discriminate He
         | intro E; contradiction]).
      now apply Hc.
    + intros [He Hend]. now apply deliver_ends.
  - intros closing. split; [apply run_disposeConnector|].
    unfold closing, deliver, exec. rewrite run_disposeConnector. cbn [snd].
    destruct (closed_frame s) as [C1 [C2 [_ [_ C5]]]].
    pose proof (surroundings_checkForEnd (closed s)) as E. unfold surroundings in E.
    injection E as E1 E2 _ _ _ _ _.
    rewrite checkForEnd_connections, E1, E2. auto.
  - intros disposing. destruct (dispose_state s) as [H1 [H2 H3]].
    split; [unfold completion, deliver; now rewrite run_dispose | auto].
  - intros c st info Er Ht Hget. unfold s'. rewrite (deliver_reported _ _ _ Er).
    split.
    + destruct (terminal_status_frame c st s info Hget Ht) as [s1 [E [Hc Hs]]].
      exists s1. unfold surroundings in Hs. injection Hs as E1 E2 _ _ _ _ _. auto.
    + destruct (terminal_status_left c st s info Hget Ht) as [Hc Hs].
      unfold surroundings in Hs. injection Hs as E1 E2 _ _ _ _ _. auto.
  - intros H later.
    destruct (Inv_run config events) as [_ Hl]. fold s in Hl.
    assert (Hs : ended (emitted s) s).
    { repeat split; [exact H|].
      destruct (Link_cases _ Hl) as [[He _]|[c [_ [_ Hb]]]]; [exact He | congruence]. }
    destruct (ended_run_from _ later s Hs) as [E1 [_ E3]]. auto.
Qed.

(** ** The enabled connection is removed *)

Lemma emitted_enableFirstBreak infos s :
  _status s = STATUS_RUNNING ->
  emitted (exec (enableFirstBreak infos) s) =
  emitted s ++
    (if existsb (fun i => Status_eqb (status i) STATUS_BREAK) infos
     then [STATUS_BREAK] else []).
Proof.
  intro H. induction infos as [|i infos IH]; simpl; [now rewrite app_nil_r|].
  destruct (Status_eqb (status i) STATUS_BREAK); simpl; [|exact IH].
  rewrite exec_enableConnection_fresh by (rewrite H; discriminate).
  unfold emitted. simpl. now rewrite emitted_of_app.
Qed.

(** What [dispose()] emits, by the status it starts from. *)
Lemma dispose_emitted s :
  sound s ->
  emitted (exec dispose s) =
  emitted s ++ match _status s with
               | STATUS_BREAK => [STATUS_RUNNING; STATUS_END]
               | STATUS_RUNNING => [STATUS_END]
               | _ => []
               end.
Proof.
  intro Hs. pose proof (sound_dispose s Hs) as [[Hb' _] Ho'].
  destruct (quiet_dispose s) as [more [Em Hm]].
  assert (Ee : emitted (exec dispose s) = emitted s ++ emitted_of more).
  { unfold emitted. now rewrite Em, emitted_of_app. }
  destruct (dispose_state s) as [_ [_ Hend]].
  unfold ordered in Ho'. rewrite Ee in Ho'. apply path_app in Ho'.
  pose proof (last_or_status _ Hb') as Hlast.
  rewrite Ee, last_or_app, Hend in Hlast.
  destruct Hs as [[Hb Hl] _]. rewrite (last_or_status s Hb) in Ho', Hlast.
  destruct (path_to_end _ _ Ho' (emitted_of_not_break _ Hm) Hlast)
    as [[H1 H2]|[[H1 H2]|[H1 H2]]]; rewrite Ee, H2, H1; reflexivity.
Qed.

(** C3. The enabled connection is removed.  Within [_removeConnection],
    for any state of the multiplexer: the entry is deleted, then the enabled
    slot is cleared and the status set to RUNNING, and only then
    [_checkForEnd] runs.  When the enabled connection reaches a terminal
    status (as reported, or as the answer to its first status query, a
    failed query standing for ERROR): the end check runs in a state with no
    enabled connection, the status RUNNING and RUNNING emitted; the callback
    emits RUNNING first, then END if the check ends the session, else BREAK
    if another connection waits in BREAK, else nothing; the connection is
    no longer enabled nor in the map.  When [dispose()] is called: RUNNING,
    then END are emitted, and no connection is enabled. *)
Theorem C3_enabled_removed_running_before_end
    (config : ConnectionConfig) (events : list Event) (c : Connection) :
  let s := run config events in
  _enabledConnection s = Some c ->
  exists info,
    Map_get c (_connections s) = Some info /\
    _status s = STATUS_BREAK /\
    (forall u i,
       _enabledConnection u = Some c -> Map_get c (_connections u) = Some i ->
       _removeConnection c u =
       (Normal tt, exec _checkForEnd (exec _disableConnection (removed c i u)))) /\
    (forall e st,
       reported e = Some (c, st) -> terminal st = true ->
       let s1 := exec _disableConnection (removed c info (touched c info st s)) in
       let s' := exec (deliver e) s in
       deliver e s = (Normal tt, exec _updateStatus (exec _checkForEnd s1)) /\
       _enabledConnection s1 = None /\
       _status s1 = STATUS_RUNNING /\
       emitted s1 = emitted s ++ [STATUS_RUNNING] /\
       emitted s' =
         emitted s ++ STATUS_RUNNING ::
           (if end_of_life s1 then [STATUS_END]
            else if existsb (fun i => Status_eqb (status i) STATUS_BREAK)
                            (Map_values (_connections s1))
                 then [STATUS_BREAK] else []) /\
       (_status s' = STATUS_END <-> end_of_life s1 = true) /\
       _enabledConnection s' <> Some c /\
       ~ tracked s' c) /\
    (let s' := exec (deliver Dispose) s in
     completion (deliver Dispose) s = Normal tt /\
     emitted s' = emitted s ++ [STATUS_RUNNING; STATUS_END] /\
     _enabledConnection s' = None /\
     _status s' = STATUS_END /\
     ~ tracked s' c).
Proof.
  intros s He. pose proof (sound_run config events) as Hsound. fold s in Hsound.
  pose proof (proj1 Hsound) as Hs.
  destruct (inv_enabled _ (proj2 Hs) c He) as [Ht Hst].
  destruct (In_keys_get _ _ Ht) as [info Hget].
  exists info. split; [exact Hget|]. split; [exact Hst|]. split; [|split].
  - intros u i Hu Hi. rewrite (run_removeConnection _ _ _ Hi).
    apply same_connection_true in Hu. now rewrite Hu.
  - intros e st Er Hterm s1 s'.
    pose proof (terminal_cases _ Hterm) as Hcases.
    set (t := touched c info st s) in *.
    set (info' := {| connection := connection info;
                     onStatusDisposable := onStatusDisposable info;
                     status := st |}).
    pose proof (touched_get c info st s) as Hgt. fold t info' in Hgt.
    assert (Hd : s1 = set_effects (effects (removed c info t) ++ [EmitStatus STATUS_RUNNING])
                        (set_status STATUS_RUNNING
                           (set_enabledConnection None (removed c info t))))
      by exact (exec_disableConnection_break (removed c info t) Hst).
    assert (Er1 : exec (_removeConnection c) t = exec _checkForEnd s1).
    { rewrite (exec_removeConnection _ _ _ Hgt).
      change (_enabledConnection t) with (_enabledConnection s).
      apply same_connection_true in He as E. now rewrite E. }
    assert (Erun : deliver e s = (Normal tt, exec _updateStatus (exec _checkForEnd s1))).
    { rewrite (deliver_reported _ _ _ Er).
      rewrite (run_connectionOnStatus_terminal _ _ _ _ Hget Hcases). fold t.
      now rewrite Er1. }
    assert (Es : s' = exec _updateStatus (exec _checkForEnd s1)).
    { unfold s', exec at 1. now rewrite Erun. }
    assert (E1 : _enabledConnection s1 = None) by (rewrite Hd; reflexivity).
    assert (E2 : _status s1 = STATUS_RUNNING) by (rewrite Hd; reflexivity).
    assert (E3 : emitted s1 = emitted s ++ [STATUS_RUNNING]).
    { rewrite Hd. unfold emitted. simpl. rewrite !emitted_of_app. simpl.
      now rewrite !app_nil_r. }
    split; [exact Erun|]. split; [exact E1|]. split; [exact E2|]. split; [exact E3|].
    split; [|split; [|split]].
    + rewrite Es, exec_checkForEnd. destruct (end_of_life s1) eqn:Hend.
      * rewrite updateStatus_ended by apply setStatus_status.
        rewrite emitted_setStatus, E2, E3. simpl. now rewrite <- app_assoc.
      * rewrite exec_updateStatus, E2. cbn [Status_eqb].
        rewrite (emitted_enableFirstBreak _ _ E2), E3. now rewrite <- app_assoc.
    + rewrite Es, exec_checkForEnd. destruct (end_of_life s1) eqn:Hend.
      * rewrite updateStatus_ended by apply setStatus_status.
        rewrite setStatus_status. tauto.
      * split; [|discriminate]. intro H. exfalso. revert H.
        apply updateStatus_not_end. rewrite E2. discriminate.
    + intro H. pose proof (Inv_deliver e s Hs) as [_ Hl']. fold s' in Hl'.
      destruct (inv_enabled _ Hl' c H) as [Ht' _]. revert Ht'. unfold tracked, s'.
      rewrite (deliver_reported _ _ _ Er).
      destruct (terminal_status_left c st s info Hget Hterm) as [Hc _]. rewrite Hc.
      apply Map_delete_gone. apply (inv_nodup _ (proj1 Hs)).
    + unfold tracked, s'. rewrite (deliver_reported _ _ _ Er).
      destruct (terminal_status_left c st s info Hget Hterm) as [Hc _]. rewrite Hc.
      apply Map_delete_gone. apply (inv_nodup _ (proj1 Hs)).
  - intros s'. unfold s', deliver.
    destruct (dispose_state s) as [H1 [H2 H3]].
    split; [unfold completion; now rewrite run_dispose|].
    split; [rewrite (dispose_emitted s Hsound), Hst; reflexivity|].
    split; [|split; [exact H3|]].
    + pose proof (Inv_dispose s Hs) as [_ Hl'].
      destruct (_enabledConnection (exec dispose s)) as [k|] eqn:E; [|reflexivity].
      destruct (inv_enabled _ Hl' k E) as [Hk _]. unfold tracked in Hk.
      rewrite H1 in Hk. destruct Hk.
    + unfold tracked. rewrite H1. intros [].
Qed.

(** ** Choosing the connection to enable, in the order of the map *)

Lemma Map_get_split c m info :
  Map_get c m = Some info ->
  exists before after, m = before ++ (c, info) :: after /\ ~ In c (Map_keys before).
Proof.
  induction m as [|[k x] m IH]; simpl; [discriminate|].
  destruct (Nat.eqb_spec k c) as [->|Hne].
  - intros [= ->]. exists [], m. split; [reflexivity | intros []].
  - intro H. destruct (IH H) as [before [after [E Hb]]].
    exists ((k, x) :: before), after. split; [simpl; now rewrite E|].
    simpl. intros [E'|H']; [congruence | contradiction].
Qed.

Lemma Map_set_split c v before x after :
  ~ In c (Map_keys before) ->
  Map_set c v (before ++ (c, x) :: after) = before ++ (c, v) :: after.
Proof.
  induction before as [|[k y] before IH]; simpl; intro H.
  - now rewrite Nat.eqb_refl.
  - destruct (Nat.eqb_spec k c) as [->|Hne]; [tauto|]. rewrite IH; tauto.
Qed.

Lemma enableFirstBreak_at before k i after s :
  (forall e, In e before -> status (snd e) <> STATUS_BREAK) ->
  status i = STATUS_BREAK ->
  enableFirstBreak (Map_values (before ++ (k, i) :: after)) s =
  _enableConnection (connection i) s.
Proof.
  intros Hb Hi. induction before as [|[k' i'] before IH]; simpl.
  - now rewrite Hi.
  - assert (E : Status_eqb (status i') STATUS_BREAK = false).
    { apply Status_eqb_neq. apply (Hb (k', i')). now left. }
    rewrite E. apply IH. intros e He. apply Hb. now right.
Qed.

(** [_updateStatus] while the status is neither BREAK nor END: the first
    entry of the map whose cached status is BREAK is enabled. *)
Lemma run_updateStatus_first u before k i after :
  _status u <> STATUS_BREAK -> _status u <> STATUS_END ->
  _connections u = before ++ (k, i) :: after ->
  (forall e, In e before -> status (snd e) <> STATUS_BREAK) ->
  status i = STATUS_BREAK ->
  _updateStatus u =
  (Normal tt,
   set_effects (effects u ++ [EmitStatus STATUS_BREAK])
     (set_status STATUS_BREAK (set_enabledConnection (Some (connection i)) u))).
Proof.
  intros H1 H2 Hc Hb Hi. rewrite run_updateStatus, exec_updateStatus.
  apply Status_eqb_neq in H1 as E1. apply Status_eqb_neq in H2 as E2.
  rewrite E1, E2, Hc. unfold exec. rewrite (enableFirstBreak_at _ _ _ _ _ Hb Hi).
  fold (exec (_enableConnection (connection i)) u).
  now rewrite exec_enableConnection_fresh.
Qed.

Lemma run_updateStatus_none u :
  (forall e, In e (_connections u) -> status (snd e) <> STATUS_BREAK) ->
  _updateStatus u = (Normal tt, u).
Proof.
  intro H. rewrite run_updateStatus, exec_updateStatus.
  destruct (Status_eqb _ STATUS_END); [reflexivity|].
  destruct (Status_eqb _ STATUS_BREAK); [reflexivity|].
  unfold exec. now rewrite (enableFirstBreak_none _ u H).
Qed.

(** After the enabled connection ran on or was removed, with a connection
    left in the map, the re-evaluation starts from the status RUNNING. *)
Lemma enabled_gone_reevaluation s k e st :
  Inv s -> _enabledConnection s = Some k -> reported e = Some (k, st) ->
  st = STATUS_RUNNING \/ terminal st = true ->
  _connections (exec (deliver e) s) <> [] ->
  exists d,
    exec (deliver e) s = exec _updateStatus d /\
    _status d = STATUS_RUNNING /\
    emitted d = emitted s ++ [STATUS_RUNNING] /\
    _connections d = _connections (exec (deliver e) s).
Proof.
  intros Hs Hk Er Hst. rewrite (deliver_reported _ _ _ Er).
  destruct (inv_enabled _ (proj2 Hs) k Hk) as [Htk Hbr].
  destruct (In_keys_get _ _ Htk) as [ik Hgk].
  apply same_connection_true in Hk as Esame.
  destruct Hst as [-> | Ht].
  - assert (E : exec (_connectionOnStatus k STATUS_RUNNING) s =
                exec _updateStatus
                  (exec _disableConnection (touched k ik STATUS_RUNNING s))).
    { unfold exec at 1. rewrite (run_connectionOnStatus_running _ _ _ Hgk), Esame.
      reflexivity. }
    rewrite E. intros _.
    exists (exec _disableConnection (touched k ik STATUS_RUNNING s)).
    split; [reflexivity|].
    rewrite updateStatus_connections.
    rewrite (exec_disableConnection_break (touched k ik STATUS_RUNNING s) Hbr).
    split; [reflexivity|]. split; [|reflexivity].
    unfold emitted. simpl. now rewrite emitted_of_app.
  - pose proof (terminal_cases _ Ht) as Hcases.
    pose proof (touched_get k ik st s) as Hgt.
    set (t := touched k ik st s) in *.
    set (s1 := exec _disableConnection (removed k ik t)).
    assert (E : exec (_connectionOnStatus k st) s =
                exec _updateStatus (exec _checkForEnd s1)).
    { unfold exec at 1. rewrite (run_connectionOnStatus_terminal _ _ _ _ Hgk Hcases).
      cbn [snd]. fold t. rewrite (exec_removeConnection _ _ _ Hgt).
      change (_enabledConnection t) with (_enabledConnection s). now rewrite Esame. }
    rewrite E, updateStatus_connections, checkForEnd_connections. intro Hne.
    assert (Hend : end_of_life s1 = false).
    { destruct (end_of_life s1) eqn:H; [|reflexivity].
      apply end_of_life_empty in H. contradiction. }
    exists s1. rewrite exec_checkForEnd, Hend. split; [reflexivity|].
    unfold s1. rewrite (exec_disableConnection_break (removed k ik t) Hbr).
    split; [reflexivity|]. split; [|reflexivity].
    unfold emitted. simpl. rewrite !emitted_of_app. simpl. now rewrite !app_nil_r.
Qed.

(** C2. A connection of the map reports BREAK.  If the global status is
    neither BREAK nor END, no connection is enabled and no other connection
    has BREAK as its cached status; the reporting connection is enabled, the
    global status becomes BREAK and BREAK is emitted.  If the global status
    is BREAK already and the connection is not the enabled one, it stays
    disabled: the enabled slot and the status stay as they are and nothing
    is done to the collaborators.  The re-evaluation [_updateStatus] itself,
    in any state of the multiplexer: with the status neither BREAK nor END
    it enables the first entry of the map, in iteration order, whose cached
    status is BREAK, whatever comes after it, sets the status to BREAK and
    emits it, and it does nothing if no entry has BREAK; with the status
    BREAK or END it does nothing.  Several connections are in BREAK at a
    time only behind an enabled one: when that one runs on or is removed,
    the first of the map, in iteration order, whose cached status is BREAK
    is enabled.  The map iterates in the order of attachment: attaching adds
    the new connection after all the others. *)
Theorem C2_break_enables_first_in_order
    (config : ConnectionConfig) (events : list Event)
    (c : Connection) (info : ConnectionInfo) :
  let s := run config events in
  Map_get c (_connections s) = Some info ->
  let s' := exec (deliver (ConnectionStatus c STATUS_BREAK)) s in
  let info' := {| connection := connection info;
                  onStatusDisposable := onStatusDisposable info;
                  status := STATUS_BREAK |} in
  completion (deliver (ConnectionStatus c STATUS_BREAK)) s = Normal tt /\
  (exists before after,
     _connections s = before ++ (c, info) :: after /\
     _connections s' = before ++ (c, info') :: after) /\
  (_status s <> STATUS_BREAK -> _status s <> STATUS_END ->
   (forall e, In e (_connections s) -> status (snd e) <> STATUS_BREAK) /\
   _enabledConnection s = None /\
   _enabledConnection s' = Some c /\
   _status s' = STATUS_BREAK /\
   effects s' = effects s ++ [EmitStatus STATUS_BREAK]) /\
  (_status s = STATUS_BREAK -> _enabledConnection s <> Some c ->
   _enabledConnection s' = _enabledConnection s /\
   _status s' = STATUS_BREAK /\
   effects s' = effects s) /\
  (forall u before k i after,
     _status u <> STATUS_BREAK -> _status u <> STATUS_END ->
     _connections u = before ++ (k, i) :: after ->
     (forall e, In e before -> status (snd e) <> STATUS_BREAK) ->
     status i = STATUS_BREAK ->
     _updateStatus u =
     (Normal tt,
      set_effects (effects u ++ [EmitStatus STATUS_BREAK])
        (set_status STATUS_BREAK (set_enabledConnection (Some (connection i)) u)))) /\
  (forall u,
     (_status u = STATUS_BREAK \/ _status u = STATUS_END \/
      forall e, In e (_connections u) -> status (snd e) <> STATUS_BREAK) ->
     _updateStatus u = (Normal tt, u)) /\
  (forall k e st,
     _enabledConnection s = Some k ->
     reported e = Some (k, st) ->
     st = STATUS_RUNNING \/ terminal st = true ->
     let next := exec (deliver e) s in
     forall before c' i after,
       _connections next = before ++ (c', i) :: after ->
       (forall x, In x before -> status (snd x) <> STATUS_BREAK) ->
       status i = STATUS_BREAK ->
       _enabledConnection next = Some c' /\
       _status next = STATUS_BREAK /\
       emitted next = emitted s ++ [STATUS_RUNNING; STATUS_BREAK]) /\
  (forall message,
     isCorrectConnection (_config s) message = true ->
     isDummyConnection message = false ->
     _connections (exec (deliver (Attach message)) s) =
     _connections s ++
       [(heapNext s, {| connection := heapNext s;
                        onStatusDisposable := {| detaches := heapNext s |};
                        status := STATUS_STARTING |})]).
Proof.
  intros s Hget s' info'. pose proof (Inv_run config events) as Hs. fold s in Hs.
  pose proof (settled_run config events) as Hsettled. fold s in Hsettled.
  destruct Hs as [Hb Hl].
  destruct (Map_get_split _ _ _ Hget) as [before [after [Em Hbefore]]].
  set (t := touched c info STATUS_BREAK s).
  assert (Et : _connections t = before ++ (c, info') :: after).
  { unfold t, touched. simpl. rewrite Em. now apply Map_set_split. }
  assert (Hrun : deliver (ConnectionStatus c STATUS_BREAK) s =
                 (Normal tt,
                  if same_connection c (_enabledConnection s)
                  then set_effects (effects s ++ [EmitStatus STATUS_BREAK]) t
                  else exec _updateStatus t))
    by exact (run_connectionOnStatus_break _ _ _ Hget).
  assert (Hquiet : _status s <> STATUS_BREAK -> _status s <> STATUS_END ->
                   forall e, In e (_connections s) -> status (snd e) <> STATUS_BREAK).
  { intros H1 H2. destruct (inv_status _ Hb) as [E|[E|E]]; try contradiction.
    exact (Hsettled E). }
  unfold s', completion, exec. rewrite Hrun. cbn [fst snd].
  split; [reflexivity|]. split; [|split; [|split; [|split; [|split; [|split]]]]].
  - exists before, after. split; [exact Em|].
    destruct (same_connection c (_enabledConnection s)); [exact Et|].
    now rewrite updateStatus_connections.
  - intros H1 H2. split; [exact (Hquiet H1 H2)|].
    destruct (Link_cases _ Hl) as [[He _]|[c0 [_ [_ H]]]]; [|congruence].
    rewrite He. cbn [same_connection].
    assert (Hu : _updateStatus t =
                 (Normal tt,
                  set_effects (effects t ++ [EmitStatus STATUS_BREAK])
                    (set_status STATUS_BREAK
                       (set_enabledConnection (Some (connection info')) t)))).
    { apply (run_updateStatus_first t before c info' after); auto.
      intros e Hin. apply (Hquiet H1 H2). rewrite Em. apply in_or_app. now left. }
    unfold exec. rewrite Hu. cbn [snd].
    assert (Ek : connection info = c).
    { apply (inv_info _ Hb). now apply Map_get_Some_In. }
    simpl. rewrite Ek. auto.
  - intros H1 H2. apply same_connection_false in H2. rewrite H2.
    rewrite exec_updateStatus.
    change (_status t) with (_status s). rewrite H1. simpl. auto.
  - intros u before0 k i after0. apply run_updateStatus_first.
  - intros u [H|[H|H]].
    + rewrite run_updateStatus, exec_updateStatus, H. reflexivity.
    + rewrite run_updateStatus, exec_updateStatus, H. reflexivity.
    + now apply run_updateStatus_none.
  - intros k e st Hk Er Hst before0 c' i after0 Hdec Hbef Hi.
    change (snd (deliver e s)) with (exec (deliver e) s) in *.
    set (next := exec (deliver e) s) in *.
    pose proof (Inv_deliver e s (conj Hb Hl)) as [Hb2 _]. fold next in Hb2.
    assert (Ec : connection i = c').
    { apply (inv_info _ Hb2). rewrite Hdec. apply in_or_app. right. now left. }
    destruct (enabled_gone_reevaluation s k e st (conj Hb Hl) Hk Er Hst)
      as [d [E [Hd [He Hc]]]].
    { fold next. rewrite Hdec. now destruct before0. }
    fold next in E, Hc. rewrite Hdec in Hc.
    assert (Hu : _updateStatus d =
                 (Normal tt,
                  set_effects (effects d ++ [EmitStatus STATUS_BREAK])
                    (set_status STATUS_BREAK
                       (set_enabledConnection (Some (connection i)) d))))
      by (apply (run_updateStatus_first d before0 c' i after0); auto;
          rewrite Hd; discriminate).
    rewrite E. unfold exec. rewrite Hu. cbn [snd]. simpl. rewrite Ec.
    split; [reflexivity|]. split; [reflexivity|].
    unfold emitted in *. simpl. rewrite emitted_of_app, He, <- app_assoc. reflexivity.
  - intros message H1 H2. unfold deliver. rewrite (run_onAttach_regular _ _ H1 H2). simpl.
    now apply attached_connections.
Qed.

End ConnectionMultiplexer.

(** ** Examples

    The multiplexer run on the sample handshakes, the warm-up process not
    spawned. *)

Abbreviation session endWhenNoRequests events :=
  (run Handshake handshake_correct handshake_dummy None "run"
       (sample_config endWhenNoRequests) events) (only parsing).

Abbreviation on e :=
  (deliver Handshake handshake_correct handshake_dummy "run" e) (only parsing).

(** Connection 0 attaches, answers RUNNING and then reports BREAK: it is
    enabled.  Connection 1 reports BREAK while connection 0 is enabled: it
    stays disabled.  Connections 1 and 2 wait in BREAK behind connection 0,
    which has just run on and been disabled: the re-evaluation enables
    connection 1, the earlier of the two.  Connections 1 and 2 wait in BREAK
    behind connection 0, which ends: connection 1 is enabled. *)
Lemma C2_break_enables_first_in_order_witness :
  let a := session false [Attach Handshake ScriptRequest;
                          StatusQuerySettled Handshake 0 (Some STATUS_RUNNING)] in
  let a' := exec (on (ConnectionStatus Handshake 0 STATUS_BREAK)) a in
  let b := session false [Attach Handshake ScriptRequest;
                          StatusQuerySettled Handshake 0 (Some STATUS_BREAK);
                          Attach Handshake ScriptRequest;
                          StatusQuerySettled Handshake 1 (Some STATUS_RUNNING)] in
  let b' := exec (on (ConnectionStatus Handshake 1 STATUS_BREAK)) b in
  let u := exec _disableConnection
             (touched 0 (info_of 0 STATUS_BREAK) STATUS_RUNNING
                (session false [Attach Handshake ScriptRequest;
                                StatusQuerySettled Handshake 0 (Some STATUS_BREAK);
                                Attach Handshake ScriptRequest;
                                StatusQuerySettled Handshake 1 (Some STATUS_BREAK);
                                Attach Handshake ScriptRequest;
                                StatusQuerySettled Handshake 2 (Some STATUS_BREAK)])) in
  (Map_get 0 (_connections a) = Some (info_of 0 STATUS_RUNNING) /\
   _enabledConnection a = None /\
   _enabledConnection a' = Some 0 /\
   _status a' = STATUS_BREAK /\
   effects a' = effects a ++ [EmitStatus STATUS_BREAK]) /\
  (Map_get 1 (_connections b) = Some (info_of 1 STATUS_RUNNING) /\
   _enabledConnection b = Some 0 /\
   _enabledConnection b' = Some 0 /\
   _status b' = STATUS_BREAK /\
   effects b' = effects b) /\
  (_connections u = [(0, info_of 0 STATUS_RUNNING); (1, info_of 1 STATUS_BREAK);
                     (2, info_of 2 STATUS_BREAK)] /\
   _status u = STATUS_RUNNING /\
   _enabledConnection (snd (_updateStatus u)) = Some 1) /\
  (let w := session false [Attach Handshake ScriptRequest;
                           StatusQuerySettled Handshake 0 (Some STATUS_BREAK);
                           Attach Handshake ScriptRequest;
                           StatusQuerySettled Handshake 1 (Some STATUS_BREAK);
                           Attach Handshake ScriptRequest;
                           StatusQuerySettled Handshake 2 (Some STATUS_BREAK)] in
   let w' := exec (on (ConnectionStatus Handshake 0 STATUS_END)) w in
   _enabledConnection w = Some 0 /\
   _connections w' = [(1, info_of 1 STATUS_BREAK); (2, info_of 2 STATUS_BREAK)] /\
   _enabledConnection w' = Some 1 /\
   emitted w' = emitted w ++ [STATUS_RUNNING; STATUS_BREAK]).
Proof.
  assert (Ha : Map_get 0 (_connections
                 (session false [Attach Handshake ScriptRequest;
                                 StatusQuerySettled Handshake 0 (Some STATUS_RUNNING)]))
               = Some (info_of 0 STATUS_RUNNING)) by (vm_compute; reflexivity).
  assert (Ha1 : _status (session false [Attach Handshake ScriptRequest;
                                 StatusQuerySettled Handshake 0 (Some STATUS_RUNNING)])
                <> STATUS_BREAK) by (vm_compute; discriminate).
  assert (Ha2 : _status (session false [Attach Handshake ScriptRequest;
                                 StatusQuerySettled Handshake 0 (Some STATUS_RUNNING)])
                <> STATUS_END) by (vm_compute; discriminate).
  assert (Hb : Map_get 1 (_connections
                 (session false [Attach Handshake ScriptRequest;
                          StatusQuerySettled Handshake 0 (Some STATUS_BREAK);
                          Attach Handshake ScriptRequest;
                          StatusQuerySettled Handshake 1 (Some STATUS_RUNNING)]))
               = Some (info_of 1 STATUS_RUNNING)) by (vm_compute; reflexivity).
  assert (Hb1 : _status (session false [Attach Handshake ScriptRequest;
                          StatusQuerySettled Handshake 0 (Some STATUS_BREAK);
                          Attach Handshake ScriptRequest;
                          StatusQuerySettled Handshake 1 (Some STATUS_RUNNING)])
                = STATUS_BREAK) by (vm_compute; reflexivity).
  assert (Hb2 : _enabledConnection (session false [Attach Handshake ScriptRequest;
                          StatusQuerySettled Handshake 0 (Some STATUS_BREAK);
                          Attach Handshake ScriptRequest;
                          StatusQuerySettled Handshake 1 (Some STATUS_RUNNING)])
                = Some 0) by (vm_compute; reflexivity).
  pose proof (C2_break_enables_first_in_order Handshake handshake_correct handshake_dummy
                None "run" (sample_config false) _ 0 (info_of 0 STATUS_RUNNING) Ha)
    as [_ [_ [Hen _]]].
  pose proof (C2_break_enables_first_in_order Handshake handshake_correct handshake_dummy
                None "run" (sample_config false) _ 1 (info_of 1 STATUS_RUNNING) Hb)
    as [_ [_ [_ [Hstay [Hfirst _]]]]].
  assert (Hw : Map_get 1 (_connections
                 (session false [Attach Handshake ScriptRequest;
                                 StatusQuerySettled Handshake 0 (Some STATUS_BREAK);
                                 Attach Handshake ScriptRequest;
                                 StatusQuerySettled Handshake 1 (Some STATUS_BREAK);
                                 Attach Handshake ScriptRequest;
                                 StatusQuerySettled Handshake 2 (Some STATUS_BREAK)]))
               = Some (info_of 1 STATUS_BREAK)) by (vm_compute; reflexivity).
  assert (Hw0 : _enabledConnection
                 (session false [Attach Handshake ScriptRequest;
                                 StatusQuerySettled Handshake 0 (Some STATUS_BREAK);
                                 Attach Handshake ScriptRequest;
                                 StatusQuerySettled Handshake 1 (Some STATUS_BREAK);
                                 Attach Handshake ScriptRequest;
                                 StatusQuerySettled Handshake 2 (Some STATUS_BREAK)])
               = Some 0) by (vm_compute; reflexivity).
  pose proof (C2_break_enables_first_in_order Handshake handshake_correct handshake_dummy
                None "run" (sample_config false) _ 1 (info_of 1 STATUS_BREAK) Hw)
    as [_ [_ [_ [_ [_ [_ [Hnext _]]]]]]].
  split; [|split; [|split]].
  - destruct (Hen Ha1 Ha2) as [_ [E0 [E1 [E2 E3]]]].
    split; [exact Ha|]. split; [exact E0|]. split; [exact E1|]. split; [exact E2 | exact E3].
  - assert (Hne : Some 0 <> Some 1) by discriminate.
    rewrite <- Hb2 in Hne at 1.
    destruct (Hstay Hb1 Hne) as [E1 [E2 E3]].
    split; [exact Hb|]. split; [exact Hb2|]. split; [now rewrite E1|].
    split; [exact E2 | exact E3].
  - split; [vm_compute; reflexivity|]. split; [vm_compute; reflexivity|].
    refine (f_equal (fun r => _enabledConnection (snd r))
              (Hfirst _ [(0, info_of 0 STATUS_RUNNING)] 1 (info_of 1 STATUS_BREAK)
                 [(2, info_of 2 STATUS_BREAK)] _ _ _ _ eq_refl)).
    + vm_compute; discriminate.
    + vm_compute; discriminate.
    + vm_compute; reflexivity.
    + intros e [<-|[]]. discriminate.
  - split; [exact Hw0|].
    assert (Hc : _connections
                   (exec (on (ConnectionStatus Handshake 0 STATUS_END))
                      (session false [Attach Handshake ScriptRequest;
                                      StatusQuerySettled Handshake 0 (Some STATUS_BREAK);
                                      Attach Handshake ScriptRequest;
                                      StatusQuerySettled Handshake 1 (Some STATUS_BREAK);
                                      Attach Handshake ScriptRequest;
                                      StatusQuerySettled Handshake 2 (Some STATUS_BREAK)]))
                 = [] ++ (1, info_of 1 STATUS_BREAK) :: [(2, info_of 2 STATUS_BREAK)])
      by (vm_compute; reflexivity).
    split; [exact Hc|].
    destruct (Hnext 0 (ConnectionStatus Handshake 0 STATUS_END) STATUS_END Hw0 eq_refl
                (or_intror eq_refl) [] 1 (info_of 1 STATUS_BREAK)
                [(2, info_of 2 STATUS_BREAK)] Hc)
      as [E1 [_ E3]]; [intros x [] | reflexivity |].
    split; [exact E1 | exact E3].
Defined.

(** Connection 0 is enabled and connection 1 waits in BREAK.  Connection 0
    ends: RUNNING, then BREAK for connection 1.  [dispose()] instead:
    RUNNING, then END.  With connection 0 alone and a configuration that
    ends the session when no request is left, its failed first status
    query: RUNNING, then END. *)
Lemma C3_enabled_removed_running_before_end_witness :
  let s := session false [Attach Handshake ScriptRequest;
                          StatusQuerySettled Handshake 0 (Some STATUS_BREAK);
                          Attach Handshake ScriptRequest;
                          StatusQuerySettled Handshake 1 (Some STATUS_BREAK)] in
  let only := session true [Attach Handshake ScriptRequest;
                            StatusQuerySettled Handshake 0 (Some STATUS_BREAK)] in
  (_enabledConnection s = Some 0 /\
   emitted s = [STATUS_BREAK] /\
   emitted (exec (on (ConnectionStatus Handshake 0 STATUS_END)) s) =
     [STATUS_BREAK; STATUS_RUNNING; STATUS_BREAK] /\
   emitted (exec (on (Dispose Handshake)) s) =
     [STATUS_BREAK; STATUS_RUNNING; STATUS_END] /\
   _enabledConnection (exec (on (Dispose Handshake)) s) = None) /\
  (_enabledConnection only = Some 0 /\
   emitted (exec (on (StatusQuerySettled Handshake 0 None)) only) =
     [STATUS_BREAK; STATUS_RUNNING; STATUS_END] /\
   _status (exec (on (StatusQuerySettled Handshake 0 None)) only) = STATUS_END).
Proof.
  assert (He : _enabledConnection
                 (session false [Attach Handshake ScriptRequest;
                                 StatusQuerySettled Handshake 0 (Some STATUS_BREAK);
                                 Attach Handshake ScriptRequest;
                                 StatusQuerySettled Handshake 1 (Some STATUS_BREAK)])
               = Some 0) by (vm_compute; reflexivity).
  assert (Ho : _enabledConnection
                 (session true [Attach Handshake ScriptRequest;
                                StatusQuerySettled Handshake 0 (Some STATUS_BREAK)])
               = Some 0) by (vm_compute; reflexivity).
  destruct (C3_enabled_removed_running_before_end Handshake handshake_correct
              handshake_dummy None "run" (sample_config false) _ 0 He)
    as [info [Hget [_ [_ [Hterm [_ [Hd [Hn _]]]]]]]].
  destruct (C3_enabled_removed_running_before_end Handshake handshake_correct
              handshake_dummy None "run" (sample_config true) _ 0 Ho)
    as [info' [Hget' [_ [_ [Hterm' _]]]]].
  assert (Ei : info = info_of 0 STATUS_BREAK).
  { vm_compute in Hget. now injection Hget. }
  assert (Ei' : info' = info_of 0 STATUS_BREAK).
  { vm_compute in Hget'. now injection Hget'. }
  subst info info'.
  split.
  - split; [exact He|]. split; [reflexivity|]. split; [|split; [exact Hd | exact Hn]].
    destruct (Hterm (ConnectionStatus Handshake 0 STATUS_END) STATUS_END eq_refl eq_refl)
      as [_ [_ [_ [_ [H _]]]]].
    etransitivity; [exact H|]. vm_compute. reflexivity.
  - split; [exact Ho|].
    destruct (Hterm' (StatusQuerySettled Handshake 0 None) STATUS_ERROR eq_refl eq_refl)
      as [_ [_ [_ [_ [H [[_ Hend] _]]]]]].
    split; [etransitivity; [exact H|]; vm_compute; reflexivity|].
    apply Hend. vm_compute. reflexivity.
Defined.

(** The session ends when the connector closes after the only connection
    has stopped; it ends when the only connection goes away and the
    configuration asks for that; it does not end when the only connection
    stops while the connector is there and the configuration does not ask
    for it. *)
Lemma C4_end_only_by_check_and_final_witness :
  let emptied := session false [Attach Handshake ScriptRequest;
                                StatusQuerySettled Handshake 0 (Some STATUS_STOPPED)] in
  let asked := session true [Attach Handshake ScriptRequest] in
  let kept := session false [Attach Handshake ScriptRequest] in
  (_status emptied = STATUS_RUNNING /\
   _status (exec (on (ConnectorClose Handshake)) emptied) = STATUS_END) /\
  (_status asked = STATUS_RUNNING /\
   _status (exec (on (StatusQuerySettled Handshake 0 None)) asked) = STATUS_END) /\
  (_status kept = STATUS_RUNNING /\
   _status (exec (on (StatusQuerySettled Handshake 0 (Some STATUS_STOPPED))) kept)
     <> STATUS_END).
Proof.
  pose proof (C4_end_only_by_check_and_final Handshake handshake_correct handshake_dummy
                None "run" (sample_config false)
                [Attach Handshake ScriptRequest;
                 StatusQuerySettled Handshake 0 (Some STATUS_STOPPED)]
                (ConnectorClose Handshake)) as [_ [H1 _]].
  pose proof (C4_end_only_by_check_and_final Handshake handshake_correct handshake_dummy
                None "run" (sample_config true)
                [Attach Handshake ScriptRequest]
                (StatusQuerySettled Handshake 0 None)) as [_ [H2 _]].
  pose proof (C4_end_only_by_check_and_final Handshake handshake_correct handshake_dummy
                None "run" (sample_config false)
                [Attach Handshake ScriptRequest]
                (StatusQuerySettled Handshake 0 (Some STATUS_STOPPED))) as [_ [H3 _]].
  split; [|split]; (split; [reflexivity|]).
  - apply H1; [vm_compute; discriminate|].
    split; [vm_compute; reflexivity|]. split; [vm_compute; reflexivity|].
    apply or_introl. vm_compute. reflexivity.
  - apply H2; [vm_compute; discriminate|].
    split; [vm_compute; reflexivity|]. split; [vm_compute; reflexivity|].
    apply or_intror. vm_compute. reflexivity.
  - intro H. apply H3 in H; [|vm_compute; discriminate].
    destruct H as [_ [_ [H|H]]]; vm_compute in H; discriminate H.
Defined.

(** C8. A connection attaches and, before its first status query settles,
    leaves the map: it reports END, or [dispose()] is called.  Then the
    query rejects.  The resumed attach handler hands ERROR to
    [_connectionOnStatus], whose first statement finds no entry for the
    connection in the map: the handler throws a TypeError. *)
Theorem C8_failed_status_query_after_removal_throws :
  let gone := session false [Attach Handshake ScriptRequest;
                             ConnectionStatus Handshake 0 STATUS_END] in
  let torn_down := session false [Attach Handshake ScriptRequest; Dispose Handshake] in
  In (QueryStatus 0) (effects gone) /\
  Map_get 0 (_connections gone) = None /\
  on (StatusQuerySettled Handshake 0 None) gone = (Throw TypeError, gone) /\
  In (QueryStatus 0) (effects torn_down) /\
  Map_get 0 (_connections torn_down) = None /\
  on (StatusQuerySettled Handshake 0 None) torn_down = (Throw TypeError, torn_down).
Proof. vm_compute. intuition reflexivity. Qed.

(** Only the dummy connection is there, the status is RUNNING:
    [getProperties] is answered by the dummy connection. *)
Lemma C5_forwarding_without_enabled_connection_witness :
  let s := session false [Attach Handshake DummyRequest; DummyRunResolved Handshake 0] in
  _enabledConnection s = None /\
  _status s = STATUS_RUNNING /\
  _dummyConnection s = Some 0 /\
  getProperties "id" s = (Normal (OfConnection 0 (getProperties_call "id")), s) /\
  getStackFrames s = (Normal EmptyStack, s) /\
  evaluateOnCallFrame 0 "x" s = (Throw (Error "No connection"), s).
Proof.
  pose proof (C5_forwarding_without_enabled_connection
                (session false [Attach Handshake DummyRequest; DummyRunResolved Handshake 0])
                eq_refl) as H.
  destruct H as [H1 [_ [_ [H4 [_ [H6 _]]]]]].
  split; [reflexivity|]. split; [reflexivity|]. split; [reflexivity|].
  split; [exact (H6 "id" 0 eq_refl)|]. split; [exact H4 | exact (H1 0 "x")].
Defined.

(** The enabled connection breaks again after a step. *)
Lemma C7_enabled_connection_breaks_again_witness :
  let s := session false [Attach Handshake ScriptRequest;
                          StatusQuerySettled Handshake 0 (Some STATUS_BREAK)] in
  let s' := exec (on (ConnectionStatus Handshake 0 STATUS_BREAK)) s in
  _enabledConnection s = Some 0 /\
  emitted s' = [STATUS_BREAK; STATUS_BREAK] /\
  _enabledConnection s' = Some 0 /\
  _status s' = STATUS_BREAK.
Proof.
  pose proof (C7_enabled_connection_breaks_again Handshake handshake_correct handshake_dummy
                None "run" (sample_config false)
                [Attach Handshake ScriptRequest;
                 StatusQuerySettled Handshake 0 (Some STATUS_BREAK)] 0 eq_refl) as H.
  destruct H as [_ [_ [H3 [H4 [_ H6]]]]].
  split; [reflexivity|]. split; [exact H3|]. split; [exact H4 | exact H6].
Defined.

(** The first status query of a connection that has just attached fails. *)
Lemma failed_status_query_removes_the_connection_witness :
  let s := session false [Attach Handshake ScriptRequest] in
  let s' := exec (on (StatusQuerySettled Handshake 0 None)) s in
  Map_get 0 (_connections s) = Some (info_of 0 STATUS_STARTING) /\
  completion (on (StatusQuerySettled Handshake 0 None)) s = Normal tt /\
  Map_get 0 (_connections s') = None /\
  effects s' = effects s ++ [DisposeSubscription {| detaches := 0 |}; DisposeConnection 0].
Proof.
  pose proof (failed_status_query_removes_the_connection Handshake handshake_correct
                handshake_dummy None "run" (sample_config false)
                [Attach Handshake ScriptRequest] 0 (info_of 0 STATUS_STARTING) eq_refl) as H.
  destruct H as [_ [H2 [_ [H4 _]]]].
  split; [reflexivity|]. split; [exact H2|]. split; [exact H4 | reflexivity].
Defined.



(** Connection 0 attaches, is continued past the loader breakpoint and
    breaks: it is enabled.  Connection 1 attaches and breaks: it stays
    disabled.  Connection 0 runs on: connection 1 is enabled. *)
Example two_connections_take_turns :
  let s1 := session false [Attach Handshake ScriptRequest;
                           StatusQuerySettled Handshake 0 (Some STATUS_STARTING);
                           ConnectionStatus Handshake 0 STATUS_BREAK] in
  let s2 := run_from Handshake handshake_correct handshake_dummy "run" s1
              [Attach Handshake ScriptRequest;
               StatusQuerySettled Handshake 1 (Some STATUS_BREAK)] in
  let s3 := exec (on (ConnectionStatus Handshake 0 STATUS_RUNNING)) s2 in
  (_enabledConnection s1, _status s1) = (Some 0, STATUS_BREAK) /\
  (_enabledConnection s2, _status s2) = (Some 0, STATUS_BREAK) /\
  (_enabledConnection s3, _status s3) = (Some 1, STATUS_BREAK) /\
  emitted s3 = [STATUS_BREAK; STATUS_RUNNING; STATUS_BREAK].
Proof. vm_compute. repeat split. Qed.

(** No connection ever attaches, the configuration ends the session when
    no request is left, and the connector closes. *)
Example connector_closes_with_no_connection :
  let s := session true [ConnectorClose Handshake] in
  _status s = STATUS_END /\ emitted s = [STATUS_END].
Proof. vm_compute. repeat split. Qed.

(** ** More examples *)

(** Connection 0 is enabled and connection 1 waits in BREAK; connection 0
    runs on and connection 1 takes its place. *)
Lemma enabled_connection_resumes_witness :
  let s := session false [Attach Handshake ScriptRequest;
                          StatusQuerySettled Handshake 0 (Some STATUS_BREAK);
                          Attach Handshake ScriptRequest;
                          StatusQuerySettled Handshake 1 (Some STATUS_BREAK)] in
  let s' := exec (on (ConnectionStatus Handshake 0 STATUS_RUNNING)) s in
  _enabledConnection s = Some 0 /\
  exists before c' info' after,
    _connections s' = before ++ (c', info') :: after /\
    (forall e, In e before -> status (snd e) <> STATUS_BREAK) /\
    status info' = STATUS_BREAK /\
    c' <> 0 /\
    _enabledConnection s' = Some c' /\
    _status s' = STATUS_BREAK /\
    emitted s' = emitted s ++ [STATUS_RUNNING; STATUS_BREAK].
Proof.
  assert (He : _enabledConnection
                 (session false [Attach Handshake ScriptRequest;
                                 StatusQuerySettled Handshake 0 (Some STATUS_BREAK);
                                 Attach Handshake ScriptRequest;
                                 StatusQuerySettled Handshake 1 (Some STATUS_BREAK)])
               = Some 0) by (vm_compute; reflexivity).
  split; [exact He|].
  refine (proj1 (proj2 (proj2
            (enabled_connection_resumes Handshake handshake_correct handshake_dummy
               None "run" (sample_config false) _ 0 He))) _).
  exists (1, info_of 1 STATUS_BREAK). split; [vm_compute; auto | reflexivity].
Defined.

(** Connection 0 is enabled; connection 1, waiting in BREAK, stops. *)
Lemma other_connection_ends_witness :
  let s := session false [Attach Handshake ScriptRequest;
                          StatusQuerySettled Handshake 0 (Some STATUS_BREAK);
                          Attach Handshake ScriptRequest;
                          StatusQuerySettled Handshake 1 (Some STATUS_BREAK)] in
  let s' := exec (on (ConnectionStatus Handshake 1 STATUS_STOPPED)) s in
  _enabledConnection s = Some 0 /\
  Map_get 1 (_connections s) = Some (info_of 1 STATUS_BREAK) /\
  _enabledConnection s' = Some 0 /\
  _status s' = STATUS_BREAK /\
  emitted s' = emitted s /\
  disposed s' = disposed s ++ [1].
Proof.
  assert (He : _enabledConnection
                 (session false [Attach Handshake ScriptRequest;
                                 StatusQuerySettled Handshake 0 (Some STATUS_BREAK);
                                 Attach Handshake ScriptRequest;
                                 StatusQuerySettled Handshake 1 (Some STATUS_BREAK)])
               = Some 0) by (vm_compute; reflexivity).
  assert (Hg : Map_get 1 (_connections
                 (session false [Attach Handshake ScriptRequest;
                                 StatusQuerySettled Handshake 0 (Some STATUS_BREAK);
                                 Attach Handshake ScriptRequest;
                                 StatusQuerySettled Handshake 1 (Some STATUS_BREAK)]))
               = Some (info_of 1 STATUS_BREAK)) by (vm_compute; reflexivity).
  split; [exact He|]. split; [exact Hg|].
  destruct (other_connection_ends Handshake handshake_correct handshake_dummy
              None "run" (sample_config false) _ 1 0 (info_of 1 STATUS_BREAK)
              STATUS_STOPPED He (fun E => O_S 0 (eq_sym E)) Hg eq_refl)
    as [_ [H2 [H3 [H4 [H5 _]]]]].
  split; [exact H2|]. split; [exact H3|]. split; [exact H4 | exact H5].
Defined.

(** Connection 1 waits in BREAK: connection 0 is enabled. *)
Lemma waiting_break_is_served_witness :
  let s := session false [Attach Handshake ScriptRequest;
                          StatusQuerySettled Handshake 0 (Some STATUS_BREAK);
                          Attach Handshake ScriptRequest;
                          StatusQuerySettled Handshake 1 (Some STATUS_BREAK)] in
  Map_get 1 (_connections s) = Some (info_of 1 STATUS_BREAK) /\
  (_status s = STATUS_END \/
   (_status s = STATUS_BREAK /\
    exists c', _enabledConnection s = Some c' /\ tracked s c')).
Proof.
  assert (Hg : Map_get 1 (_connections
                 (session false [Attach Handshake ScriptRequest;
                                 StatusQuerySettled Handshake 0 (Some STATUS_BREAK);
                                 Attach Handshake ScriptRequest;
                                 StatusQuerySettled Handshake 1 (Some STATUS_BREAK)]))
               = Some (info_of 1 STATUS_BREAK)) by (vm_compute; reflexivity).
  split; [exact Hg|].
  exact (waiting_break_is_served Handshake handshake_correct handshake_dummy
           None "run" (sample_config false) _ 1 (info_of 1 STATUS_BREAK) Hg eq_refl).
Defined.

(** A connection is enabled and the dummy connection is there:
    [getProperties] goes to the enabled connection. *)
Lemma forwarding_goes_to_the_enabled_connection_witness :
  let s := session false [Attach Handshake DummyRequest;
                          DummyRunResolved Handshake 0;
                          Attach Handshake ScriptRequest;
                          StatusQuerySettled Handshake 1 (Some STATUS_BREAK)] in
  _enabledConnection s = Some 1 /\
  _dummyConnection s = Some 0 /\
  getProperties "id" s = (Normal (OfConnection 1 (getProperties_call "id")), s).
Proof.
  assert (He : _enabledConnection
                 (session false [Attach Handshake DummyRequest;
                                 DummyRunResolved Handshake 0;
                                 Attach Handshake ScriptRequest;
                                 StatusQuerySettled Handshake 1 (Some STATUS_BREAK)])
               = Some 1) by (vm_compute; reflexivity).
  split; [exact He|]. split; [vm_compute; reflexivity|].
  exact (proj1 (forwarding_goes_to_the_enabled_connection Handshake handshake_correct
                  handshake_dummy None "run" (sample_config false) _ 1 He) "id").
Defined.

(** The session ended with the connector still there; a connection attaches
    afterwards and breaks, and is not enabled. *)
Lemma nothing_enabled_after_end_witness :
  let s := session true [Attach Handshake ScriptRequest;
                         StatusQuerySettled Handshake 0 (Some STATUS_STOPPED)] in
  let s' := run_from Handshake handshake_correct handshake_dummy "run" s
              [Attach Handshake ScriptRequest;
               StatusQuerySettled Handshake 1 (Some STATUS_BREAK)] in
  _status s = STATUS_END /\
  _enabledConnection s' = None /\
  getStackFrames s' = (Normal EmptyStack, s').
Proof.
  assert (Hs : _status (session true [Attach Handshake ScriptRequest;
                                      StatusQuerySettled Handshake 0 (Some STATUS_STOPPED)])
               = STATUS_END) by (vm_compute; reflexivity).
  split; [exact Hs|].
  destruct (nothing_enabled_after_end Handshake handshake_correct handshake_dummy
              None "run" (sample_config true) _
              [Attach Handshake ScriptRequest;
               StatusQuerySettled Handshake 1 (Some STATUS_BREAK)] Hs)
    as [H1 [H2 _]].
  split; [exact H1 | exact H2].
Defined.

(** The enabled connection reports STOPPING and stays enabled; it reports
    a status that is none of the constants and stays enabled, with that
    status cached. *)
Lemma enabled_connection_cache_witness :
  let s := session false [Attach Handshake ScriptRequest;
                          StatusQuerySettled Handshake 0 (Some STATUS_BREAK)] in
  let s' := exec (on (ConnectionStatus Handshake 0 STATUS_STOPPING)) s in
  let s'' := exec (on (ConnectionStatus Handshake 0 (STATUS_UNLISTED "paused"))) s in
  _enabledConnection s = Some 0 /\
  (_enabledConnection s' = Some 0 /\
   _status s' = STATUS_BREAK /\
   emitted s' = emitted s /\
   effects s' = effects s ++ [SendContinuationCommand 0 "run"]) /\
  (_enabledConnection s'' = Some 0 /\
   _status s'' = STATUS_BREAK /\
   effects s'' = effects s /\
   exists info, Map_get 0 (_connections s'') = Some info /\
                status info = STATUS_UNLISTED "paused").
Proof.
  assert (He : _enabledConnection
                 (session false [Attach Handshake ScriptRequest;
                                 StatusQuerySettled Handshake 0 (Some STATUS_BREAK)])
               = Some 0) by (vm_compute; reflexivity).
  split; [exact He|].
  destruct (enabled_connection_cache Handshake handshake_correct handshake_dummy
              None "run" (sample_config false) _ 0 He)
    as [_ [Hcont Hother]].
  split.
  - destruct (Hcont STATUS_STOPPING (or_intror eq_refl)) as [H1 [H2 [H3 [H4 _]]]].
    split; [exact H1|]. split; [exact H2|]. split; [exact H3 | exact H4].
  - exact (Hother "paused").
Defined.

(** A connection ends; a status it reports afterwards, and its first status
    query settling afterwards, throw. *)
Lemma callbacks_of_a_disposed_connection_throw_witness :
  let s := session false [Attach Handshake ScriptRequest;
                          ConnectionStatus Handshake 0 STATUS_END] in
  In 0 (disposed s) /\
  on (ConnectionStatus Handshake 0 STATUS_BREAK) s = (Throw TypeError, s) /\
  on (StatusQuerySettled Handshake 0 (Some STATUS_STARTING)) s = (Throw TypeError, s).
Proof.
  assert (Hd : In 0 (disposed (session false [Attach Handshake ScriptRequest;
                                              ConnectionStatus Handshake 0 STATUS_END])))
    by (vm_compute; auto).
  split; [exact Hd|].
  destruct (callbacks_of_a_disposed_connection_throw Handshake handshake_correct
              handshake_dummy None "run" (sample_config false) _ 0 Hd) as [H1 H2].
  split; [exact (H1 STATUS_BREAK) | exact (H2 (Some STATUS_STARTING))].
Defined.

(** The dummy connection is there; after [dispose()] it still answers. *)
Lemma dummy_connection_stays_witness :
  let s := session false [Attach Handshake DummyRequest; DummyRunResolved Handshake 0] in
  let s' := run_from Handshake handshake_correct handshake_dummy "run" s
              [Dispose Handshake] in
  _dummyConnection s = Some 0 /\
  exists d',
    _dummyConnection s' = Some d' /\
    (forall expression,
       runtimeEvaluate expression s' =
       (Normal (OfConnection d' (evaluateOnCallFrame_call 0 expression)), s')) /\
    (forall remoteId,
       _enabledConnection s' = None ->
       getProperties remoteId s' =
       (Normal (OfConnection d' (getProperties_call remoteId)), s')).
Proof.
  assert (Hd : _dummyConnection
                 (session false [Attach Handshake DummyRequest;
                                 DummyRunResolved Handshake 0]) = Some 0)
    by (vm_compute; reflexivity).
  split; [exact Hd|].
  exact (dummy_connection_stays Handshake handshake_correct handshake_dummy
           None "run" (sample_config false) _ [Dispose Handshake] 0 Hd).
Defined.

(** Without [endDebugWhenNoRequests], the last connection stopping leaves
    the session running while the connector is there. *)
Lemma session_ends_only_without_connector_witness :
  let s := session false [Attach Handshake ScriptRequest;
                          StatusQuerySettled Handshake 0 (Some STATUS_STOPPED)] in
  endDebugWhenNoRequests (sample_config false) = false /\
  _config s = sample_config false /\
  (_status s = STATUS_END -> _connector s = None) /\
  (_connector s <> None -> _status s = STATUS_BREAK \/ _status s = STATUS_RUNNING).
Proof.
  split; [reflexivity|].
  exact (session_ends_only_without_connector Handshake handshake_correct handshake_dummy
           None "run" (sample_config false)
           [Attach Handshake ScriptRequest;
            StatusQuerySettled Handshake 0 (Some STATUS_STOPPED)] eq_refl).
Defined.
